(** * deep-deep: the Q-learning spider (deepdeep/spiders/qspider.py)

    A shallow embedding of [TDRegressor] and [QSpider] and the properties
    of the crawl-frontier scheduler that follow from the code.

    Conventions of the embedding.
    - Python floats are taken as exact rationals ([Qc], canonical
      fractions, so that numeric equality is Leibniz equality).  Rounding,
      infinities and NaN are outside the model.
    - Python dicts of scores are mutable objects: they live in a heap of
      dict objects and are passed around by reference (a number).
    - A method of the spider is a computation in the monad [M]: it reads
      and writes the spider object and either returns a value or raises;
      what was mutated before a raise stays mutated.
    - [print] calls and logger calls append to the spider's output trace. *)

From Stdlib Require Import ZArith QArith Qcanon.
From stdpp Require Import base numbers list gmap strings fin_maps sorting.

Local Open Scope Z_scope.

(** ** Python numbers *)

Module Py.

(** [a < b] on floats. *)
Definition ltb (a b : Qc) : bool := negb (Qle_bool b a).

(** [a <= b] on floats. *)
Definition leb (a b : Qc) : bool := Qle_bool a b.

(** The builtin [max(a, b)]: the first argument is kept unless the
    second one is strictly greater. *)
Definition max (a b : Qc) : Qc := if ltb a b then b else a.

(** The builtin [sum]: starts from 0 and adds from left to right. *)
Definition sum (l : list Qc) : Qc := foldl Qcplus 0%Qc l.

(** The builtin [int] on a float: truncation towards zero, of the exact
    value.  (Python's [int] raises on NaN and on infinities, and a float
    product may be rounded below the exact one; both are outside this
    model of the numbers.) *)
Definition int (x : Qc) : Z := Z.quot (Qnum x) (Zpos (Qden x)).

Definition of_Z (n : Z) : Qc := Q2Qc (inject_Z n).

End Py.

(** ** Exceptions and output *)

Inductive exn : Type :=
| KeyError        (* a missing dict key or node attribute *)
| NetworkXError   (* a graph query about a node that is not in the graph *)
| TypeError.      (* an operation applied to [None] *)

(** A score dict: score type to float. *)
Abbreviation dict := (gmap string Qc).

(** A link dict, as produced by [iter_link_dicts]: feature name to value. *)
Abbreviation Link := (gmap string string).

(** What the spider prints and logs. *)
Inductive Event : Type :=
| PrintReward (r_t1 : Qc) (url : string)
| PrintReturn (predicted observed immediate future : Qc)
| WarnDroppedWithoutNodeId (url : string)
| InfoFewerUpdates (min_response_count interval : Z)
| InfoUpdating
| InfoUpdatingDone.

(** ** Requests and responses (Scrapy) *)

Record Request : Type := mkRequest {
  req_url : string;
  req_priority : Z;
  req_node_id : option nat;        (* meta.get('node_id') *)
  req_domain : option string;      (* meta.get('domain') *)
}.

(** A response, with what the external collaborators compute from it. *)
Record Response : Type := mkResponse {
  resp_url : string;
  resp_status : Z;
  resp_has_text : bool;             (* hasattr(response, 'text') *)
  resp_node_id : option nat;        (* meta.get('node_id') *)
  resp_domain : string;             (* get_response_domain(response) *)
  resp_max_scores : dict;           (* response_max_scores(response) *)
  resp_links : list Link;           (* iter_link_dicts, after the shuffle *)
}.

(** ** The crawl graph (networkx [DiGraph]) *)

(** A node's attribute dict.  An outer [None] is a key that is not set;
    the Python value [None] of [ok] and [response_id] is the inner
    [None].  [node_scores] holds a reference to a score dict. *)
Record NodeAttrs : Type := mkNodeAttrs {
  node_url : option string;
  node_visited : option bool;
  node_ok : option (option bool);
  node_response_id : option (option Z);
  node_scores : option nat;
}.

Definition no_attrs : NodeAttrs := mkNodeAttrs None None None None None.

Definition attr_update {A} (old new : option A) : option A :=
  match new with
  | Some v => Some v
  | None => old
  end.

(** [attr_dict.update(attrs)]: the keys given are written, the others
    are kept. *)
Definition attrs_update (old new : NodeAttrs) : NodeAttrs :=
  {| node_url := attr_update (node_url old) (node_url new);
     node_visited := attr_update (node_visited old) (node_visited new);
     node_ok := attr_update (node_ok old) (node_ok new);
     node_response_id :=
       attr_update (node_response_id old) (node_response_id new);
     node_scores := attr_update (node_scores old) (node_scores new) |}.

(** [node] is [G.node]; [pred] is [G.pred], the incoming edges of a node
    with their [link] attribute, in the order of insertion. *)
Record DiGraph : Type := mkDiGraph {
  node : gmap nat NodeAttrs;
  pred : gmap nat (list (nat * Link));
}.

Definition DiGraph_new : DiGraph := mkDiGraph ∅ ∅.

(** [G.add_node(n, **attrs)]: creates the node or updates its
    attributes. *)
Definition add_node (n : nat) (attrs : NodeAttrs) (g : DiGraph) : DiGraph :=
  {| node := <[n := attrs_update (default no_attrs (node g !! n)) attrs]>
               (node g);
     pred := pred g |}.

Fixpoint assoc_set (u : nat) (link : Link) (l : list (nat * Link))
  : list (nat * Link) :=
  match l with
  | [] => [(u, link)]
  | (u', x) :: l' =>
      if decide (u' = u) then (u, link) :: l'
      else (u', x) :: assoc_set u link l'
  end.

(** [G.add_edge(u, v, link=link)]: adds the end points that are missing
    and sets the edge's [link]. *)
Definition add_edge (u v : nat) (link : Link) (g : DiGraph) : DiGraph :=
  let g' := add_node v no_attrs (add_node u no_attrs g) in
  {| node := node g';
     pred := <[v := assoc_set u link (default [] (pred g !! v))]> (pred g) |}.

(** The [link] dicts of the edges into [n], as [_iter_incoming_link_dicts]
    enumerates them; [predecessors_iter] raises for a node that is not in
    the graph. *)
Definition incoming_link_dicts (n : nat) (g : DiGraph) : exn + list Link :=
  match node g !! n with
  | None => inl NetworkXError
  | Some _ => inr ((default [] (pred g !! n)).*2)
  end.

(** ** The frontier (deepdeep.queues) *)

(** Modelled from the spec: [RequestsPriorityQueue], the worklist of one
    domain, is kept highest priority first, and first in first out among
    equal priorities. *)
Fixpoint queue_push (r : Request) (q : list Request) : list Request :=
  match q with
  | [] => [r]
  | x :: q' =>
      if (req_priority x <? req_priority r)%Z then r :: q
      else x :: queue_push r q'
  end.

(** Modelled from the spec: [next_request], the entry that [pop] would
    return, without removing it. *)
Definition next_request (q : list Request) : option Request := head q.

Definition set_priority (r : Request) (p : Z) : Request :=
  {| req_url := req_url r; req_priority := p;
     req_node_id := req_node_id r; req_domain := req_domain r |}.

(** Modelled from the spec: the re-sorting step of
    [update_all_priorities], entries taken in queue order. *)
Definition queue_resort (q : list Request) : list Request :=
  foldl (λ acc r, queue_push r acc) [] q.

(** Modelled from the spec: [BalancedPriorityQueue.get_domain_queue]; a
    domain without requests has an empty queue. *)
Definition get_domain_queue (domain : string)
    (queues : gmap string (list Request)) : list Request :=
  default [] (queues !! domain).

(** Modelled from the spec: [BalancedPriorityQueue.get_domains]. *)
Definition get_domains (queues : gmap string (list Request)) : list string :=
  (map_to_list queues).*1.

(** ** The domain state tracker (deepdeep.utils.MaxScores) *)

(** [scores] maps a domain to its score dict object. *)
Record MaxScores : Type := mkMaxScores {
  classes : list string;
  scores : gmap string nat;
}.

(** Modelled from the spec: [len(domain_scores)], the number of domains
    seen. *)
Definition MaxScores_len (ms : MaxScores) : Z := Z.of_nat (size (scores ms)).

(** Modelled from the spec: a dict that gives every score type the same
    value, as [get_constant_scores] builds it. *)
Definition constant_scores (types : list string) (v : Qc) : dict :=
  list_to_map ((λ k, (k, v)) <$> types).

(** A score that a dict does not list counts as 0.0. *)
Definition score (d : dict) (k : string) : Qc := default 0%Qc (d !! k).

(** Modelled from the spec: [update] sets, for each score type,
    [state[type] = max(state[type], observed[type])]. *)
Definition running_max (state observed : dict) : dict :=
  merge (λ c o,
    match c, o with
    | Some c, Some o => Some (Py.max c o)
    | Some c, None => Some c
    | None, Some o => Some (Py.max 0%Qc o)
    | None, None => None
    end) state observed.

(** Modelled from the spec: [dict_subtract(d1, d2)], the difference of the
    two dicts score type by score type. *)
Definition dict_subtract (d1 d2 : dict) : dict :=
  merge (λ x y,
    match x, y with
    | None, None => None
    | _, _ => Some (default 0%Qc x - default 0%Qc y)%Qc
    end) d1 d2.

(** ** External collaborators

    scikit-learn's [SGDRegressor], the two vectorizers, the constants of
    the packages that are imported by the spider, and Scrapy's engine,
    which consumes the requests that [parse] yields. *)

Class Collaborators : Type := {
  (** [available_form_types()] *)
  available_form_types : list string;
  (** [FLOAT_PRIORITY_MULTIPLIER] of [deepdeep.queues] *)
  FLOAT_PRIORITY_MULTIPLIER : Z;
  (** the feature matrix row built by [_vectorize]: state features
      stacked with the hashed link features *)
  Features : Type;
  state_vectorizer_transform : dict → Features;
  action_vectorizer_transform : Link → Features;
  hstack : Features → Features → Features;
  (** [SGDRegressor]: construction, the [coef_] attribute, [predict] on
      one row, and [partial_fit] on one row with one target *)
  SGDRegressor : Type;
  Coef : Type;
  SGDRegressor_new : SGDRegressor;
  coef_ : SGDRegressor → option Coef;
  SGD_predict : SGDRegressor → Features → Qc;
  SGD_partial_fit : SGDRegressor → Features → Qc → SGDRegressor;
  (** [coef_] is [None] on a new regressor and set by every fit *)
  coef_new : coef_ SGDRegressor_new = None;
  coef_partial_fit : ∀ q x y, is_Some (coef_ (SGD_partial_fit q x y));
  (** what the engine does to the frontier with a request the spider
      yields (scheduling, duplicate filtering) *)
  engine_crawl :
    Request → gmap string (list Request) → gmap string (list Request);
}.

(** ** TDRegressor *)

Section Spider.
Context `{Collaborators}.

Record TDRegressor : Type := mkTDRegressor {
  gamma : Qc;
  Q : SGDRegressor;
}.

(** [TDRegressor.__init__] *)
Definition TDRegressor_init (gamma : Qc) : TDRegressor :=
  {| gamma := gamma; Q := SGDRegressor_new |}.

(** [TDRegressor._vectorize].

    Modelled from the spec: the action vectorizer of
    [score_links.get_vectorizer] encodes a link-feature mapping; it has
    no encoding of an absent action, so [None] is a [TypeError]. *)
Definition TDRegressor__vectorize (s : dict) (a : option Link)
  : exn + Features :=
  match a with
  | None => inl TypeError
  | Some a =>
      inr (hstack (state_vectorizer_transform s)
                  (action_vectorizer_transform a))
  end.

(** [TDRegressor.predict] *)
Definition TDRegressor_predict (self : TDRegressor) (s : dict)
    (a : option Link) : exn + Qc :=
  match coef_ (Q self) with
  | None => inr 0%Qc
  | Some _ =>
      match TDRegressor__vectorize s a with
      | inl e => inl e
      | inr X => inr (SGD_predict (Q self) X)
      end
  end.

(** The local [future_reward] of [TDRegressor.update]. *)
Definition future_reward (self : TDRegressor) (s_t1 : dict)
    (a_t1 : option Link) : exn + Qc :=
  match a_t1, coef_ (Q self) with
  | None, _ | _, None => inr 0%Qc  (* be optimistic *)
  | Some _, Some _ =>
      match TDRegressor__vectorize s_t1 a_t1 with
      | inl e => inl e
      | inr X_t1 => inr (gamma self * SGD_predict (Q self) X_t1)%Qc
      end
  end.

(** [TDRegressor.update]: the new estimator and the line it prints. *)
Definition TDRegressor_update (self : TDRegressor) (s_t : dict)
    (a_t : option Link) (r_t1 : Qc) (s_t1 : dict) (a_t1 : option Link)
  : exn + (TDRegressor * Event) :=
  match TDRegressor__vectorize s_t a_t with
  | inl e => inl e
  | inr X_t =>
      match future_reward self s_t1 a_t1 with
      | inl e => inl e
      | inr future =>
          let R_observed := (r_t1 + future)%Qc in
          match TDRegressor_predict self s_t a_t with
          | inl e => inl e
          | inr predicted =>
              inr ({| gamma := gamma self;
                      Q := SGD_partial_fit (Q self) X_t R_observed |},
                   PrintReturn predicted R_observed r_t1 future)
          end
      end
  end.

(** The estimators that [__init__] and a sequence of returned [update]
    calls produce, with the number of updates made. *)
Inductive trained_by : nat → TDRegressor → Prop :=
| trained_init g : trained_by 0%nat (TDRegressor_init g)
| trained_update n m s_t a_t r_t1 s_t1 a_t1 m' ev :
    trained_by n m →
    TDRegressor_update m s_t a_t r_t1 s_t1 a_t1 = inr (m', ev) →
    trained_by (S n) m'.

(** ** The spider object *)

Record QSpider : Type := mkQSpider {
  G : DiGraph;
  node_ids : nat;                      (* the next value of the counter *)
  response_count : Z;
  _scores_recalculated_at : Z;
  domain_scores : MaxScores;
  rl_model : TDRegressor;
  scheduler_queue : gmap string (list Request);
  heap : gmap nat dict;                (* the score dict objects *)
  next_loc : nat;                      (* the next fresh reference *)
  out : list Event;                    (* printed and logged lines *)
}.

Definition set_G (g : DiGraph) (s : QSpider) : QSpider :=
  mkQSpider g (node_ids s) (response_count s) (_scores_recalculated_at s)
    (domain_scores s) (rl_model s) (scheduler_queue s) (heap s)
    (next_loc s) (out s).
Definition set_node_ids (n : nat) (s : QSpider) : QSpider :=
  mkQSpider (G s) n (response_count s) (_scores_recalculated_at s)
    (domain_scores s) (rl_model s) (scheduler_queue s) (heap s)
    (next_loc s) (out s).
Definition set_response_count (n : Z) (s : QSpider) : QSpider :=
  mkQSpider (G s) (node_ids s) n (_scores_recalculated_at s)
    (domain_scores s) (rl_model s) (scheduler_queue s) (heap s)
    (next_loc s) (out s).
Definition set__scores_recalculated_at (n : Z) (s : QSpider) : QSpider :=
  mkQSpider (G s) (node_ids s) (response_count s) n
    (domain_scores s) (rl_model s) (scheduler_queue s) (heap s)
    (next_loc s) (out s).
Definition set_domain_scores (ms : MaxScores) (s : QSpider) : QSpider :=
  mkQSpider (G s) (node_ids s) (response_count s)
    (_scores_recalculated_at s) ms (rl_model s) (scheduler_queue s)
    (heap s) (next_loc s) (out s).
Definition set_rl_model (m : TDRegressor) (s : QSpider) : QSpider :=
  mkQSpider (G s) (node_ids s) (response_count s)
    (_scores_recalculated_at s) (domain_scores s) m (scheduler_queue s)
    (heap s) (next_loc s) (out s).
Definition set_scheduler_queue (q : gmap string (list Request))
    (s : QSpider) : QSpider :=
  mkQSpider (G s) (node_ids s) (response_count s)
    (_scores_recalculated_at s) (domain_scores s) (rl_model s) q
    (heap s) (next_loc s) (out s).
Definition set_heap (h : gmap nat dict) (n : nat) (s : QSpider) : QSpider :=
  mkQSpider (G s) (node_ids s) (response_count s)
    (_scores_recalculated_at s) (domain_scores s) (rl_model s)
    (scheduler_queue s) h n (out s).
Definition set_out (o : list Event) (s : QSpider) : QSpider :=
  mkQSpider (G s) (node_ids s) (response_count s)
    (_scores_recalculated_at s) (domain_scores s) (rl_model s)
    (scheduler_queue s) (heap s) (next_loc s) o.

(** [QSpider.__init__], with the [gamma] argument of the crawl.

    Modelled from the spec: the count of completed fetches, kept by the
    base spider, starts at 0. *)
Definition QSpider_init (gamma : Qc) : QSpider :=
  {| G := DiGraph_new;
     node_ids := 0;
     response_count := 0;
     _scores_recalculated_at := 0;
     domain_scores := {| classes := available_form_types; scores := ∅ |};
     rl_model := TDRegressor_init gamma;
     scheduler_queue := ∅;
     heap := ∅;
     next_loc := 0;
     out := [] |}.

(** ** Methods as computations on the spider object *)

Inductive outcome (A : Type) : Type :=
| Ok (a : A) (s : QSpider)
| Err (e : exn) (s : QSpider).
Global Arguments Ok {A} a s.
Global Arguments Err {A} e s.

Definition M (A : Type) : Type := QSpider → outcome A.

Definition ret {A} (a : A) : M A := λ s, Ok a s.

Definition bind {A B} (m : M A) (k : A → M B) : M B :=
  λ s, match m s with
       | Ok a s' => k a s'
       | Err e s' => Err e s'
       end.

Definition raise {A} (e : exn) : M A := λ s, Err e s.

Definition gets {A} (f : QSpider → A) : M A := λ s, Ok (f s) s.

Definition modify (f : QSpider → QSpider) : M unit := λ s, Ok tt (f s).

Definition lift {A} (r : exn + A) : M A :=
  match r with
  | inl e => raise e
  | inr a => ret a
  end.

(** [try: m / except Exception as e: h e]; what [m] mutated before it
    raised stays mutated. *)
Definition catch {A} (m : M A) (h : exn → M A) : M A :=
  λ s, match m s with
       | Ok a s' => Ok a s'
       | Err e s' => h e s'
       end.

(** The spider object that a computation leaves behind. *)
Definition final {A} (o : outcome A) : QSpider :=
  match o with
  | Ok _ s => s
  | Err _ s => s
  end.

Notation "'let*' x := m 'in' k" := (bind m (λ x, k))
  (at level 10, x name, m at level 100, k at level 200, only parsing).
Notation "m ;;; k" := (bind m (λ _, k))
  (at level 100, k at level 200, right associativity, only parsing).

(** A [for] loop whose body returns nothing. *)
Fixpoint for_ {A} (l : list A) (body : A → M unit) : M unit :=
  match l with
  | [] => ret tt
  | x :: l' => body x ;;; for_ l' body
  end.

(** A loop that collects one result per element. *)
Fixpoint mapM {A B} (f : A → M B) (l : list A) : M (list B) :=
  match l with
  | [] => ret []
  | x :: l' => let* y := f x in let* ys := mapM f l' in ret (y :: ys)
  end.

(** [print] and the logger. *)
Definition print (e : Event) : M unit :=
  modify (λ s, set_out (out s ++ [e]) s).

(** A new dict object. *)
Definition new_dict (d : dict) : M nat :=
  λ s, Ok (next_loc s)
          (set_heap (<[next_loc s := d]> (heap s)) (S (next_loc s)) s).

(** The contents of a dict object. *)
Definition contents (l : nat) (s : QSpider) : dict :=
  default ∅ (heap s !! l).

(** In-place update of a dict object. *)
Definition assign (l : nat) (d : dict) : M unit :=
  modify (λ s, set_heap (<[l := d]> (heap s)) (next_loc s) s).

(** [d.copy()] *)
Definition dict_copy (l : nat) : M nat :=
  let* d := gets (contents l) in new_dict d.

(** Modelled from the spec: [get_constant_scores(v)] of
    [deepdeep.score_pages] returns a new dict that gives every available
    score type the value [v]. *)
Definition get_constant_scores (v : Qc) : M nat :=
  new_dict (constant_scores available_form_types v).

(** Modelled from the spec: [response_max_scores(response)], the scores
    that the content scorer observed on the page, in a new dict. *)
Definition response_max_scores (response : Response) : M nat :=
  new_dict (resp_max_scores response).

(** Modelled from the spec: [MaxScores.__getitem__], the [state(domain)]
    operation of the tracker; it returns a fresh snapshot copy, never a
    live reference.  A domain that was not seen has all-zero state. *)
Definition MaxScores_getitem (domain : string) : M nat :=
  let* ms := gets domain_scores in
  match scores ms !! domain with
  | Some l => dict_copy l
  | None => new_dict (constant_scores (classes ms) 0%Qc)
  end.

(** Modelled from the spec: [MaxScores.update(domain, observed)] sets,
    for each score type, [state[type] = max(state[type], observed[type])]
    in the state of the domain, which it creates all-zero when the domain
    is new. *)
Definition MaxScores_update (domain : string) (observed : nat) : M unit :=
  let* ms := gets domain_scores in
  let* l :=
    match scores ms !! domain with
    | Some l => ret l
    | None =>
        let* l := new_dict (constant_scores (classes ms) 0%Qc) in
        modify (set_domain_scores
                  {| classes := classes ms;
                     scores := <[domain := l]> (scores ms) |}) ;;;
        ret l
    end in
  let* cur := gets (contents l) in
  let* obs := gets (contents observed) in
  assign l (running_max cur obs).

(** Modelled from the spec: [BaseSpider.increase_response_count], one
    more completed fetch. *)
Definition increase_response_count : M unit :=
  modify (λ s, set_response_count (response_count s + 1) s).

(** [self.G.node[node_id]] *)
Definition G_node (node_id : nat) : M NodeAttrs :=
  let* g := gets G in
  match node g !! node_id with
  | Some attrs => ret attrs
  | None => raise KeyError
  end.

(** [d[key]] on a node's attribute dict. *)
Definition getitem {A} (v : option A) : M A :=
  match v with
  | Some a => ret a
  | None => raise KeyError
  end.

(** [next(self.node_ids)] *)
Definition next_node_id : M nat :=
  let* n := gets node_ids in
  modify (set_node_ids (S n)) ;;;
  ret n.

(** [QSpider.get_domain_state] *)
Definition get_domain_state (domain : string) : M nat :=
  MaxScores_getitem domain.

(** [QSpider._get_action] *)
Definition _get_action (node_id : nat) : M (option Link) :=
  let* g := gets G in
  let* incoming_link_dicts := lift (incoming_link_dicts node_id g) in
  match incoming_link_dicts with
  | [] => ret None  (* don't learn from seed URLs *)
  | link :: _ => ret (Some link)
  end.

(** [QSpider.get_request_priority] *)
Definition get_request_priority (domain : string) (node_id : nat) : M Z :=
  let* s := get_domain_state domain in
  let* a := _get_action node_id in
  let* s_val := gets (contents s) in
  let* model := gets rl_model in
  let* q := lift (TDRegressor_predict model s_val a) in
  ret (Py.int (q * Py.of_Z FLOAT_PRIORITY_MULTIPLIER)%Qc).

(** [QSpider.update_response_node] *)
Definition update_response_node (response : Response) : M nat :=
  let* node_id :=
    match resp_node_id response with
    | None => next_node_id     (* a seed response *)
    | Some node_id => ret node_id
    end in
  let ok := (resp_status response =? 200)%Z && resp_has_text response in
  let* count := gets response_count in
  modify (λ s, set_G (add_node node_id
                        {| node_url := Some (resp_url response);
                           node_visited := Some true;
                           node_ok := Some (Some ok);
                           node_response_id := Some (Some count);
                           node_scores := None |} (G s)) s) ;;;
  ret node_id.

(** Truth value of an [ok] attribute. *)
Definition ok_true (ok : option bool) : bool :=
  match ok with
  | Some true => true
  | _ => false
  end.

(** [QSpider.store_observed_scores] *)
Definition store_observed_scores (node_id : nat) (response : Response)
  : M nat :=
  let* node := G_node node_id in
  let* ok := getitem (node_ok node) in
  let* observed_scores :=
    if ok_true ok then response_max_scores response
    else get_constant_scores 0%Qc in
  modify (λ s, set_G (add_node node_id
                        {| node_url := None; node_visited := None;
                           node_ok := None; node_response_id := None;
                           node_scores := Some observed_scores |} (G s)) s) ;;;
  ret observed_scores.

(** [QSpider.update_domain_state] *)
Definition update_domain_state (node_id : nat) (response : Response)
  : M unit :=
  let* node := G_node node_id in
  let domain := resp_domain response in
  let* scores := getitem (node_scores node) in
  let* scores_val := gets (contents scores) in
  if decide (scores_val = ∅) then ret tt
  else MaxScores_update domain scores.

(** [QSpider.on_offdomain_request_dropped]; [not node_id] holds of
    [None] and of [0].

    Modelled from the spec: the handler of the base spider, which runs
    first, has no part in the crawl graph or the tracker. *)
Definition on_offdomain_request_dropped (request : Request) : M unit :=
  let node_id := req_node_id request in
  match node_id with
  | Some (S _ as node_id) =>
      let* zeros := get_constant_scores 0%Qc in
      let* count := gets response_count in
      modify (λ s, set_G (add_node node_id
                            {| node_url := None;
                               node_visited := Some true;
                               node_ok := Some (Some false);
                               node_response_id := Some (Some count);
                               node_scores := Some zeros |} (G s)) s)
  | _ => print (WarnDroppedWithoutNodeId (req_url request))
  end.

(** The local [_get_priority] of [update_domain_request_priorities];
    [not node_id] holds of [None] and of [0]. *)
Definition _get_priority (domain : string) (request : Request) : M Z :=
  match req_node_id request with
  | Some (S _ as node_id) => get_request_priority domain node_id
  | _ => ret (req_priority request)
  end.

(** Modelled from the spec: [update_all_priorities(fn)] of the queue of
    one domain ([deepdeep.queues] is not under src) "recomputes and
    re-sorts every entry's priority in place", and "a failed priority
    computation for one entry must not abort the sweep for others - fall
    back to the entry's previous priority on computation error".  The
    entries are taken in queue order; an entry whose computation raises
    stays as it is, and what [fn] mutated before it raised stays
    mutated. *)
Definition update_all_priorities (fn : Request → M Z) (q : list Request)
  : M (list Request) :=
  let* rescored :=
    mapM (λ r, catch (let* p := fn r in ret (set_priority r p))
                     (λ _, ret r)) q in
  ret (queue_resort rescored).

(** [QSpider.update_domain_request_priorities] *)
Definition update_domain_request_priorities (domain : string) : M unit :=
  let* queue := gets (λ s, get_domain_queue domain (scheduler_queue s)) in
  let* queue' := update_all_priorities (_get_priority domain) queue in
  modify (λ s, set_scheduler_queue
                 (alter (λ _, queue') domain (scheduler_queue s)) s).

(** [QSpider.update_request_priorities] *)
Definition update_request_priorities (min_response_count : option Z)
  : M unit :=
  let* min_response_count :=
    match min_response_count with
    | None => gets (λ s, Z.max 500 (MaxScores_len (domain_scores s)))
    | Some n => ret n
    end in
  let* interval :=
    gets (λ s, response_count s - _scores_recalculated_at s) in
  if negb (min_response_count =? 0) && (interval <=? min_response_count)
  then print (InfoFewerUpdates min_response_count interval)
  else
    print InfoUpdating ;;;
    let* domains := gets (λ s, get_domains (scheduler_queue s)) in
    for_ domains update_domain_request_priorities ;;;
    print InfoUpdatingDone ;;;
    modify (λ s, set__scores_recalculated_at (response_count s) s).

(** The reward of [learn_from_response]:
    [sum(max(v, 0.0) for k, v in dict_subtract(observed_scores, s_t).items())]. *)
Definition reward (observed_scores s_t : dict) : Qc :=
  Py.sum ((λ kv : string * Qc, Py.max kv.2 0%Qc)
            <$> map_to_list (dict_subtract observed_scores s_t)).

(** Truth value of an action: [None] and the empty dict are false. *)
Definition action_true (a : option Link) : bool :=
  match a with
  | None => false
  | Some link => negb (bool_decide (link = ∅))
  end.

(** [self.rl_model.update(s_t, a_t, r_t1, s_t1, a_t1)] *)
Definition rl_model_update (s_t : nat) (a_t : option Link) (r_t1 : Qc)
    (s_t1 : nat) (a_t1 : option Link) : M unit :=
  let* s_t_val := gets (contents s_t) in
  let* s_t1_val := gets (contents s_t1) in
  let* model := gets rl_model in
  let* res := lift (TDRegressor_update model s_t_val a_t r_t1 s_t1_val a_t1) in
  print res.2 ;;;
  modify (set_rl_model res.1).

(** [QSpider.learn_from_response] *)
Definition learn_from_response (node_id : nat) (response : Response)
  : M unit :=
  let domain := resp_domain response in
  let* observed_scores := store_observed_scores node_id response in
  let* state := get_domain_state domain in
  let* s_t := dict_copy state in
  update_domain_state node_id response ;;;
  let* s_t1 := get_domain_state domain in
  let* observed_val := gets (contents observed_scores) in
  let* s_t_val := gets (contents s_t) in
  let r_t1 := reward observed_val s_t_val in
  print (PrintReward r_t1 (resp_url response)) ;;;
  let* a_t := _get_action node_id in
  if negb (action_true a_t) then ret tt
  else
    (if Py.ltb (Q2Qc (1 # 10)) r_t1
     then update_domain_request_priorities domain
     else ret tt) ;;;
    let* queue := gets (λ s, get_domain_queue domain (scheduler_queue s)) in
    let* a_t1 :=
      match next_request queue with
      | None => ret None
      | Some next_req =>
          match req_node_id next_req with
          | None => ret None
          | Some next_node_id => _get_action next_node_id
          end
      end in
    rl_model_update s_t a_t r_t1 s_t1 a_t1.

(** One iteration of the loop of [generate_out_nodes]: a node and an
    edge for the link, and the request that is yielded. *)
Definition generate_out_node (domain : string) (this_node_id : nat)
    (link : Link) : M Request :=
  let* url := getitem (link !! "url") in
  let* node_id := next_node_id in
  modify (λ s, set_G (add_node node_id
                        {| node_url := Some url;
                           node_visited := Some false;
                           node_ok := Some None;
                           node_response_id := Some None;
                           node_scores := None |} (G s)) s) ;;;
  modify (λ s, set_G (add_edge this_node_id node_id link (G s)) s) ;;;
  let* priority := get_request_priority domain node_id in
  let request :=
    {| req_url := url; req_priority := priority;
       req_node_id := Some node_id; req_domain := Some domain |} in
  (* yield: the engine takes the request before the loop goes on *)
  modify (λ s, set_scheduler_queue
                 (engine_crawl request (scheduler_queue s)) s) ;;;
  ret request.

(** [QSpider.generate_out_nodes]; the result is the requests yielded. *)
Definition generate_out_nodes (response : Response) (this_node_id : nat)
  : M (list Request) :=
  let domain := resp_domain response in
  let links := resp_links response in
  mapM (generate_out_node domain this_node_id) links.

(** [QSpider.parse], run until the generator is exhausted; the result
    is the requests yielded. *)
Definition parse (response : Response) : M (list Request) :=
  increase_response_count ;;;
  let* node_id := update_response_node response in
  let* node := G_node node_id in
  let* ok := getitem (node_ok node) in
  let* requests :=
    if ok_true ok then generate_out_nodes response node_id
    else ret [] in
  learn_from_response node_id response ;;;
  ret requests.

(** ** Vocabulary of the statements *)

(** The state of a domain as the tracker holds it. *)
Definition domain_state (domain : string) (s : QSpider) : dict :=
  match scores (domain_scores s) !! domain with
  | Some l => contents l s
  | None => constant_scores (classes (domain_scores s)) 0%Qc
  end.

(** The dict objects of the tracker have been allocated. *)
Definition heap_wf (s : QSpider) : Prop :=
  ∀ d l, scores (domain_scores s) !! d = Some l → (l < next_loc s)%nat.

(** [l] is an allocated dict object that the tracker does not hold. *)
Definition snapshot (l : nat) (s : QSpider) : Prop :=
  heap_wf s ∧ (l < next_loc s)%nat ∧
  ∀ d l', scores (domain_scores s) !! d = Some l' → l' ≠ l.

(** What the tracker does later on: updates and further reads. *)
Inductive tracker_later : QSpider → QSpider → Prop :=
| later_now s : tracker_later s s
| later_update s s' s'' domain observed :
    tracker_later s s' →
    MaxScores_update domain observed s' = Ok tt s'' →
    tracker_later s s''
| later_state s s' s'' domain l :
    tracker_later s s' →
    get_domain_state domain s' = Ok l s'' →
    tracker_later s s''.

(** The score types over which a reward is summed: those that the
    observation or the state lists. *)
Definition score_types (observed s_t : dict) : list string :=
  elements (dom observed ∪ dom s_t).

(** The scores that [store_observed_scores] records for a node whose
    [ok] attribute is [ok]. *)
Definition observed_scores_of (ok : option bool) (response : Response)
  : dict :=
  if ok_true ok then resp_max_scores response
  else constant_scores available_form_types 0%Qc.

(** The value of [_get_action]. *)
Definition action_of (node_id : nat) (g : DiGraph) : exn + option Link :=
  match incoming_link_dicts node_id g with
  | inl e => inl e
  | inr [] => inr None
  | inr (link :: _) => inr (Some link)
  end.

(** The value of [get_request_priority]. *)
Definition request_priority_value (domain : string) (node_id : nat)
    (s : QSpider) : exn + Z :=
  match action_of node_id (G s) with
  | inl e => inl e
  | inr a =>
      match TDRegressor_predict (rl_model s) (domain_state domain s) a with
      | inl e => inl e
      | inr q => inr (Py.int (q * Py.of_Z FLOAT_PRIORITY_MULTIPLIER)%Qc)
      end
  end.

(** The value of [_get_priority]. *)
Definition priority_value (domain : string) (request : Request)
    (s : QSpider) : exn + Z :=
  match req_node_id request with
  | Some (S _ as node_id) => request_priority_value domain node_id s
  | _ => inr (req_priority request)
  end.

(** An entry of the queue of [domain] after a sweep: with the priority
    that [_get_priority] computes, or as it was when the computation
    raises. *)
Definition rescore (domain : string) (s : QSpider) (r : Request) : Request :=
  match priority_value domain r s with
  | inr p => set_priority r p
  | inl _ => r
  end.

(** The entries of a queue after a sweep, before they are re-sorted. *)
Definition rescore_all (domain : string) (s : QSpider) (q : list Request)
  : list Request :=
  rescore domain s <$> q.

(** [r'] is [r] with the priority that [_get_priority] computes; an
    entry whose computation raises is kept as it is. *)
Definition rescored (domain : string) (s : QSpider) (r r' : Request)
  : Prop :=
  match priority_value domain r s with
  | inr p => r' = set_priority r p
  | inl _ => r' = r
  end.

(** What a priority is computed from. *)
Definition knowledge (s : QSpider) : DiGraph * TDRegressor * MaxScores :=
  (G s, rl_model s, domain_scores s).

(** [s'] knows what [s] knows: the same graph, estimator and tracker,
    and the dict objects of [s] as they are in [s]. *)
Definition knows (s s' : QSpider) : Prop :=
  knowledge s' = knowledge s ∧
  (next_loc s ≤ next_loc s')%nat ∧
  ∀ l, (l < next_loc s)%nat → heap s' !! l = heap s !! l.

(** What a sweep of the priorities leaves alone, besides [knowledge]. *)
Definition counters (s : QSpider) : Z * Z :=
  (response_count s, _scores_recalculated_at s).

(** The [PrintReturn] lines of an output: one per [rl_model.update]. *)
Definition is_return (e : Event) : bool :=
  match e with
  | PrintReturn _ _ _ _ => true
  | _ => false
  end.

(** The spider after a new dict object with contents [d] was made. *)
Definition alloc (d : dict) (s : QSpider) : QSpider :=
  set_heap (<[next_loc s := d]> (heap s)) (S (next_loc s)) s.

(** [respects R m]: whatever [m] does, and whether it returns or
    raises, the spider it leaves is related by [R] to the one it began
    with. *)
Definition respects {A} (R : relation QSpider) (m : M A) : Prop :=
  ∀ s, R s (final (m s)).

(** The relation that keeps an observation of the spider. *)
Definition keeps {A} (f : QSpider → A) : relation QSpider :=
  λ s s', f s' = f s.

(** The output grows, and every line of [rl_model.update] that is added
    reports [r] as the immediate reward. *)
Definition out_grows_with (r : Qc) : relation QSpider :=
  λ s s', ∃ rest,
    out s' = out s ++ rest ∧
    Forall (λ e, ∀ p o i f, e = PrintReturn p o i f → i = r) rest.

(** What decides whether the estimator learns, and what it learned. *)
Definition learning (s : QSpider)
  : gmap nat (list (nat * Link)) * TDRegressor * list Event :=
  (pred (G s), rl_model s, filter is_return (out s)).

(** From a spider in which [node_id] has no incoming edge, [learning]
    is kept. *)
Definition seed_keeps (node_id : nat) : relation QSpider :=
  λ s s', default [] (pred (G s) !! node_id) = [] →
          learning s' = learning s.

(** A drop handler that would count as a tracker update of zero for
    [domain]: it leaves the tracker as [update(domain, zeros)] does. *)
Definition drop_updates_tracker (request : Request) (domain : string)
    (s : QSpider) : Prop :=
  ∃ s' s'',
    on_offdomain_request_dropped request s = Ok tt s' ∧
    bind (get_constant_scores 0%Qc) (MaxScores_update domain) s
      = Ok tt s'' ∧
    MaxScores_len (domain_scores s') = MaxScores_len (domain_scores s'') ∧
    ∀ d, domain_state d s' = domain_state d s''.

(** A check of [heap_wf] that computes. *)
Definition heap_wf_check (s : QSpider) : bool :=
  forallb (λ dl : string * nat, (dl.2 <? next_loc s)%nat)
          (map_to_list (scores (domain_scores s))).

(** The exception that a computation raised, if it did. *)
Definition raised {A} (o : outcome A) : option exn :=
  match o with
  | Ok _ _ => None
  | Err e _ => Some e
  end.

(** The value that a computation returned, or [d] when it raised. *)
Definition returned {A} (d : A) (o : outcome A) : A :=
  match o with
  | Ok a _ => a
  | Err _ _ => d
  end.

(** A node carries [scores] exactly when it is visited. *)
Definition node_inv (a : NodeAttrs) : Prop :=
  is_Some (node_scores a) ↔ node_visited a = Some true.

(** The spider objects in which every node of the crawl graph carries
    [scores] exactly when it is visited. *)
Definition scores_iff_visited_at (s : QSpider) : Prop :=
  ∀ n a, node (G s) !! n = Some a → node_inv a.

(** The invariant of the crawl: node ids come from the counter,
    [scores] is set exactly on the visited nodes, the requests yielded
    carry a node id that the counter produced after 0, and no edge
    leads into node 0. *)
Definition crawl_inv (yielded : list Request) (s : QSpider) : Prop :=
  (∀ n a, node (G s) !! n = Some a →
          (n < node_ids s)%nat ∧ node_inv a) ∧
  (∀ r, r ∈ yielded →
        ∃ n, req_node_id r = Some (S n) ∧ (S n < node_ids s)%nat) ∧
  pred (G s) !! 0%nat = None.

(** The same while [parse] is between [update_response_node] and
    [store_observed_scores]: the node of the response is visited and
    waits for its scores. *)
Definition parsing_inv (node_id : nat) (yielded : list Request)
    (s : QSpider) : Prop :=
  (∀ n a, node (G s) !! n = Some a →
          (n < node_ids s)%nat ∧ (n ≠ node_id → node_inv a)) ∧
  (∃ a, node (G s) !! node_id = Some a ∧ node_visited a = Some true) ∧
  (∀ r, r ∈ yielded →
        ∃ n, req_node_id r = Some (S n) ∧ (S n < node_ids s)%nat) ∧
  pred (G s) !! 0%nat = None ∧
  (0 < node_ids s)%nat.

(** The graph and the counter of node ids. *)
Definition crawl_graph (s : QSpider) : DiGraph * nat := (G s, node_ids s).

(** A response to a seed request or to a request the spider yielded. *)
Definition response_from (yielded : list Request) (response : Response)
  : Prop :=
  resp_node_id response = None ∨
  ∃ r, r ∈ yielded ∧ req_node_id r = resp_node_id response.

(** A request that can be dropped: a seed request or one the spider
    yielded. *)
Definition request_from (yielded : list Request) (request : Request)
  : Prop :=
  req_node_id request = None ∨ request ∈ yielded.

(** The spider objects that completed transitions produce, with the
    requests yielded so far: a response parsed, a dropped request
    handled, a periodic priority update, and the engine pushing to or
    popping from the frontier. *)
Inductive reachable : list Request → QSpider → Prop :=
| reach_init gamma :
    reachable [] (QSpider_init gamma)
| reach_parse yielded s response requests s' :
    reachable yielded s →
    response_from yielded response →
    parse response s = Ok requests s' →
    reachable (yielded ++ requests) s'
| reach_drop yielded s request s' :
    reachable yielded s →
    request_from yielded request →
    on_offdomain_request_dropped request s = Ok tt s' →
    reachable yielded s'
| reach_update yielded s min_response_count s' :
    reachable yielded s →
    update_request_priorities min_response_count s = Ok tt s' →
    reachable yielded s'
| reach_engine yielded s queues :
    reachable yielded s →
    reachable yielded (set_scheduler_queue queues s).

End Spider.

Arguments Ok {_ _} a s.
Arguments Err {_ _} e s.

(** ** A small instance of the collaborators

    A regressor that remembers the last target, features that are one
    number, and an engine that pushes every request to the queue of its
    domain.  It is used to run the spider on concrete inputs. *)

Definition sample_engine_crawl (r : Request)
    (queues : gmap string (list Request)) : gmap string (list Request) :=
  match req_domain r with
  | Some d => <[d := queue_push r (get_domain_queue d queues)]> queues
  | None => queues
  end.

#[local] Instance sample : Collaborators := {|
  available_form_types := ["forms"];
  FLOAT_PRIORITY_MULTIPLIER := 10000;
  Features := Qc;
  state_vectorizer_transform := λ s, Py.sum (map_to_list s).*2;
  action_vectorizer_transform := λ a, Py.of_Z (Z.of_nat (size a));
  hstack := Qcplus;
  SGDRegressor := option Qc;
  Coef := Qc;
  SGDRegressor_new := None;
  coef_ := λ q, q;
  SGD_predict := λ q x, (default 0%Qc q * x)%Qc;
  SGD_partial_fit := λ q x y, Some y;
  coef_new := eq_refl;
  coef_partial_fit := λ q x y, ex_intro _ y eq_refl;
  engine_crawl := sample_engine_crawl;
|}.

(** ** A crawl of two pages

    The seed page of a.test scores 0.8 on forms and has two links; then
    the page behind the first link is fetched and scores 0.9. *)

Definition seed_response : Response :=
  {| resp_url := "https://a.test/";
     resp_status := 200;
     resp_has_text := true;
     resp_node_id := None;
     resp_domain := "a.test";
     resp_max_scores := {["forms" := Q2Qc (8 # 10)]};
     resp_links := [ {["url" := "https://a.test/1"; "pos" := "1"]};
                     {["url" := "https://a.test/2"; "pos" := "2"]} ] |}.

Definition first_link_response : Response :=
  {| resp_url := "https://a.test/1";
     resp_status := 200;
     resp_has_text := true;
     resp_node_id := Some 1%nat;
     resp_domain := "a.test";
     resp_max_scores := {["forms" := Q2Qc (9 # 10)]};
     resp_links := [] |}.

Definition crawl_start : QSpider := QSpider_init (Q2Qc (1 # 2)).

(** The seed response parsed. *)
Definition seed_parsed : outcome (list Request) :=
  parse seed_response crawl_start.

(** The engine pops the request of the first link to fetch it. *)
Definition first_link_fetching : QSpider :=
  set_scheduler_queue
    (alter tail "a.test" (scheduler_queue (final seed_parsed)))
    (final seed_parsed).

(** The response of the first link on its way through [parse]: counted
    and put in the graph, its scores not yet stored. *)
Definition first_link_arrived : outcome nat :=
  bind increase_response_count
       (λ _, update_response_node first_link_response) first_link_fetching.

(** The response of the first link parsed. *)
Definition first_link_parsed : outcome (list Request) :=
  parse first_link_response first_link_fetching.

(** The frontier when 501 responses have come in since the last sweep. *)
Definition sweep_due : QSpider :=
  set_response_count 501 (final seed_parsed).

(** An estimator that one update has trained. *)
Definition once_trained : TDRegressor :=
  match TDRegressor_update (TDRegressor_init (Q2Qc (1 # 2)))
          {["forms" := Q2Qc (8 # 10)]}
          (Some {["url" := "https://a.test/1"; "pos" := "1"]})
          (Q2Qc (1 # 10))
          {["forms" := Q2Qc (9 # 10)]} None with
  | inr res => res.1
  | inl _ => TDRegressor_init (Q2Qc (1 # 2))
  end.

(** A request of an earlier crawl, for a node that this crawl graph does
    not have, as the engine finds it in a queue kept on disk. *)
Definition stale_request : Request :=
  {| req_url := "https://a.test/old"; req_priority := 3;
     req_node_id := Some 7%nat; req_domain := Some "a.test" |}.

Definition frontier_with_stale_request : QSpider :=
  set_scheduler_queue
    (engine_crawl stale_request (scheduler_queue (final seed_parsed)))
    (final seed_parsed).

(** A seed page on which the scorer finds no form, with one link. *)
Definition formless_response : Response :=
  {| resp_url := "https://a.test/";
     resp_status := 200;
     resp_has_text := true;
     resp_node_id := None;
     resp_domain := "a.test";
     resp_max_scores := ∅;
     resp_links := [ {["url" := "https://a.test/out"]} ] |}.

Definition formless_parsed : outcome (list Request) :=
  parse formless_response crawl_start.

(** The request that the formless page led to. *)
Definition out_request : Request :=
  {| req_url := "https://a.test/out"; req_priority := 0;
     req_node_id := Some 1%nat; req_domain := Some "a.test" |}.

(** A request with node id 0. *)
Definition zero_request : Request :=
  {| req_url := "https://a.test/zero"; req_priority := 5;
     req_node_id := Some 0%nat; req_domain := Some "a.test" |}.

(** The requests that the seed page led to. *)
Definition first_link_request : Request :=
  {| req_url := "https://a.test/1"; req_priority := 0;
     req_node_id := Some 1%nat; req_domain := Some "a.test" |}.

Definition second_link_request : Request :=
  {| req_url := "https://a.test/2"; req_priority := 0;
     req_node_id := Some 2%nat; req_domain := Some "a.test" |}.

(** A seed page whose second link has no url. *)
Definition broken_link : Link := {["pos" := "2"]}.

Definition broken_response : Response :=
  {| resp_url := "https://a.test/";
     resp_status := 200;
     resp_has_text := true;
     resp_node_id := None;
     resp_domain := "a.test";
     resp_max_scores := ∅;
     resp_links := [ {["url" := "https://a.test/1"]}; broken_link ] |}.

(** The parse of that page, which raises, and the parse of the seed page
    of the crawl after it. *)
Definition broken_parsed : outcome (list Request) :=
  parse broken_response crawl_start.

Definition seed_parsed_after_broken : outcome (list Request) :=
  parse seed_response (final broken_parsed).

(** The seed page of the crawl while its [parse] is suspended at its
    last [yield]: counted and put in the graph, its links discovered,
    its scores not yet stored. *)
Definition seed_links_discovered : outcome (list Request) :=
  bind (bind increase_response_count
             (λ _, update_response_node seed_response))
       (generate_out_nodes seed_response) crawl_start.

(** ** The downloader middlewares (deepdeep/downloadermiddlewares.py) *)

Section Middlewares.
Context `{Collaborators}.

(** What [process_request] leaves to the downloader: the request goes on,
    or [IgnoreRequest] is raised. *)
Inductive downloader_outcome : Type :=
| Downloads (s : QSpider)
| IgnoreRequest (s : QSpider).

(** [OffsiteDownloaderMiddleware.process_request]; [get_domain] is the
    function of [deepdeep.utils].  [not request.meta.get('domain')] holds
    of a missing domain and of the empty string.

    Modelled from the spec: the offsite filter reports the dropped
    request to the spider, whose [on_offdomain_request_dropped] receives
    the signal [offdomain_request_dropped]. *)
Definition process_request (get_domain : string → string)
    (request : Request) (s : QSpider) : downloader_outcome :=
  match req_domain request with
  | None => Downloads s
  | Some domain =>
      if decide (domain = "") then Downloads s
      else if decide (get_domain (req_url request) = domain)
      then Downloads s
      else IgnoreRequest (final (on_offdomain_request_dropped request s))
  end.

End Middlewares.

(** [ProxyFromSettingsMiddleware]: the [proxies] dict and the
    [auth_encoding] attribute. *)
Record ProxyFromSettingsMiddleware (Proxy : Type) : Type :=
  mkProxyFromSettingsMiddleware {
    proxies : gmap string Proxy;
    auth_encoding : option string;
  }.
Arguments mkProxyFromSettingsMiddleware {Proxy} proxies auth_encoding.
Arguments proxies {Proxy} _.
Arguments auth_encoding {Proxy} _.

(** One round of the loop of [__init__]: [if url:] skips a setting that
    is missing or empty. *)
Definition set_proxy {Proxy} (_get_proxy : string → string → Proxy)
    (acc : gmap string Proxy) (entry : string * option string)
  : gmap string Proxy :=
  match entry.2 with
  | None => acc
  | Some url =>
      if decide (url = "") then acc
      else <[entry.1 := _get_proxy url entry.1]> acc
  end.

(** [ProxyFromSettingsMiddleware.__init__]; [None] is [NotConfigured].
    [settings.get] is the lookup in [settings], and [_get_proxy] is the
    method of Scrapy's [HttpProxyMiddleware]. *)
Definition ProxyFromSettingsMiddleware_init {Proxy}
    (_get_proxy : string → string → Proxy) (settings : gmap string string)
  : option (ProxyFromSettingsMiddleware Proxy) :=
  let auth_encoding := settings !! "HTTPPROXY_AUTH_ENCODING" in
  let proxies :=
    foldl (set_proxy _get_proxy) ∅
          [("http", settings !! "HTTP_PROXY");
           ("https", settings !! "HTTPS_PROXY")] in
  if decide (size proxies = 0%nat) then None
  else Some (mkProxyFromSettingsMiddleware proxies auth_encoding).

(** A setting that is there and not empty. *)
Definition setting (settings : gmap string string) (key : string)
  : option string :=
  match settings !! key with
  | None => None
  | Some url => if decide (url = "") then None else Some url
  end.

(** ** More vocabulary of the statements *)

Section MoreVocabulary.
Context `{Collaborators}.

(** The crawl graph only grows: the counter does not go back; the edges
    into a node that the counter had produced stay as they are; such a
    node stays in the graph, stays visited once it is, and keeps having
    scores once it has. *)
Definition grows : relation QSpider :=
  λ s s',
    (node_ids s ≤ node_ids s')%nat ∧
    (∀ n, (n < node_ids s)%nat → pred (G s') !! n = pred (G s) !! n) ∧
    ∀ n a, (n < node_ids s)%nat → node (G s) !! n = Some a →
      ∃ a', node (G s') !! n = Some a' ∧
            (node_visited a = Some true → node_visited a' = Some true) ∧
            (is_Some (node_scores a) → is_Some (node_scores a')).

(** The invariant of the frontier: an edge leads into a node that the
    counter has produced, and it is the only one into that node; the
    requests yielded have different node ids; and the node of a yielded
    request is in the graph, with one incoming edge whose link has the
    url of the request, and the request carries a domain. *)
Definition frontier_inv (yielded : list Request) (s : QSpider) : Prop :=
  (∀ n es, pred (G s) !! n = Some es →
           (n < node_ids s)%nat ∧ ∃ u link, es = [(u, link)]) ∧
  NoDup (req_node_id <$> yielded) ∧
  ∀ r, r ∈ yielded →
    ∃ n u link,
      req_node_id r = Some n ∧
      is_Some (node (G s) !! n) ∧
      pred (G s) !! n = Some [(u, link)] ∧
      link !! "url" = Some (req_url r) ∧
      is_Some (req_domain r).

(** The next reference is not taken back, and the tracker's dict objects
    stay allocated. *)
Definition heap_grows : relation QSpider :=
  λ s s', (next_loc s ≤ next_loc s')%nat ∧ (heap_wf s → heap_wf s').

(** A dict object that the tracker does not hold keeps its contents. *)
Definition keeps_snapshot (l : nat) : relation QSpider :=
  λ s s', snapshot l s → snapshot l s' ∧ contents l s' = contents l s.

(** Once [n] is a node with an action, it stays one with that action. *)
Definition keeps_action (n : nat) : relation QSpider :=
  λ s s', ∀ a, action_of n (G s) = inr a → action_of n (G s') = inr a.

(** What a sweep of the priorities has no part in. *)
Definition crawl_state (s : QSpider)
  : DiGraph * nat * TDRegressor * MaxScores * Z * list Event :=
  (G s, node_ids s, rl_model s, domain_scores s, response_count s,
   filter is_return (out s)).

(** The estimator and the lines of its updates. *)
Definition learned (s : QSpider) : TDRegressor * list Event :=
  (rl_model s, filter is_return (out s)).

(** The engine schedules what it is given: a request that is in the
    frontier after [engine_crawl] is the request given or was in the
    frontier before. *)
Definition engine_schedules_given : Prop :=
  ∀ request queues d r,
    r ∈ get_domain_queue d (engine_crawl request queues) →
    r = request ∨ ∃ d', r ∈ get_domain_queue d' queues.

(** A request that stands for a seed or for a node that a yielded
    request stands for; a sweep changes the priority of a request and
    not its node id. *)
Definition request_of (yielded : list Request) (r : Request) : Prop :=
  req_node_id r = None ∨
  ∃ r0, r0 ∈ yielded ∧ req_node_id r = req_node_id r0.

(** The frontier holds only requests of seeds and of nodes that the
    spider yielded a request for. *)
Definition frontier_from (yielded : list Request) (s : QSpider) : Prop :=
  ∀ d r, r ∈ get_domain_queue d (scheduler_queue s) → request_of yielded r.

(** The requests of every domain queue stand for nodes that requests of
    that queue stood for before. *)
Definition frontier_kept : relation QSpider :=
  λ s s', ∀ d r, r ∈ get_domain_queue d (scheduler_queue s') →
    ∃ r0, r0 ∈ get_domain_queue d (scheduler_queue s) ∧
          req_node_id r = req_node_id r0.

(** The tracker holds the same dict objects, and the dict objects that
    were there have their contents. *)
Definition tracker_kept : relation QSpider :=
  λ s s',
    domain_scores s' = domain_scores s ∧
    (next_loc s ≤ next_loc s')%nat ∧
    ∀ l, (l < next_loc s)%nat → heap s' !! l = heap s !! l.

End MoreVocabulary.

(** ** More of the crawl of two pages *)

(** The engine pops the request of the second link, which is the last of
    the frontier; the server answers 404. *)
Definition second_link_fetching : QSpider :=
  set_scheduler_queue
    (alter tail "a.test" (scheduler_queue (final first_link_parsed)))
    (final first_link_parsed).

Definition not_found_response : Response :=
  {| resp_url := "https://a.test/2";
     resp_status := 404;
     resp_has_text := true;
     resp_node_id := Some 2%nat;
     resp_domain := "a.test";
     resp_max_scores := ∅;
     resp_links := [ {["url" := "https://a.test/3"]} ] |}.

Definition not_found_parsed : outcome (list Request) :=
  parse not_found_response second_link_fetching.

(** The request of the second link after a redirect to another site, and
    [get_domain] on the urls of this crawl. *)
Definition redirected_request : Request :=
  {| req_url := "https://b.test/2"; req_priority := 0;
     req_node_id := Some 2%nat; req_domain := Some "a.test" |}.

Definition sample_get_domain (url : string) : string :=
  if decide (url = "https://b.test/2") then "b.test" else "a.test".

(** Settings with a proxy for http only, and a [_get_proxy] that takes
    the url as it is, without credentials. *)
Definition sample_settings : gmap string string :=
  {["HTTP_PROXY" := "http://proxy.test:3128"; "HTTPS_PROXY" := ""]}.

Definition sample_get_proxy (url type_ : string) : option string * string :=
  (None, url).

Definition sample_middleware
  : ProxyFromSettingsMiddleware (option string * string) :=
  {| proxies := {["http" := (None, "http://proxy.test:3128")]};
     auth_encoding := None |}.

(** The formless seed page on its way through [parse]: counted and put
    in the graph. *)
Definition formless_arrived : outcome nat :=
  bind increase_response_count
       (λ _, update_response_node formless_response) crawl_start.

(** * Properties *)

(** ** Python numbers *)

Section PyFacts.

Lemma Py_ltb_lt a b : Py.ltb a b = true ↔ (a < b)%Qc.
Proof.
  unfold Py.ltb. rewrite negb_true_iff, <- not_true_iff_false, Qle_bool_iff.
  split; [apply Qnot_le_lt | apply Qlt_not_le].
Qed.

Lemma Py_max_0_nonneg a : (0 ≤ Py.max a 0)%Qc.
Proof.
  unfold Py.max. destruct (Py.ltb a 0) eqn:E; [apply Qcle_refl|].
  apply Qcnot_lt_le. intros Hlt. apply Py_ltb_lt in Hlt. congruence.
Qed.

Lemma Py_foldl_nonneg l acc :
  (0 ≤ acc)%Qc → Forall (λ x, (0 ≤ x)%Qc) l → (0 ≤ foldl Qcplus acc l)%Qc.
Proof.
  intros Hacc Hl. revert acc Hacc.
  induction Hl as [|x l Hx _ IH]; intros acc Hacc; simpl; [done|].
  apply IH. rewrite <- (Qcplus_0_l 0). by apply Qcplus_le_compat.
Qed.

Lemma Py_sum_nonneg l : Forall (λ x, (0 ≤ x)%Qc) l → (0 ≤ Py.sum l)%Qc.
Proof. apply Py_foldl_nonneg, Qcle_refl. Qed.

Lemma Py_foldl_plus l acc : foldl Qcplus acc l = (acc + Py.sum l)%Qc.
Proof.
  unfold Py.sum. revert acc. induction l as [|x l IH]; intros acc; simpl.
  - by rewrite Qcplus_0_r.
  - rewrite IH, (IH (0 + x)%Qc), Qcplus_0_l. symmetry. apply Qcplus_assoc.
Qed.

Lemma Py_sum_cons x l : Py.sum (x :: l) = (x + Py.sum l)%Qc.
Proof. unfold Py.sum at 1. simpl. by rewrite Py_foldl_plus, Qcplus_0_l. Qed.

(** The order of the summands does not matter for exact numbers. *)
Lemma Py_sum_Permutation l1 l2 : l1 ≡ₚ l2 → Py.sum l1 = Py.sum l2.
Proof.
  induction 1 as [|x l1 l2 _ IH|x y l|l1 l2 l3 _ IH1 _ IH2].
  - done.
  - by rewrite !Py_sum_cons, IH.
  - rewrite !Py_sum_cons, !Qcplus_assoc. f_equal. apply Qcplus_comm.
  - congruence.
Qed.

End PyFacts.

(** ** The estimator *)

Section TDRegressorFacts.
Context `{Collaborators}.

Lemma trained_by_coef n m :
  trained_by n m → coef_ (Q m) = None ↔ n = 0%nat.
Proof.
  destruct 1 as [g|n m s_t a_t r_t1 s_t1 a_t1 m' ev _ Hupd].
  - simpl. by rewrite coef_new.
  - split; [|done]. intros Hnone. exfalso.
    unfold TDRegressor_update in Hupd.
    destruct (TDRegressor__vectorize s_t a_t) as [|X_t]; [done|].
    destruct (future_reward m s_t1 a_t1) as [|future]; [done|].
    destruct (TDRegressor_predict m s_t a_t) as [|predicted]; [done|].
    injection Hupd as <- _. simpl in Hnone.
    destruct (coef_partial_fit (Q m) X_t (r_t1 + future)%Qc) as [c Hc].
    congruence.
Qed.

Lemma predict_link_total self s (a : Link) :
  ∃ p, TDRegressor_predict self s (Some a) = inr p.
Proof.
  unfold TDRegressor_predict. destruct (coef_ (Q self)); simpl; eauto.
Qed.

(** C3: whatever the state and the action, [predict] on an estimator
    that has not been updated returns 0.0; it does not raise. *)
Theorem predict_before_update gamma s a :
  TDRegressor_predict (TDRegressor_init gamma) s a = inr 0%Qc.
Proof. unfold TDRegressor_predict. simpl. by rewrite coef_new. Qed.

(** C2: a call [update(s_t, a_t, r_t1, s_t1, a_t1)] on an estimator that
    [n] updates have trained returns, and the target it passes to
    [partial_fit] (and prints) is [r_t1] when [a_t1] is absent or no
    update was made before, and [r_t1 + gamma * predict(s_t1, a_t1)]
    otherwise. *)
Theorem update_target n self s_t (a_t : Link) r_t1 s_t1 a_t1 :
  trained_by n self →
  ∃ target predicted future,
    TDRegressor_update self s_t (Some a_t) r_t1 s_t1 a_t1 =
      inr ({| gamma := gamma self;
              Q := SGD_partial_fit (Q self)
                     (hstack (state_vectorizer_transform s_t)
                             (action_vectorizer_transform a_t)) target |},
           PrintReturn predicted target r_t1 future) ∧
    (a_t1 = None ∨ n = 0%nat → target = r_t1) ∧
    (is_Some a_t1 → n ≠ 0%nat →
     ∃ p, TDRegressor_predict self s_t1 a_t1 = inr p ∧
          target = (r_t1 + gamma self * p)%Qc).
Proof.
  intros Htrained. apply trained_by_coef in Htrained.
  unfold TDRegressor_update, future_reward, TDRegressor_predict. simpl.
  destruct a_t1 as [a_t1|], (coef_ (Q self)) as [c|] eqn:Hc; simpl;
    do 3 eexists; (split; [reflexivity|]); split.
  - intros [|Hn]; [done|]. apply Htrained in Hn. done.
  - intros _ _. eauto.
  - intros _. apply Qcplus_0_r.
  - intros _ Hn. destruct Hn. by apply Htrained.
  - intros _. apply Qcplus_0_r.
  - intros [? ?]; done.
  - intros _. apply Qcplus_0_r.
  - intros [? ?]; done.
Qed.

End TDRegressorFacts.

(** ** Reasoning about methods *)

Section Monad.
Context `{Collaborators}.

Lemma respects_ret {A} R `{!Reflexive R} (a : A) : respects R (ret a).
Proof. intros s. simpl. reflexivity. Qed.

Lemma respects_raise {A} R `{!Reflexive R} e : respects R (raise (A:=A) e).
Proof. intros s. simpl. reflexivity. Qed.

Lemma respects_gets {A} R `{!Reflexive R} (f : QSpider → A) :
  respects R (gets f).
Proof. intros s. simpl. reflexivity. Qed.

Lemma respects_lift {A} R `{!Reflexive R} (r : exn + A) :
  respects R (lift r).
Proof. destruct r; [apply respects_raise|apply respects_ret]; done. Qed.

Lemma respects_getitem {A} R `{!Reflexive R} (v : option A) :
  respects R (getitem v).
Proof. destruct v; [apply respects_ret|apply respects_raise]; done. Qed.

Lemma respects_modify R f : (∀ s, R s (f s)) → respects R (modify f).
Proof. intros Hf s. apply Hf. Qed.

Lemma respects_bind {A B} R `{!Transitive R} (m : M A) (k : A → M B) :
  respects R m → (∀ a, respects R (k a)) → respects R (bind m k).
Proof.
  intros Hm Hk s. unfold bind. specialize (Hm s).
  destruct (m s) as [a s'|e s']; simpl in *; [|done].
  etrans; [exact Hm|apply Hk].
Qed.

Lemma respects_catch {A} R `{!Transitive R} (m : M A) (h : exn → M A) :
  respects R m → (∀ e, respects R (h e)) → respects R (catch m h).
Proof.
  intros Hm Hh s. unfold catch. specialize (Hm s).
  destruct (m s) as [a s'|e s']; simpl in *; [done|].
  etrans; [exact Hm|apply Hh].
Qed.

Lemma respects_for_ {A} R `{!PreOrder R} (l : list A) body :
  (∀ x, respects R (body x)) → respects R (for_ l body).
Proof.
  intros Hbody. induction l as [|x l IH]; simpl.
  - apply respects_ret; apply _.
  - apply respects_bind; [apply _|apply Hbody|intros _; exact IH].
Qed.

Lemma respects_mapM {A B} R `{!PreOrder R} (f : A → M B) l :
  (∀ x, respects R (f x)) → respects R (mapM f l).
Proof.
  intros Hf. induction l as [|x l IH]; simpl.
  - apply respects_ret; apply _.
  - apply respects_bind; [apply _|apply Hf|intros y].
    apply respects_bind; [apply _|exact IH|intros ys]. apply respects_ret; apply _.
Qed.

Global Instance keeps_preorder {A} (f : QSpider → A) : PreOrder (keeps f).
Proof. split; [by intros s|intros s1 s2 s3; unfold keeps; congruence]. Qed.

End Monad.

(** The methods, unfolded down to the primitives of the monad. *)
Ltac unfold_methods :=
  unfold update_request_priorities, update_domain_request_priorities,
    update_all_priorities, _get_priority, get_request_priority,
    rl_model_update, update_domain_state, store_observed_scores,
    update_response_node, on_offdomain_request_dropped,
    get_domain_state, _get_action, next_node_id, G_node,
    increase_response_count, MaxScores_update, MaxScores_getitem,
    response_max_scores, get_constant_scores, dict_copy, assign,
    print.

(** One step of a frame proof: split the computation and close the
    leaves that do not write what the relation observes. *)
Ltac respects_step :=
  lazymatch goal with
  | |- respects _ (bind _ _) => apply respects_bind; [apply _| |intros ?]
  | |- respects _ (catch _ _) => apply respects_catch; [apply _| |intros ?]
  | |- respects _ (ret _) => apply respects_ret; apply _
  | |- respects _ (raise _) => apply respects_raise; apply _
  | |- respects _ (gets _) => apply respects_gets; apply _
  | |- respects _ (lift _) => apply respects_lift; apply _
  | |- respects _ (getitem _) => apply respects_getitem; apply _
  | |- respects _ (for_ _ _) => apply respects_for_; [apply _|intros ?]
  | |- respects _ (mapM _ _) => apply respects_mapM; [apply _|intros ?]
  | |- respects _ (modify _) => apply respects_modify; intros ?
  | |- respects _ (new_dict _) => intros ?
  | |- respects _ (match ?x with _ => _ end) => destruct x
  end.

Ltac respects_tac := unfold_methods; repeat respects_step.

(** ** Seed nodes *)

Section Seeds.
Context `{Collaborators}.

Lemma respects_mono {A} (R R' : relation QSpider) (m : M A) :
  (∀ s s', R s s' → R' s s') → respects R m → respects R' m.
Proof. intros HR Hm s. apply HR, Hm. Qed.

Lemma _get_action_run node_id s :
  _get_action node_id s =
    match action_of node_id (G s) with
    | inl e => Err e s
    | inr a => Ok a s
    end.
Proof.
  unfold _get_action, action_of, bind, gets, lift.
  by destruct (incoming_link_dicts node_id (G s)) as [e|[|link l]].
Qed.

Global Instance seed_keeps_preorder node_id : PreOrder (seed_keeps node_id).
Proof.
  split; [by intros s|]. intros s1 s2 s3 H12 H23 Hseed.
  specialize (H12 Hseed).
  assert (pred (G s2) = pred (G s1)) as Hp
    by (unfold learning in H12; congruence).
  rewrite <- H12. apply H23. by rewrite Hp.
Qed.

Lemma keeps_learning_print e :
  is_return e = false → respects (keeps learning) (print e).
Proof.
  intros He s. unfold keeps, learning. simpl.
  rewrite filter_app, filter_cons_False, filter_nil, app_nil_r; [done|].
  rewrite He. by intros [].
Qed.

Lemma keeps_learning_store node_id response :
  respects (keeps learning) (store_observed_scores node_id response).
Proof. respects_tac; done. Qed.

Lemma keeps_learning_get_domain_state domain :
  respects (keeps learning) (get_domain_state domain).
Proof. respects_tac; done. Qed.

Lemma keeps_learning_dict_copy l : respects (keeps learning) (dict_copy l).
Proof. respects_tac; done. Qed.

Lemma keeps_learning_update_domain_state node_id response :
  respects (keeps learning) (update_domain_state node_id response).
Proof. respects_tac; done. Qed.

Lemma seed_keeps_learn node_id response :
  respects (seed_keeps node_id) (learn_from_response node_id response).
Proof.
  assert (Hmono : ∀ A (m : M A),
    respects (keeps learning) m → respects (seed_keeps node_id) m).
  { intros A m. apply respects_mono. intros s s' Hk _. exact Hk. }
  unfold learn_from_response.
  apply respects_bind; [apply _|apply Hmono, keeps_learning_store|intros ?].
  apply respects_bind;
    [apply _|apply Hmono, keeps_learning_get_domain_state|intros ?].
  apply respects_bind; [apply _|apply Hmono, keeps_learning_dict_copy|intros ?].
  apply respects_bind;
    [apply _|apply Hmono, keeps_learning_update_domain_state|intros _].
  apply respects_bind;
    [apply _|apply Hmono, keeps_learning_get_domain_state|intros ?].
  apply respects_bind; [apply _|apply respects_gets; apply _|intros ?].
  apply respects_bind; [apply _|apply respects_gets; apply _|intros ?].
  apply respects_bind;
    [apply _|by apply Hmono, keeps_learning_print|intros _].
  intros s Hseed. unfold bind at 1. rewrite _get_action_run.
  unfold action_of, incoming_link_dicts.
  destruct (node (G s) !! node_id); [|done]. by rewrite Hseed.
Qed.


End Seeds.

(** ** Dict objects and the tracker *)

Section Heap.
Context `{Collaborators}.

Lemma run_ok {A} (m : M A) s a s' : m s = Ok a s' → final (m s) = s'.
Proof. by intros ->. Qed.

Lemma new_dict_run d s : new_dict d s = Ok (next_loc s) (alloc d s).
Proof. reflexivity. Qed.

Lemma contents_alloc_new d s : contents (next_loc s) (alloc d s) = d.
Proof. unfold contents, alloc. simpl. by rewrite lookup_insert_eq. Qed.

Lemma contents_alloc_old l d s :
  l ≠ next_loc s → contents l (alloc d s) = contents l s.
Proof.
  intros Hl. unfold contents, alloc. simpl. by rewrite lookup_insert_ne.
Qed.

Lemma heap_wf_alloc d s : heap_wf s → heap_wf (alloc d s).
Proof. intros Hwf dom l Hl. simpl in *. apply Hwf in Hl. lia. Qed.

Lemma domain_state_alloc domain d s :
  heap_wf s → domain_state domain (alloc d s) = domain_state domain s.
Proof.
  intros Hwf. unfold domain_state. simpl.
  destruct (scores (domain_scores s) !! domain) as [l|] eqn:Hl; [|done].
  apply contents_alloc_old. apply Hwf in Hl. lia.
Qed.

Lemma snapshot_alloc_new d s : heap_wf s → snapshot (next_loc s) (alloc d s).
Proof.
  intros Hwf. split; [by apply heap_wf_alloc|]. split; [simpl; lia|].
  intros dom l Hl. simpl in Hl. apply Hwf in Hl. lia.
Qed.

Lemma snapshot_alloc_old l d s : snapshot l s → snapshot l (alloc d s).
Proof.
  intros (Hwf & Hl & Hfree). split; [by apply heap_wf_alloc|].
  split; [simpl; lia|]. exact Hfree.
Qed.

Lemma snapshot_set_G l g s : snapshot l (set_G g s) ↔ snapshot l s.
Proof. done. Qed.

Lemma get_domain_state_run domain s :
  get_domain_state domain s
    = Ok (next_loc s) (alloc (domain_state domain s) s).
Proof.
  unfold get_domain_state, MaxScores_getitem, domain_state, bind, gets.
  by destruct (scores (domain_scores s) !! domain).
Qed.

Lemma dict_copy_run l s :
  dict_copy l s = Ok (next_loc s) (alloc (contents l s) s).
Proof. reflexivity. Qed.

(** [MaxScores.update] returns; it writes the dict object of the domain
    and nothing that the tracker does not hold. *)
Lemma MaxScores_update_spec domain observed s :
  ∃ s', MaxScores_update domain observed s = Ok tt s' ∧
    (next_loc s ≤ next_loc s')%nat ∧
    ∀ l, snapshot l s → snapshot l s' ∧ contents l s' = contents l s.
Proof.
  unfold MaxScores_update, bind, gets, assign, modify, ret.
  destruct (scores (domain_scores s) !! domain) as [t|] eqn:Ht; simpl.
  - eexists. split; [reflexivity|]. split; [simpl; lia|].
    intros l (Hwf & Hl & Hfree). split; [by split|].
    unfold contents. simpl. rewrite lookup_insert_ne; [done|].
    by apply (Hfree domain).
  - eexists. split; [reflexivity|]. split; [simpl; lia|].
    intros l (Hwf & Hl & Hfree). split.
    + split; [|split]; simpl.
      * intros dom t. simpl. rewrite lookup_insert.
        case_decide; [intros [= <-]; lia|].
        intros Hd. apply Hwf in Hd. lia.
      * lia.
      * intros dom t. rewrite lookup_insert.
        case_decide; [intros [= <-]; lia|]. apply Hfree.
    + unfold contents. simpl. rewrite !lookup_insert_ne; [done|lia..].
Qed.

Lemma tracker_later_snapshot l s s' :
  tracker_later s s' → snapshot l s →
  snapshot l s' ∧ contents l s' = contents l s.
Proof.
  induction 1 as [s|s s' s'' domain observed _ IH Hupd
                 |s s' s'' domain l' _ IH Hget]; intros Hsnap.
  - done.
  - destruct (IH Hsnap) as [Hsnap' <-].
    destruct (MaxScores_update_spec domain observed s')
      as (s2 & Hrun & _ & Hkeep).
    rewrite Hrun in Hupd. injection Hupd as <-. by apply Hkeep.
  - destruct (IH Hsnap) as [Hsnap' <-].
    rewrite get_domain_state_run in Hget. injection Hget as _ <-.
    split; [by apply snapshot_alloc_old|].
    apply contents_alloc_old. destruct Hsnap' as (_ & ? & _). lia.
Qed.

(** C8: [get_domain_state] returns a dict object of its own that holds
    the state of the domain at the time of the call; the tracker does
    not hold that object, and whatever updates the tracker makes later,
    for this domain or another, the contents of the object stay what
    they were. *)
Theorem domain_state_is_snapshot domain s :
  heap_wf s →
  ∃ l s1,
    get_domain_state domain s = Ok l s1 ∧
    contents l s1 = domain_state domain s ∧
    (∀ d t, scores (domain_scores s1) !! d = Some t → t ≠ l) ∧
    ∀ s2, tracker_later s1 s2 → contents l s2 = domain_state domain s.
Proof.
  intros Hwf. exists (next_loc s), (alloc (domain_state domain s) s).
  pose proof (snapshot_alloc_new (domain_state domain s) s Hwf) as Hsnap.
  split; [apply get_domain_state_run|].
  split; [apply contents_alloc_new|].
  split; [apply Hsnap|].
  intros s2 Hlater.
  destruct (tracker_later_snapshot _ _ _ Hlater Hsnap) as [_ ->].
  apply contents_alloc_new.
Qed.

End Heap.

(** ** The reward *)

Section Reward.
Context `{Collaborators}.

Lemma dict_subtract_lookup d1 d2 k :
  dict_subtract d1 d2 !! k =
    if decide (k ∈ dom d1 ∪ dom d2)
    then Some (score d1 k - score d2 k)%Qc else None.
Proof.
  unfold dict_subtract, score. rewrite lookup_merge.
  case_decide as Hk.
  - apply elem_of_union in Hk.
    rewrite !elem_of_dom in Hk.
    destruct (d1 !! k), (d2 !! k); simpl; try done.
    destruct Hk as [[? ?]|[? ?]]; done.
  - rewrite not_elem_of_union, !not_elem_of_dom in Hk.
    destruct Hk as [-> ->]. done.
Qed.

Lemma dict_subtract_items d1 d2 :
  map_to_list (dict_subtract d1 d2) ≡ₚ
    (λ k, (k, (score d1 k - score d2 k)%Qc)) <$> score_types d1 d2.
Proof.
  apply NoDup_Permutation.
  - apply NoDup_map_to_list.
  - apply NoDup_fmap_2; [by intros k1 k2 [= ->]|apply NoDup_elements].
  - intros [k v]. rewrite elem_of_map_to_list, dict_subtract_lookup.
    rewrite list_elem_of_fmap. unfold score_types. split.
    + case_decide as Hk; [|done]. intros [= <-].
      exists k. by rewrite elem_of_elements.
    + intros (k' & [= -> ->] & Hk). rewrite elem_of_elements in Hk.
      by rewrite decide_True.
Qed.

(** The reward is the sum, over the score types, of the positive part
    of [observed - s_t]. *)
Lemma reward_sum observed s_t :
  reward observed s_t =
    Py.sum ((λ k, Py.max (score observed k - score s_t k)%Qc 0%Qc)
              <$> score_types observed s_t).
Proof.
  unfold reward.
  rewrite (Py_sum_Permutation _ _
             (fmap_Permutation _ _ _ (dict_subtract_items observed s_t))).
  by rewrite <- list_fmap_compose.
Qed.

Lemma reward_nonneg observed s_t : (0 ≤ reward observed s_t)%Qc.
Proof.
  unfold reward. apply Py_sum_nonneg, Forall_fmap, Forall_forall.
  intros kv _. apply Py_max_0_nonneg.
Qed.

End Reward.

Section Learn.
Context `{Collaborators}.

Global Instance out_grows_with_preorder r : PreOrder (out_grows_with r).
Proof.
  split.
  - intros s. exists []. by rewrite app_nil_r.
  - intros s1 s2 s3 (r1 & H1 & F1) (r2 & H2 & F2). exists (r1 ++ r2).
    split; [by rewrite H2, H1, app_assoc|by apply Forall_app].
Qed.

Lemma keeps_out_grows_with {A} r (m : M A) :
  respects (keeps out) m → respects (out_grows_with r) m.
Proof.
  apply respects_mono. intros s s' Hk. exists []. split; [|done].
  unfold keeps in Hk. by rewrite Hk, app_nil_r.
Qed.

Lemma TDRegressor_update_prints self s_t a_t r_t1 s_t1 a_t1 res :
  TDRegressor_update self s_t a_t r_t1 s_t1 a_t1 = inr res →
  ∃ p o f, res.2 = PrintReturn p o r_t1 f.
Proof.
  unfold TDRegressor_update.
  destruct (TDRegressor__vectorize s_t a_t); [done|].
  destruct (future_reward self s_t1 a_t1); [done|].
  destruct (TDRegressor_predict self s_t a_t); [done|].
  intros [= <-]. simpl. eauto.
Qed.

Lemma store_observed_scores_run node_id response s a ok :
  node (G s) !! node_id = Some a →
  node_ok a = Some ok →
  store_observed_scores node_id response s =
    Ok (next_loc s)
       (set_G (add_node node_id
                 {| node_url := None; node_visited := None;
                    node_ok := None; node_response_id := None;
                    node_scores := Some (next_loc s) |} (G s))
              (alloc (observed_scores_of ok response) s)).
Proof.
  intros Hnode Hok.
  unfold store_observed_scores, G_node, bind, gets. rewrite Hnode. simpl.
  rewrite Hok. simpl. unfold observed_scores_of.
  by destruct (ok_true ok).
Qed.

Lemma keeps_out_update_domain_state node_id response :
  respects (keeps out) (update_domain_state node_id response).
Proof. respects_tac; done. Qed.

Lemma update_domain_state_spec node_id response s a scores :
  node (G s) !! node_id = Some a →
  node_scores a = Some scores →
  ∃ s', update_domain_state node_id response s = Ok tt s' ∧
    out s' = out s ∧
    ∀ l, snapshot l s → snapshot l s' ∧ contents l s' = contents l s.
Proof.
  intros Hnode Hscores.
  assert (∃ s', update_domain_state node_id response s = Ok tt s' ∧
    ∀ l, snapshot l s → snapshot l s' ∧ contents l s' = contents l s)
    as (s' & Hrun & Hsnap).
  { unfold update_domain_state, G_node, bind, gets. rewrite Hnode. simpl.
    rewrite Hscores. simpl. case_decide; [by eexists|].
    destruct (MaxScores_update_spec (resp_domain response) scores s)
      as (s' & Hrun & _ & Hsnap). eauto. }
  exists s'. split; [done|]. split; [|done].
  rewrite <- (run_ok _ _ _ _ Hrun). apply keeps_out_update_domain_state.
Qed.

Lemma keeps_out_priorities domain :
  respects (keeps out) (update_domain_request_priorities domain).
Proof. respects_tac; done. Qed.

Lemma out_grows_with_rl_model_update r s_t a_t s_t1 a_t1 :
  respects (out_grows_with r) (rl_model_update s_t a_t r s_t1 a_t1).
Proof.
  intros s. unfold rl_model_update, bind, gets, lift. simpl.
  destruct (TDRegressor_update _ _ _ _ _ _) as [e|res] eqn:Hupd; simpl.
  - reflexivity.
  - destruct (TDRegressor_update_prints _ _ _ _ _ _ _ Hupd)
      as (p & o & f & Hres).
    exists [res.2]. split; [done|]. apply Forall_singleton.
    rewrite Hres. by intros ???? [= _ _ <- _].
Qed.

(** C1: [learn_from_response] on a node of the graph prints the reward
    [r_t1], which is the sum over the score types of
    [max(observed_scores[k] - s_t[k], 0)], with [s_t] the state of the
    domain as it was before the call, hence before the tracker update
    the call makes; [r_t1] is not negative; and when the estimator is
    updated, it is with this [r_t1]. *)
Theorem reward_is_positive_part node_id response s a ok :
  heap_wf s →
  node (G s) !! node_id = Some a →
  node_ok a = Some ok →
  let observed_scores := observed_scores_of ok response in
  let s_t := domain_state (resp_domain response) s in
  let r_t1 :=
    Py.sum ((λ k, Py.max (score observed_scores k - score s_t k)%Qc 0%Qc)
              <$> score_types observed_scores s_t) in
  (0 ≤ r_t1)%Qc ∧
  ∃ rest,
    out (final (learn_from_response node_id response s)) =
      out s ++ PrintReward r_t1 (resp_url response) :: rest ∧
    ∀ p o i f, PrintReturn p o i f ∈ rest → i = r_t1.
Proof.
  intros Hwf Hnode Hok observed_scores s_t r_t1.
  assert (Hr : r_t1 = reward observed_scores s_t)
    by (symmetry; apply reward_sum).
  split; [rewrite Hr; apply reward_nonneg|].
  unfold learn_from_response.
  (* the observed scores are stored in a new dict *)
  unfold bind at 1.
  rewrite (store_observed_scores_run _ _ _ _ _ Hnode Hok).
  fold observed_scores.
  set (s1 := set_G _ (alloc observed_scores s)).
  assert (Hobs1 : snapshot (next_loc s) s1)
    by (by apply snapshot_alloc_new).
  assert (Hcont1 : contents (next_loc s) s1 = observed_scores)
    by apply contents_alloc_new.
  assert (Hstate1 : domain_state (resp_domain response) s1 = s_t)
    by (by apply (domain_state_alloc _ observed_scores s)).
  (* the state of the domain, and its copy *)
  unfold bind at 1. rewrite get_domain_state_run, Hstate1.
  set (s2 := alloc s_t s1).
  unfold bind at 1. rewrite dict_copy_run.
  replace (contents (next_loc s1) s2) with s_t
    by (symmetry; apply contents_alloc_new).
  set (s3 := alloc s_t s2).
  assert (Hobs2 : snapshot (next_loc s) s2)
    by (by apply snapshot_alloc_old).
  assert (Hobs3 : snapshot (next_loc s) s3)
    by (by apply snapshot_alloc_old).
  assert (Hst3 : snapshot (next_loc s2) s3)
    by (apply snapshot_alloc_new, Hobs2).
  (* the tracker update *)
  destruct (update_domain_state_spec node_id response s3
              (attrs_update a (mkNodeAttrs None None None None
                                 (Some (next_loc s)))) (next_loc s))
    as (s4 & Hrun4 & Hout4 & Hsnap4).
  { simpl. by rewrite lookup_insert_eq, Hnode. }
  { done. }
  unfold bind at 1. rewrite Hrun4.
  destruct (Hsnap4 _ Hobs3) as [Hobs4 Hcont4].
  destruct (Hsnap4 _ Hst3) as [Hst4 Hcontst4].
  unfold bind at 1. rewrite get_domain_state_run.
  set (s5 := alloc _ s4).
  unfold bind at 1, gets at 1. unfold bind at 1, gets at 1.
  replace (contents (next_loc s) s5) with observed_scores.
  2:{ unfold s5. rewrite contents_alloc_old, Hcont4.
      - unfold s3, s2. rewrite !contents_alloc_old; [done|simpl; lia..].
      - destruct Hobs4 as (_ & ? & _). lia. }
  replace (contents (next_loc s2) s5) with s_t.
  2:{ unfold s5. rewrite contents_alloc_old, Hcontst4.
      - symmetry. apply contents_alloc_new.
      - destruct Hst4 as (_ & ? & _). lia. }
  rewrite <- Hr.
  unfold bind at 1, print at 1, modify at 1.
  (* what follows only adds lines of the update, with this reward *)
  lazymatch goal with
  | |- context [final (?m ?st)] =>
      assert (Hrest : respects (out_grows_with r_t1) m); [|specialize (Hrest st)]
  end.
  { apply respects_bind; [apply _| |intros a_t].
    { apply keeps_out_grows_with. respects_tac; done. }
    destruct (negb (action_true a_t)); [apply respects_ret; apply _|].
    apply respects_bind; [apply _| |intros _].
    { destruct (Py.ltb _ _); [|apply respects_ret; apply _].
      apply keeps_out_grows_with, keeps_out_priorities. }
    apply respects_bind; [apply _|apply respects_gets; apply _|intros queue].
    apply respects_bind; [apply _| |intros a_t1].
    { apply keeps_out_grows_with.
      destruct (next_request queue) as [next_req|];
        [|apply respects_ret; apply _].
      destruct (req_node_id next_req);
        [|apply respects_ret; apply _].
      respects_tac; done. }
    apply out_grows_with_rl_model_update. }
  destruct Hrest as (rest & Hrest & Hreturns). exists rest. split.
  - rewrite Hrest. simpl. rewrite <- app_assoc. simpl.
    unfold s5. simpl. rewrite Hout4. done.
  - intros p o i f Hin. rewrite Forall_forall in Hreturns.
    by apply (Hreturns _ Hin p o i f).
Qed.

End Learn.

(** ** Dropped requests *)

Section Drop.
Context `{Collaborators}.

Lemma on_offdomain_request_dropped_run request n s :
  req_node_id request = Some (S n) →
  on_offdomain_request_dropped request s =
    Ok tt (set_G (add_node (S n)
                    {| node_url := None;
                       node_visited := Some true;
                       node_ok := Some (Some false);
                       node_response_id := Some (Some (response_count s));
                       node_scores := Some (next_loc s) |} (G s))
                 (alloc (constant_scores available_form_types 0%Qc) s)).
Proof. intros Hid. unfold on_offdomain_request_dropped. by rewrite Hid. Qed.

Lemma on_offdomain_request_dropped_skip request s :
  req_node_id request = None ∨ req_node_id request = Some 0%nat →
  on_offdomain_request_dropped request s =
    Ok tt (set_out (out s ++ [WarnDroppedWithoutNodeId (req_url request)]) s).
Proof.
  intros Hid. unfold on_offdomain_request_dropped.
  by destruct Hid as [-> | ->].
Qed.

(** C6, as the code has it: for a dropped request that carries a
    non-zero node id, the handler returns, marks the node visited and
    not ok and gives it a new dict of all-zero scores; it makes no call
    to the tracker, whose domains and whose state for every domain are
    what they were. *)
Theorem drop_records_zero_scores request n s :
  heap_wf s →
  req_node_id request = Some (S n) →
  ∃ s' a l,
    on_offdomain_request_dropped request s = Ok tt s' ∧
    node (G s') !! S n = Some a ∧
    node_visited a = Some true ∧
    node_ok a = Some (Some false) ∧
    node_scores a = Some l ∧
    contents l s' = constant_scores available_form_types 0%Qc ∧
    domain_scores s' = domain_scores s ∧
    ∀ domain, domain_state domain s' = domain_state domain s.
Proof.
  intros Hwf Hid. eexists _, _, (next_loc s).
  split; [by apply on_offdomain_request_dropped_run|].
  split; [simpl; apply lookup_insert_eq|].
  do 3 (split; [done|]).
  split; [apply contents_alloc_new|]. split; [done|].
  intros domain.
  apply (domain_state_alloc domain (constant_scores _ _) s Hwf).
Qed.

End Drop.

(** ** The crawl graph *)

Section Graph.
Context `{Collaborators}.

Lemma attrs_update_no_attrs a : attrs_update a no_attrs = a.
Proof. by destruct a. Qed.

Lemma node_inv_no_attrs : node_inv no_attrs.
Proof. split; [intros [? ?]|]; done. Qed.

Lemma add_node_lookup n attrs g m :
  node (add_node n attrs g) !! m =
    if decide (n = m)
    then Some (attrs_update (default no_attrs (node g !! n)) attrs)
    else node g !! m.
Proof. unfold add_node. simpl. apply lookup_insert. Qed.

Lemma add_edge_node u v link g m :
  node (add_edge u v link g) !! m =
    node (add_node v no_attrs (add_node u no_attrs g)) !! m.
Proof. done. Qed.

Lemma add_edge_lookup_present u v link g m a :
  node g !! m = Some a → node (add_edge u v link g) !! m = Some a.
Proof.
  intros Hm. rewrite add_edge_node, !add_node_lookup.
  repeat case_decide; subst; rewrite ?add_node_lookup, ?decide_True by done;
    repeat case_decide; try done;
    rewrite ?Hm; simpl; by rewrite ?attrs_update_no_attrs.
Qed.

Lemma add_edge_lookup_inv u v link g m a :
  node g !! u = Some a →
  is_Some (node g !! v) →
  node (add_edge u v link g) !! m = node g !! m.
Proof.
  intros Hu [b Hv]. rewrite add_edge_node, !add_node_lookup.
  repeat case_decide; subst; rewrite ?add_node_lookup;
    repeat case_decide; try done;
    rewrite ?Hu, ?Hv; simpl; by rewrite ?attrs_update_no_attrs.
Qed.

Lemma keeps_crawl_graph_priority domain node_id :
  respects (keeps crawl_graph) (get_request_priority domain node_id).
Proof. respects_tac; done. Qed.

Lemma keeps_crawl_graph_priorities domain :
  respects (keeps crawl_graph) (update_domain_request_priorities domain).
Proof. respects_tac; done. Qed.

Lemma keeps_crawl_graph_update min_response_count :
  respects (keeps crawl_graph) (update_request_priorities min_response_count).
Proof.
  unfold update_request_priorities.
  apply respects_bind; [apply _| |intros ?].
  { respects_tac; done. }
  apply respects_bind; [apply _|apply respects_gets; apply _|intros ?].
  destruct (_ && _); [respects_tac; done|].
  apply respects_bind; [apply _|respects_tac; done|intros _].
  apply respects_bind; [apply _|apply respects_gets; apply _|intros ?].
  apply respects_bind; [apply _| |intros _].
  { apply respects_for_; [apply _|]. apply keeps_crawl_graph_priorities. }
  respects_tac; done.
Qed.

(** One link: a new unvisited node without scores, and an edge into
    it. *)
Lemma generate_out_node_spec domain this_node_id link s request s' :
  generate_out_node domain this_node_id link s = Ok request s' →
  ∃ url,
    G s' = add_edge this_node_id (node_ids s) link
             (add_node (node_ids s)
                {| node_url := Some url; node_visited := Some false;
                   node_ok := Some None; node_response_id := Some None;
                   node_scores := None |} (G s)) ∧
    node_ids s' = S (node_ids s) ∧
    req_node_id request = Some (node_ids s).
Proof.
  unfold generate_out_node.
  destruct (link !! "url") as [url|]; [|done]. simpl.
  unfold bind at 1. simpl. unfold bind at 1. simpl.
  unfold bind at 1. simpl. unfold bind at 1. simpl.
  unfold bind at 1.
  match goal with
  | |- context [get_request_priority ?d ?n ?st] =>
      pose proof (keeps_crawl_graph_priority d n st) as Hk;
      destruct (get_request_priority d n st) as [p s2|e s2]
  end; [|done].
  unfold bind. simpl. intros [= <- <-]. exists url.
  unfold keeps, crawl_graph in Hk. simpl in Hk.
  injection Hk as HG Hids. simpl. by rewrite HG, Hids.
Qed.

Lemma generate_out_node_inv node_id yielded domain link s request s' :
  parsing_inv node_id yielded s →
  generate_out_node domain node_id link s = Ok request s' →
  parsing_inv node_id (yielded ++ [request]) s'.
Proof.
  intros (Hnodes & (a & Ha & Hvisited) & Hyielded & Hpred & Hpos) Hrun.
  destruct (generate_out_node_spec _ _ _ _ _ _ Hrun)
    as (url & HG & Hids & Hreq).
  assert (Hfresh : node (G s) !! node_ids s = None).
  { destruct (node (G s) !! node_ids s) as [b|] eqn:Hb; [|done].
    apply Hnodes in Hb. lia. }
  assert (Hne : node_id ≠ node_ids s).
  { intros ->. congruence. }
  set (g1 := add_node (node_ids s) _ (G s)) in HG.
  assert (Hg1 : ∀ m, node (G s') !! m = node g1 !! m).
  { intros m. rewrite HG. apply (add_edge_lookup_inv _ _ _ _ _ a).
    - unfold g1. rewrite add_node_lookup, decide_False; done.
    - unfold g1. rewrite add_node_lookup, decide_True; done. }
  split; [|split; [|split; [|split]]].
  - intros m b. rewrite Hg1, Hids. unfold g1. rewrite add_node_lookup.
    case_decide as Hm.
    + subst m. rewrite Hfresh. simpl. intros [= <-].
      split; [lia|]. intros _. split; [intros [? ?]|]; done.
    + intros Hb. apply Hnodes in Hb. split; [lia|apply Hb].
  - exists a. split; [|done]. rewrite Hg1. unfold g1.
    rewrite add_node_lookup, decide_False; done.
  - intros r. rewrite elem_of_app, list_elem_of_singleton, Hids.
    intros [Hr | ->].
    + destruct (Hyielded r Hr) as (n & Hn & Hlt). exists n. split; [done|lia].
    + destruct (node_ids s) as [|n]; [lia|]. exists n. split; [done|lia].
  - rewrite HG. simpl. rewrite lookup_insert_ne; [done|lia].
  - lia.
Qed.

Lemma generate_out_nodes_inv node_id yielded response s requests s' :
  parsing_inv node_id yielded s →
  generate_out_nodes response node_id s = Ok requests s' →
  parsing_inv node_id (yielded ++ requests) s'.
Proof.
  unfold generate_out_nodes. generalize (resp_links response) as links.
  intros links. revert yielded s requests s'.
  induction links as [|link links IH]; intros yielded s requests s' Hinv.
  - simpl. intros [= <- <-]. by rewrite app_nil_r.
  - simpl. unfold bind at 1.
    destruct (generate_out_node _ _ link s) as [request s1|] eqn:Hone;
      [|done].
    apply (generate_out_node_inv _ _ _ _ _ _ _ Hinv) in Hone.
    unfold bind at 1.
    destruct (mapM _ links s1) as [rest s2|] eqn:Hrest; [|done].
    intros [= <- <-]. apply (IH _ _ _ _ Hone) in Hrest.
    by rewrite <- app_assoc in Hrest.
Qed.

End Graph.

(** ** Invariants of the crawl *)

Section Crawl.
Context `{Collaborators}.

Lemma update_response_node_run response s :
  update_response_node response s =
    Ok (default (node_ids s) (resp_node_id response))
       (set_G (add_node (default (node_ids s) (resp_node_id response))
                 {| node_url := Some (resp_url response);
                    node_visited := Some true;
                    node_ok :=
                      Some (Some ((resp_status response =? 200)
                                  && resp_has_text response));
                    node_response_id := Some (Some (response_count s));
                    node_scores := None |} (G s))
              (match resp_node_id response with
               | None => set_node_ids (S (node_ids s)) s
               | Some _ => s
               end)).
Proof. unfold update_response_node. by destruct (resp_node_id response). Qed.

Lemma crawl_inv_keeps yielded s s' :
  crawl_graph s' = crawl_graph s → crawl_inv yielded s → crawl_inv yielded s'.
Proof.
  unfold crawl_graph, crawl_inv. intros [= -> ->]. done.
Qed.

Lemma update_response_node_inv yielded response s node_id s' :
  crawl_inv yielded s →
  response_from yielded response →
  update_response_node response s = Ok node_id s' →
  parsing_inv node_id yielded s'.
Proof.
  intros (Hnodes & Hyielded & Hpred) Hfrom.
  rewrite update_response_node_run. intros [= <- <-].
  set (node_id := default (node_ids s) (resp_node_id response)).
  set (s0 := match resp_node_id response with
             | None => set_node_ids (S (node_ids s)) s
             | Some _ => s
             end).
  assert (Hids : (node_ids s ≤ node_ids s0)%nat)
    by (unfold s0; destruct (resp_node_id response); simpl; lia).
  assert (Hid : (node_id < node_ids s0)%nat ∧ (0 < node_ids s0)%nat).
  { unfold node_id, s0. destruct Hfrom as [-> | (r & Hr & Heq)].
    - simpl. lia.
    - destruct (Hyielded r Hr) as (n & Hn & Hlt).
      rewrite <- Heq, Hn. simpl. lia. }
  split; [|split; [|split; [|split]]]; unfold set_G; cbn [G node_ids].
  - intros m b. rewrite add_node_lookup. case_decide as Hm.
    + subst m. intros _. split; [apply Hid|done].
    + replace (G s0) with (G s) by (unfold s0; by destruct (resp_node_id _)).
      intros Hb. apply Hnodes in Hb. split; [lia|]. intros _. apply Hb.
  - eexists. rewrite add_node_lookup, decide_True by done. done.
  - intros r Hr. destruct (Hyielded r Hr) as (n & Hn & Hlt).
    exists n. split; [done|lia].
  - by replace (G s0) with (G s)
      by (unfold s0; by destruct (resp_node_id _)).
  - apply Hid.
Qed.

Lemma store_observed_scores_spec node_id response s l s' :
  store_observed_scores node_id response s = Ok l s' →
  G s' = add_node node_id
           {| node_url := None; node_visited := None; node_ok := None;
              node_response_id := None; node_scores := Some l |} (G s) ∧
  node_ids s' = node_ids s.
Proof.
  unfold store_observed_scores, G_node, bind at 1, bind at 1, gets.
  destruct (node (G s) !! node_id) as [a|]; [|done]. simpl.
  unfold bind at 1. destruct (node_ok a) as [ok|]; [|done]. simpl.
  unfold bind at 1.
  destruct (ok_true ok); simpl; by intros [= <- <-].
Qed.

(** After [store_observed_scores], [learn_from_response] leaves the
    graph alone. *)
Lemma learn_from_response_graph node_id response s s' :
  learn_from_response node_id response s = Ok tt s' →
  ∃ l, G s' = add_node node_id
                {| node_url := None; node_visited := None; node_ok := None;
                   node_response_id := None; node_scores := Some l |} (G s)
       ∧ node_ids s' = node_ids s.
Proof.
  unfold learn_from_response. unfold bind at 1.
  destruct (store_observed_scores node_id response s) as [l s1|] eqn:Hstore;
    [|done].
  apply store_observed_scores_spec in Hstore as [HG Hids].
  lazymatch goal with
  | |- ?m s1 = _ → _ =>
      assert (Hrest : respects (keeps crawl_graph) m)
  end.
  { apply respects_bind; [apply _|respects_tac; done|intros ?].
    apply respects_bind; [apply _|respects_tac; done|intros ?].
    apply respects_bind; [apply _|respects_tac; done|intros ?].
    apply respects_bind; [apply _|respects_tac; done|intros ?].
    apply respects_bind; [apply _|respects_tac; done|intros ?].
    apply respects_bind; [apply _|respects_tac; done|intros ?].
    apply respects_bind; [apply _|respects_tac; done|intros ?].
    apply respects_bind; [apply _|respects_tac; done|intros a_t].
    destruct (negb (action_true a_t)); [apply respects_ret; apply _|].
    apply respects_bind; [apply _| |intros _].
    { destruct (Py.ltb _ _); [|apply respects_ret; apply _].
      apply keeps_crawl_graph_priorities. }
    apply respects_bind; [apply _|apply respects_gets; apply _|intros queue].
    apply respects_bind; [apply _| |intros a_t1].
    { destruct (next_request queue) as [next_req|];
        [|apply respects_ret; apply _].
      destruct (req_node_id next_req);
        [|apply respects_ret; apply _].
      respects_tac; done. }
    respects_tac; done. }
  intros Hrun. specialize (Hrest s1). rewrite Hrun in Hrest.
  unfold keeps, crawl_graph in Hrest. simpl in Hrest.
  injection Hrest as -> ->. eauto.
Qed.

Lemma parse_inv yielded response s requests s' :
  crawl_inv yielded s →
  response_from yielded response →
  parse response s = Ok requests s' →
  crawl_inv (yielded ++ requests) s'.
Proof.
  intros Hinv Hfrom. unfold parse.
  unfold bind at 1, increase_response_count at 1, modify at 1.
  set (s0 := set_response_count _ s).
  assert (Hinv0 : crawl_inv yielded s0) by done.
  unfold bind at 1.
  destruct (update_response_node response s0) as [node_id s1|] eqn:Hnode;
    [|done].
  pose proof (update_response_node_inv _ _ _ _ _ Hinv0 Hfrom Hnode) as Hinv1.
  unfold bind at 1, G_node at 1, bind at 1, gets at 1.
  destruct (node (G s1) !! node_id) as [a|]; [|done]. simpl.
  unfold bind at 1. destruct (node_ok a) as [ok|]; [|done]. simpl.
  unfold bind at 1.
  destruct ((if ok_true ok then generate_out_nodes response node_id
             else ret []) s1) as [reqs s2|] eqn:Hgen; [|done].
  assert (Hinv2 : parsing_inv node_id (yielded ++ reqs) s2).
  { destruct (ok_true ok).
    - by apply (generate_out_nodes_inv _ _ response s1).
    - injection Hgen as <- <-. by rewrite app_nil_r. }
  unfold bind at 1.
  destruct (learn_from_response node_id response s2) as [[] s3|] eqn:Hlearn;
    [|done].
  intros [= <- <-].
  destruct (learn_from_response_graph _ _ _ _ Hlearn) as (l & HG & Hids).
  destruct Hinv2 as (Hnodes & (b & Hb & Hvisited) & Hyielded & Hpred & _).
  split; [|split].
  - intros m c. rewrite HG, Hids, add_node_lookup. case_decide as Hm.
    + subst m. rewrite Hb. simpl. intros [= <-].
      split; [by apply (Hnodes _ _ Hb)|].
      unfold node_inv. simpl. split; [done|eauto].
    + intros Hc. destruct (Hnodes _ _ Hc) as [? Hnode_inv]. eauto.
  - intros r Hr. rewrite Hids. by apply Hyielded.
  - by rewrite HG.
Qed.

Lemma on_offdomain_request_dropped_inv yielded request s s' :
  crawl_inv yielded s →
  request_from yielded request →
  on_offdomain_request_dropped request s = Ok tt s' →
  crawl_inv yielded s'.
Proof.
  intros (Hnodes & Hyielded & Hpred) Hfrom.
  destruct (req_node_id request) as [[|n]|] eqn:Hid.
  - rewrite on_offdomain_request_dropped_skip by eauto. by intros [= <-].
  - rewrite (on_offdomain_request_dropped_run _ n) by done.
    intros [= <-]. split; [|split]; [|done..].
    unfold set_G; cbn [G node_ids].
    intros m a. rewrite add_node_lookup. case_decide as Hm.
    + subst m. intros [= <-]. split.
      * destruct Hfrom as [Hnone | Hin]; [congruence|].
        destruct (Hyielded _ Hin) as (n' & Hn' & Hlt).
        rewrite Hid in Hn'. injection Hn' as ->. done.
      * unfold node_inv. simpl. split; [done|eauto].
    + apply Hnodes.
  - rewrite on_offdomain_request_dropped_skip by eauto. by intros [= <-].
Qed.

Lemma reachable_inv yielded s : reachable yielded s → crawl_inv yielded s.
Proof.
  induction 1 as [gamma
                 |yielded s response requests s' _ IH Hfrom Hrun
                 |yielded s request s' _ IH Hfrom Hrun
                 |yielded s mrc s' _ IH Hrun
                 |yielded s queues _ IH].
  - split; [|split]; simpl.
    + intros n a. by rewrite lookup_empty.
    + intros r Hr. by apply elem_of_nil in Hr.
    + apply lookup_empty.
  - by apply (parse_inv _ _ _ _ _ IH Hfrom).
  - by apply (on_offdomain_request_dropped_inv _ _ _ _ IH Hfrom).
  - apply (crawl_inv_keeps _ s); [|done].
    rewrite <- (run_ok _ _ _ _ Hrun). apply keeps_crawl_graph_update.
  - done.
Qed.

(** C7, as the code has it: in a crawl in which every [parse] ran to the
    end of its generator and raised nothing, and no other callback ran
    while a [parse] was under way, after every completed transition of
    the spider (a response parsed with the links it leads to, a dropped
    request handled, a periodic update of the priorities, a change of
    the frontier by the engine), a node of the crawl graph has its
    [scores] attribute set if and only if its [visited] attribute is
    [True]. *)
Theorem scores_iff_visited yielded s n a :
  reachable yielded s →
  node (G s) !! n = Some a →
  is_Some (node_scores a) ↔ node_visited a = Some true.
Proof.
  intros Hreach Hn. apply reachable_inv in Hreach as (Hnodes & _).
  by apply (Hnodes n a).
Qed.

Lemma _get_priority_skip domain request s :
  req_node_id request = None ∨ req_node_id request = Some 0%nat →
  _get_priority domain request s = Ok (req_priority request) s.
Proof. intros [Hid | Hid]; unfold _get_priority; by rewrite Hid. Qed.

(** C10: a node id is missing when it is false, not when it is absent.
    A dropped request with node id 0 is handled as one without node id:
    a warning is logged and nothing else changes.  In a sweep, a request
    with node id 0 or without node id keeps its priority.  And no
    request that the spider yields carries node id 0, nor lacks a node
    id: the ids of yielded requests come from the counter after its
    first value, and no edge leads into node 0. *)
Theorem node_id_zero_is_missing :
  (∀ request s,
     req_node_id request = None ∨ req_node_id request = Some 0%nat →
     on_offdomain_request_dropped request s =
       Ok tt (set_out (out s ++ [WarnDroppedWithoutNodeId (req_url request)])
                      s)) ∧
  (∀ domain request s,
     req_node_id request = None ∨ req_node_id request = Some 0%nat →
     _get_priority domain request s = Ok (req_priority request) s) ∧
  (∀ yielded s,
     reachable yielded s →
     (∀ r, r ∈ yielded → ∃ n, req_node_id r = Some (S n)) ∧
     pred (G s) !! 0%nat = None).
Proof.
  split; [apply on_offdomain_request_dropped_skip|].
  split; [apply _get_priority_skip|].
  intros yielded s Hreach.
  apply reachable_inv in Hreach as (_ & Hyielded & Hpred).
  split; [|done]. intros r Hr.
  destruct (Hyielded r Hr) as (n & Hn & _). eauto.
Qed.

End Crawl.

(** ** Re-prioritization *)

Section Priorities.
Context `{Collaborators}.

Global Instance knows_preorder : PreOrder knows.
Proof.
  split.
  - intros s. by split.
  - intros s1 s2 s3 (K12 & N12 & H12) (K23 & N23 & H23).
    split; [congruence|]. split; [lia|].
    intros l Hl. rewrite H23 by lia. by apply H12.
Qed.

Lemma knows_alloc d s : knows s (alloc d s).
Proof.
  split; [done|]. split; [simpl; lia|].
  intros l Hl. simpl. rewrite lookup_insert_ne; [done|lia].
Qed.

Lemma knows_heap_wf s s' : heap_wf s → knows s s' → heap_wf s'.
Proof.
  intros Hwf (K & N & _) d l. unfold knowledge in K.
  injection K as _ _ ->. intros Hl. apply Hwf in Hl. lia.
Qed.

Lemma knows_domain_state domain s s' :
  heap_wf s → knows s s' → domain_state domain s' = domain_state domain s.
Proof.
  intros Hwf (K & _ & Hheap). unfold domain_state, contents.
  unfold knowledge in K. injection K as _ _ ->.
  destruct (scores (domain_scores s) !! domain) as [l|] eqn:Hl; [|done].
  rewrite Hheap; [done|]. by apply (Hwf domain).
Qed.

Lemma knows_priority_value domain r s s' :
  heap_wf s → knows s s' →
  priority_value domain r s' = priority_value domain r s.
Proof.
  intros Hwf Hk. unfold priority_value, request_priority_value.
  rewrite (knows_domain_state _ _ _ Hwf Hk).
  destruct Hk as (K & _). unfold knowledge in K. injection K as -> -> _.
  done.
Qed.

Lemma knows_rescore_all domain q s s' :
  heap_wf s → knows s s' →
  rescore_all domain s' q = rescore_all domain s q.
Proof.
  intros Hwf Hk. unfold rescore_all. apply list_fmap_ext. intros i r _.
  unfold rescore. by rewrite (knows_priority_value _ _ _ _ Hwf Hk).
Qed.

Lemma get_request_priority_value domain node_id s :
  match get_request_priority domain node_id s with
  | Ok p _ => request_priority_value domain node_id s = inr p
  | Err e _ => request_priority_value domain node_id s = inl e
  end.
Proof.
  unfold get_request_priority, request_priority_value.
  unfold bind at 1. rewrite get_domain_state_run.
  unfold bind at 1. rewrite _get_action_run.
  change (G (alloc (domain_state domain s) s)) with (G s).
  destruct (action_of node_id (G s)) as [e|a]; [done|].
  unfold bind at 1, gets at 1. rewrite contents_alloc_new.
  unfold bind at 1, gets at 1.
  change (rl_model (alloc (domain_state domain s) s)) with (rl_model s).
  by destruct (TDRegressor_predict _ _ _).
Qed.

Lemma _get_priority_value domain r s :
  match _get_priority domain r s with
  | Ok p _ => priority_value domain r s = inr p
  | Err e _ => priority_value domain r s = inl e
  end.
Proof.
  unfold _get_priority, priority_value.
  destruct (req_node_id r) as [[|n]|]; [done| |done].
  apply get_request_priority_value.
Qed.

Lemma respects_knows_get_priority domain r :
  respects knows (_get_priority domain r).
Proof.
  respects_tac; try reflexivity; try done. all: apply knows_alloc.
Qed.

Lemma keeps_queue_get_priority domain r :
  respects (keeps scheduler_queue) (_get_priority domain r).
Proof. respects_tac; done. Qed.

Lemma respects_knows_priorities domain :
  respects knows (update_domain_request_priorities domain).
Proof.
  unfold update_domain_request_priorities, update_all_priorities.
  repeat respects_step.
  - apply respects_knows_get_priority.
  - by split.
Qed.

Lemma keeps_counters_priorities domain :
  respects (keeps counters) (update_domain_request_priorities domain).
Proof. respects_tac; done. Qed.

(** The loop of [update_all_priorities] returns: the entries are
    re-scored from what the spider knew at the start, each one that
    raises being kept. *)
Lemma rescoring_spec domain s0 q s :
  heap_wf s0 → knows s0 s →
  ∃ s',
    mapM (λ r, catch (bind (_get_priority domain r)
                        (λ p, ret (set_priority r p)))
                     (λ _, ret r)) q s
      = Ok (rescore_all domain s0 q) s' ∧
    knows s0 s' ∧
    scheduler_queue s' = scheduler_queue s.
Proof.
  intros Hwf. revert s. induction q as [|r q IH]; intros s Hk.
  - by exists s.
  - pose proof (_get_priority_value domain r s) as Hval.
    pose proof (respects_knows_get_priority domain r s) as Hk1.
    pose proof (keeps_queue_get_priority domain r s) as Hq1.
    rewrite (knows_priority_value _ _ _ _ Hwf Hk) in Hval.
    cbn [mapM]. unfold bind at 1, catch at 1, bind at 1.
    unfold rescore_all. rewrite fmap_cons. unfold rescore at 1.
    destruct (_get_priority domain r s) as [p s1|e s1];
      cbn [final] in Hk1, Hq1; rewrite Hval; cbn [ret].
    all: assert (Hk01 : knows s0 s1) by (by etrans).
    all: destruct (IH s1 Hk01) as (s2 & Hrest & Hk2 & Hq2).
    all: exists s2; unfold bind at 1; rewrite Hrest.
    all: split; [done|]; split; [done|].
    all: unfold keeps in Hq1; congruence.
Qed.

(** A sweep of one domain returns: every priority is recomputed, an
    entry whose computation raises is kept, and the queue is
    re-sorted. *)
Lemma update_domain_request_priorities_spec domain s0 s :
  heap_wf s0 → knows s0 s →
  ∃ s',
    update_domain_request_priorities domain s = Ok tt s' ∧
    scheduler_queue s' =
      alter (λ _, queue_resort
                    (rescore_all domain s0
                       (get_domain_queue domain (scheduler_queue s))))
            domain (scheduler_queue s).
Proof.
  intros Hwf Hk.
  unfold update_domain_request_priorities, update_all_priorities.
  unfold bind at 1, gets at 1. unfold bind at 1. unfold bind at 1.
  destruct (rescoring_spec domain s0
    (get_domain_queue domain (scheduler_queue s)) s Hwf Hk)
    as (s1 & -> & _ & Hq).
  eexists. split; [reflexivity|]. simpl. by rewrite Hq.
Qed.

End Priorities.

Section Sweep.
Context `{Collaborators}.

Lemma rescore_all_rescored domain s q :
  Forall2 (rescored domain s) q (rescore_all domain s q).
Proof.
  unfold rescore_all. apply Forall2_fmap_r, Forall_Forall2_diag.
  apply Forall_forall. intros r _. unfold compose, rescored, rescore.
  by destruct (priority_value domain r s).
Qed.

Lemma queue_push_Permutation r q : queue_push r q ≡ₚ r :: q.
Proof.
  induction q as [|x q IH]; simpl; [done|].
  destruct (req_priority x <? req_priority r); [done|].
  rewrite IH. apply perm_swap.
Qed.

Lemma queue_resort_Permutation q : queue_resort q ≡ₚ q.
Proof.
  unfold queue_resort.
  assert (Hgen : ∀ acc, foldl (λ acc r, queue_push r acc) acc q ≡ₚ acc ++ q).
  { induction q as [|r q IH]; intros acc; simpl.
    - by rewrite app_nil_r.
    - rewrite IH, queue_push_Permutation. simpl.
      apply Permutation_middle. }
  apply Hgen.
Qed.

Lemma sweep_spec s0 domains :
  heap_wf s0 → NoDup domains →
  ∀ s, knows s0 s →
    (∀ d, d ∈ domains → scheduler_queue s !! d = scheduler_queue s0 !! d) →
    ∃ s',
      for_ domains update_domain_request_priorities s = Ok tt s' ∧
      knows s0 s' ∧ counters s' = counters s ∧ out s' = out s ∧
      (∀ d q, d ∈ domains → scheduler_queue s0 !! d = Some q →
         scheduler_queue s' !! d = Some (queue_resort (rescore_all d s0 q))) ∧
      (∀ d, d ∉ domains →
         scheduler_queue s' !! d = scheduler_queue s !! d).
Proof.
  intros Hwf. induction 1 as [|d domains Hd Hnodup IH]; intros s Hk Hagree.
  - exists s. simpl. split; [done|]. split; [done|]. split; [done|].
    split; [done|]. split; [|done].
    intros d q Hin. by apply elem_of_nil in Hin.
  - destruct (update_domain_request_priorities_spec d s0 s Hwf Hk)
      as (s1 & Hone & Hq1).
    pose proof (respects_knows_priorities d s) as Hk1.
    pose proof (keeps_counters_priorities d s) as Hc1.
    pose proof (keeps_out_priorities d s) as Ho1.
    rewrite Hone in Hk1, Hc1, Ho1. cbn [final] in Hk1, Hc1, Ho1.
    assert (Hqd : scheduler_queue s !! d = scheduler_queue s0 !! d)
      by (apply Hagree; left).
    unfold get_domain_queue in Hq1. rewrite Hqd in Hq1.
    assert (Hk01 : knows s0 s1) by (by etrans).
    assert (Hagree1 : ∀ d', d' ∈ domains →
              scheduler_queue s1 !! d' = scheduler_queue s0 !! d').
    { intros d' Hd'. rewrite Hq1, lookup_alter_ne.
      - apply Hagree. by right.
      - intros ->. done. }
    destruct (IH s1 Hk01 Hagree1) as (s2 & Hrest & Hk2 & Hc2 & Ho2 & Hdone & Hout).
    exists s2. cbn [for_]. unfold bind at 1. rewrite Hone.
    split; [done|]. split; [done|].
    unfold keeps in Hc1, Ho1.
    split; [congruence|]. split; [congruence|]. split.
    + intros d' q Hin Hq. apply elem_of_cons in Hin as [-> | Hin].
      * rewrite (Hout d Hd), Hq1, lookup_alter_eq, Hqd, Hq. done.
      * by apply Hdone.
    + intros d' Hd'. rewrite not_elem_of_cons in Hd'.
      destruct Hd' as [Hne Hd'].
      rewrite (Hout d' Hd'), Hq1, lookup_alter_ne; done.
Qed.

End Sweep.

Section Periodic.
Context `{Collaborators}.

(** C9: in a sweep of one domain, a computation of a priority that
    raises does not abort the sweep: the sweep returns, the entry whose
    computation raised keeps its previous priority (the entry stays as
    it is), and every other entry gets its newly computed priority; the
    queue holds these entries, re-sorted.  ([update_all_priorities] is
    modelled from the spec; [_get_priority] and [get_request_priority]
    have no handling of their own.) *)
Theorem sweep_falls_back_on_failure domain s q :
  heap_wf s →
  scheduler_queue s !! domain = Some q →
  ∃ s' rs,
    update_domain_request_priorities domain s = Ok tt s' ∧
    scheduler_queue s' !! domain = Some (queue_resort rs) ∧
    queue_resort rs ≡ₚ rs ∧
    Forall2 (λ r r',
               (∀ e s1, _get_priority domain r s = Err e s1 → r' = r) ∧
               (∀ p s1, _get_priority domain r s = Ok p s1 →
                        r' = set_priority r p)) q rs.
Proof.
  intros Hwf Hq.
  destruct (update_domain_request_priorities_spec domain s s Hwf
              (reflexivity s)) as (s' & Hrun & Hq').
  unfold get_domain_queue in Hq'. rewrite Hq in Hq'. cbn [default] in Hq'.
  exists s', (rescore_all domain s q). split; [done|].
  split; [by rewrite Hq', lookup_alter_eq, Hq|].
  split; [apply queue_resort_Permutation|].
  unfold rescore_all. apply Forall2_fmap_r, Forall_Forall2_diag.
  apply Forall_forall. intros r _.
  pose proof (_get_priority_value domain r s) as Hval.
  unfold compose, rescore. split.
  - intros e s1 Hfail. rewrite Hfail in Hval. by rewrite Hval.
  - intros p s1 Hok. rewrite Hok in Hval. by rewrite Hval.
Qed.

(** C5: the periodic call [update_request_priorities()] compares the
    number of responses since the last sweep with the larger of 500 and
    the number of domains the tracker has seen.  Up to that threshold it
    logs a line and changes nothing else: no priority, and not the
    marker of the last sweep.  Above it, it sweeps: when it returns,
    every entry of every domain queue has its recomputed priority (an
    entry whose computation raises keeps its own, the fallback of
    [update_all_priorities]) and the marker is the current response
    count; were it to raise, it would be with the error of a priority,
    and the marker would stay. *)
Theorem periodic_update_threshold s :
  heap_wf s →
  let threshold := Z.max 500 (MaxScores_len (domain_scores s)) in
  let interval := response_count s - _scores_recalculated_at s in
  (interval ≤ threshold →
     update_request_priorities None s =
       Ok tt (set_out (out s ++ [InfoFewerUpdates threshold interval]) s)) ∧
  (threshold < interval →
     match update_request_priorities None s with
     | Ok _ s' =>
         _scores_recalculated_at s' = response_count s ∧
         response_count s' = response_count s ∧
         ∀ d q, scheduler_queue s !! d = Some q →
           ∃ rs, Forall2 (rescored d s) q rs ∧
                 scheduler_queue s' !! d = Some (queue_resort rs)
     | Err e s' =>
         _scores_recalculated_at s' = _scores_recalculated_at s ∧
         ∃ d q r, scheduler_queue s !! d = Some q ∧ r ∈ q ∧
                  priority_value d r s = inl e
     end).
Proof.
  intros Hwf threshold interval.
  assert (Hpos : (threshold =? 0) = false) by (apply Z.eqb_neq; lia).
  split; intros Hcmp; unfold update_request_priorities;
    unfold bind at 1, gets at 1; unfold bind at 1, gets at 1;
    fold threshold interval; rewrite Hpos; simpl negb;
    rewrite andb_true_l.
  - apply Z.leb_le in Hcmp. by rewrite Hcmp.
  - apply Z.leb_gt in Hcmp. rewrite Hcmp.
    unfold bind at 1, print at 1, modify at 1.
    set (s1 := set_out _ s).
    unfold bind at 1, gets at 1. unfold bind at 1.
    assert (Hk1 : knows s s1) by (by split).
    destruct (sweep_spec s (get_domains (scheduler_queue s1)) Hwf
                (NoDup_fst_map_to_list _) s1 Hk1 (λ _ _, eq_refl))
      as (s2 & -> & _ & Hc & _ & Hdone & _).
    simpl. unfold counters in Hc. simpl in Hc. injection Hc as Hrc Hmark.
    split; [done|]. split; [done|]. intros d q Hq.
    exists (rescore_all d s q). split; [apply rescore_all_rescored|].
    apply Hdone; [|done].
    unfold get_domains. apply list_elem_of_fmap.
    exists (d, q). split; [done|]. by apply elem_of_map_to_list.
Qed.

End Periodic.

(** ** The crawl of two pages, run *)

Lemma heap_wf_checked `{Collaborators} s : heap_wf_check s = true → heap_wf s.
Proof.
  unfold heap_wf_check, heap_wf. rewrite forallb_forall. intros Hall d l Hl.
  apply elem_of_map_to_list, list_elem_of_In, Hall in Hl.
  by apply Nat.ltb_lt in Hl.
Qed.

Lemma returned_ok `{Collaborators} {A} (d : A) (o : outcome A) :
  raised o = None → o = Ok (returned d o) (final o).
Proof. by destruct o. Qed.

Lemma seed_parsed_ok :
  seed_parsed = Ok (returned [] seed_parsed) (final seed_parsed).
Proof. apply returned_ok. vm_compute. reflexivity. Qed.

Lemma first_link_parsed_ok :
  first_link_parsed
    = Ok (returned [] first_link_parsed) (final first_link_parsed).
Proof. apply returned_ok. vm_compute. reflexivity. Qed.

Lemma formless_parsed_ok :
  formless_parsed = Ok [out_request] (final formless_parsed).
Proof.
  assert (Hreq : returned [] formless_parsed = [out_request])
    by (vm_compute; reflexivity).
  rewrite <- Hreq. apply returned_ok. vm_compute. reflexivity.
Qed.

Lemma seed_parsed_reachable :
  reachable ([] ++ returned [] seed_parsed) (final seed_parsed).
Proof.
  apply (reach_parse [] crawl_start seed_response
           (returned [] seed_parsed) (final seed_parsed)).
  - apply reach_init.
  - by left.
  - apply seed_parsed_ok.
Qed.

Lemma first_link_parsed_reachable :
  reachable (([] ++ returned [] seed_parsed) ++ returned [] first_link_parsed)
            (final first_link_parsed).
Proof.
  apply (reach_parse ([] ++ returned [] seed_parsed) first_link_fetching
           first_link_response (returned [] first_link_parsed)
           (final first_link_parsed)).
  - exact (reach_engine _ (final seed_parsed) _ seed_parsed_reachable).
  - right. exists (mkRequest "https://a.test/1" 0 (Some 1%nat) (Some "a.test")).
    split; [|reflexivity].
    assert (Hreqs : returned [] seed_parsed =
              [mkRequest "https://a.test/1" 0 (Some 1%nat) (Some "a.test");
               mkRequest "https://a.test/2" 0 (Some 2%nat) (Some "a.test")])
      by (vm_compute; reflexivity).
    rewrite Hreqs. simpl. left.
  - apply first_link_parsed_ok.
Qed.

Lemma formless_parsed_reachable :
  reachable ([] ++ [out_request]) (final formless_parsed).
Proof.
  apply (reach_parse [] crawl_start formless_response
           [out_request] (final formless_parsed)).
  - apply reach_init.
  - by left.
  - apply formless_parsed_ok.
Qed.

(** Two responses are below the threshold of 500: the periodic update
    logs and leaves the marker; after 501 it sweeps and moves it. *)
Lemma sweep_not_due :
  raised (update_request_priorities None (final first_link_parsed)) = None ∧
  _scores_recalculated_at
    (final (update_request_priorities None (final first_link_parsed))) = 0 ∧
  last (out (final (update_request_priorities None (final first_link_parsed))))
    = Some (InfoFewerUpdates 500 2).
Proof. vm_compute. repeat split. Qed.

Lemma sweep_due_sweeps :
  raised (update_request_priorities None sweep_due) = None ∧
  _scores_recalculated_at
    (final (update_request_priorities None sweep_due)) = 501 ∧
  last (out (final (update_request_priorities None sweep_due)))
    = Some InfoUpdatingDone.
Proof. vm_compute. repeat split. Qed.

(** The reward of the second page is 0.9 - 0.8. *)
Lemma first_link_reward :
  ∃ r, out (final first_link_parsed) !! 1%nat
         = Some (PrintReward r "https://a.test/1") ∧
       r = Q2Qc (1 # 10).
Proof.
  eexists. split; [vm_compute; reflexivity|]. by apply Qc_is_canon.
Qed.

(** ** The claims at the crawl *)

Lemma reward_is_positive_part_witness :
  let s : QSpider := final first_link_arrived in
  let a := {| node_url := Some "https://a.test/1";
              node_visited := Some true;
              node_ok := Some (Some true);
              node_response_id := Some (Some 2);
              node_scores := None |} in
  let observed_scores := observed_scores_of (Some true) first_link_response in
  let s_t := domain_state (resp_domain first_link_response) s in
  let r_t1 :=
    Py.sum ((λ k, Py.max (score observed_scores k - score s_t k)%Qc 0%Qc)
              <$> score_types observed_scores s_t) in
  heap_wf s ∧
  node (G s) !! 1%nat = Some a ∧
  node_ok a = Some (Some true) ∧
  (0 ≤ r_t1)%Qc ∧
  ∃ rest,
    out (final (learn_from_response 1 first_link_response s)) =
      out s ++ PrintReward r_t1 (resp_url first_link_response) :: rest ∧
    ∀ p o i f, PrintReturn p o i f ∈ rest → i = r_t1.
Proof.
  intros s a observed_scores s_t r_t1.
  assert (Hwf : heap_wf s) by (apply heap_wf_checked; vm_compute; reflexivity).
  assert (Hnode : node (G s) !! 1%nat = Some a) by (vm_compute; reflexivity).
  assert (Hok : node_ok a = Some (Some true)) by reflexivity.
  split; [exact Hwf|]. split; [exact Hnode|]. split; [exact Hok|].
  exact (reward_is_positive_part 1 first_link_response s a (Some true)
           Hwf Hnode Hok).
Defined.

Lemma update_target_witness :
  let s_t : dict := {["forms" := Q2Qc (9 # 10)]} in
  let a_t : Link := {["url" := "https://a.test/2"; "pos" := "2"]} in
  let a_t1 : option Link := Some {["url" := "https://a.test/3"]} in
  let r_t1 := Q2Qc (1 # 20) in
  trained_by 1 once_trained ∧
  ∃ target predicted future,
    TDRegressor_update once_trained s_t (Some a_t) r_t1 s_t a_t1 =
      inr ({| gamma := gamma once_trained;
              Q := SGD_partial_fit (Q once_trained)
                     (hstack (state_vectorizer_transform s_t)
                             (action_vectorizer_transform a_t)) target |},
           PrintReturn predicted target r_t1 future) ∧
    (a_t1 = None ∨ 1%nat = 0%nat → target = r_t1) ∧
    (is_Some a_t1 → 1%nat ≠ 0%nat →
     ∃ p, TDRegressor_predict once_trained s_t a_t1 = inr p ∧
          target = (r_t1 + gamma once_trained * p)%Qc).
Proof.
  intros s_t a_t a_t1 r_t1.
  assert (Htrained : trained_by 1 once_trained).
  { apply (trained_update 0 (TDRegressor_init (Q2Qc (1 # 2)))
             {["forms" := Q2Qc (8 # 10)]}
             (Some {["url" := "https://a.test/1"; "pos" := "1"]})
             (Q2Qc (1 # 10)) {["forms" := Q2Qc (9 # 10)]} None once_trained
             (PrintReturn 0%Qc (Q2Qc (1 # 10) + 0)%Qc (Q2Qc (1 # 10)) 0%Qc));
      [apply trained_init|vm_compute; reflexivity]. }
  split; [exact Htrained|].
  exact (update_target 1 once_trained s_t a_t r_t1 s_t a_t1 Htrained).
Defined.


Lemma periodic_update_threshold_witness :
  let s : QSpider := sweep_due in
  let threshold : Z := Z.max 500 (MaxScores_len (domain_scores s)) in
  let interval : Z := response_count s - _scores_recalculated_at s in
  heap_wf s ∧
  (interval ≤ threshold →
     update_request_priorities None s =
       Ok tt (set_out (out s ++ [InfoFewerUpdates threshold interval]) s)) ∧
  (threshold < interval →
     match update_request_priorities None s with
     | Ok _ s' =>
         _scores_recalculated_at s' = response_count s ∧
         response_count s' = response_count s ∧
         ∀ d q, scheduler_queue s !! d = Some q →
           ∃ rs, Forall2 (rescored d s) q rs ∧
                 scheduler_queue s' !! d = Some (queue_resort rs)
     | Err e s' =>
         _scores_recalculated_at s' = _scores_recalculated_at s ∧
         ∃ d q r, scheduler_queue s !! d = Some q ∧ r ∈ q ∧
                  priority_value d r s = inl e
     end).
Proof.
  intros s threshold interval.
  assert (Hwf : heap_wf s) by (apply heap_wf_checked; vm_compute; reflexivity).
  split; [exact Hwf|].
  exact (periodic_update_threshold s Hwf).
Defined.

Lemma drop_records_zero_scores_witness :
  let s : QSpider := final formless_parsed in
  heap_wf s ∧
  req_node_id out_request = Some 1%nat ∧
  ∃ s' a l,
    on_offdomain_request_dropped out_request s = Ok tt s' ∧
    node (G s') !! 1%nat = Some a ∧
    node_visited a = Some true ∧
    node_ok a = Some (Some false) ∧
    node_scores a = Some l ∧
    contents l s' = constant_scores available_form_types 0%Qc ∧
    domain_scores s' = domain_scores s ∧
    ∀ domain, domain_state domain s' = domain_state domain s.
Proof.
  intros s.
  assert (Hwf : heap_wf s) by (apply heap_wf_checked; vm_compute; reflexivity).
  split; [exact Hwf|]. split; [reflexivity|].
  exact (drop_records_zero_scores out_request 0 s Hwf eq_refl).
Defined.

(** C6 fails as stated: the page without forms left the tracker without
    a state for a.test; the drop of the request it led to leaves it so,
    where an update of zero would have made one. *)
Lemma drop_is_no_tracker_update :
  reachable ([] ++ [out_request]) (final formless_parsed) ∧
  ¬ drop_updates_tracker out_request "a.test" (final formless_parsed).
Proof.
  split; [apply formless_parsed_reachable|].
  intros (s' & s'' & Hdrop & Hupd & Hlen & _).
  assert (Hleft : MaxScores_len (domain_scores (final
            (on_offdomain_request_dropped out_request
               (final formless_parsed)))) = 0) by (vm_compute; reflexivity).
  assert (Hright : MaxScores_len (domain_scores (final
            (bind (get_constant_scores 0%Qc) (MaxScores_update "a.test")
               (final formless_parsed)))) = 1) by (vm_compute; reflexivity).
  rewrite Hdrop in Hleft. rewrite Hupd in Hright. simpl in Hleft, Hright.
  congruence.
Qed.

(** C7 fails as stated.  The parse of a seed page whose second link has
    no url raises [KeyError] while it discovers links, after the node of
    the page was marked visited and before its scores are stored; the
    next transition, the parse of another seed page, completes, and node
    0 is still visited and without scores.  And when the links of a page
    have been discovered, a transition that the claim names, the node of
    the page is visited and has no scores yet: they are stored when
    [parse] goes on after its last [yield]. *)
Lemma scores_missing_on_visited_node :
  (raised broken_parsed = Some KeyError ∧
   raised seed_parsed_after_broken = None ∧
   ¬ scores_iff_visited_at (final seed_parsed_after_broken)) ∧
  (raised seed_links_discovered = None ∧
   ¬ scores_iff_visited_at (final seed_links_discovered)).
Proof.
  assert (Hno : ∀ s : QSpider,
            (∃ a, node (G s) !! 0%nat = Some a ∧
                  node_visited a = Some true ∧ node_scores a = None) →
            ¬ scores_iff_visited_at s).
  { intros s (a & Hnode & Hvisited & Hscores) Hinv.
    destruct (Hinv _ _ Hnode) as [_ Hhas].
    destruct (Hhas Hvisited) as [l Hl]. congruence. }
  split; (split; [vm_compute; reflexivity|]);
    [split; [vm_compute; reflexivity|]|].
  - apply Hno. eexists. split; [vm_compute; reflexivity|]. by split.
  - apply Hno. eexists. split; [vm_compute; reflexivity|]. by split.
Qed.

Lemma scores_iff_visited_witness :
  let a := {| node_url := Some "https://a.test/1";
              node_visited := Some true;
              node_ok := Some (Some true);
              node_response_id := Some (Some 2);
              node_scores := Some 7%nat |} in
  reachable (([] ++ returned [] seed_parsed) ++ returned [] first_link_parsed)
            (final first_link_parsed) ∧
  node (G (final first_link_parsed)) !! 1%nat = Some a ∧
  (is_Some (node_scores a) ↔ node_visited a = Some true).
Proof.
  intros a.
  assert (Hnode : node (G (final first_link_parsed)) !! 1%nat = Some a)
    by (vm_compute; reflexivity).
  split; [exact first_link_parsed_reachable|]. split; [exact Hnode|].
  exact (scores_iff_visited _ _ 1%nat a first_link_parsed_reachable Hnode).
Defined.

Lemma domain_state_is_snapshot_witness :
  let s : QSpider := final seed_parsed in
  heap_wf s ∧
  ∃ l s1,
    get_domain_state "a.test" s = Ok l s1 ∧
    contents l s1 = domain_state "a.test" s ∧
    (∀ d t, scores (domain_scores s1) !! d = Some t → t ≠ l) ∧
    ∀ s2, tracker_later s1 s2 → contents l s2 = domain_state "a.test" s.
Proof.
  intros s.
  assert (Hwf : heap_wf s) by (apply heap_wf_checked; vm_compute; reflexivity).
  split; [exact Hwf|].
  exact (domain_state_is_snapshot "a.test" s Hwf).
Defined.

Lemma sweep_falls_back_on_failure_witness :
  let s : QSpider := frontier_with_stale_request in
  let q : list Request := get_domain_queue "a.test" (scheduler_queue s) in
  heap_wf s ∧
  scheduler_queue s !! "a.test" = Some q ∧
  ∃ s' rs,
    update_domain_request_priorities "a.test" s = Ok tt s' ∧
    scheduler_queue s' !! "a.test" = Some (queue_resort rs) ∧
    queue_resort rs ≡ₚ rs ∧
    Forall2 (λ r r',
               (∀ e s1, _get_priority "a.test" r s = Err e s1 → r' = r) ∧
               (∀ p s1, _get_priority "a.test" r s = Ok p s1 →
                        r' = set_priority r p)) q rs.
Proof.
  intros s q.
  assert (Hwf : heap_wf s) by (apply heap_wf_checked; vm_compute; reflexivity).
  assert (Hq : scheduler_queue s !! "a.test" = Some q)
    by (vm_compute; reflexivity).
  split; [exact Hwf|]. split; [exact Hq|].
  exact (sweep_falls_back_on_failure "a.test" s q Hwf Hq).
Defined.

(** The frontier holds a request whose node the crawl graph does not
    have; the computation of its priority raises, and the sweep of the
    domain returns, with the priority of that request as it was. *)
Lemma stale_request_is_queued :
  head (get_domain_queue "a.test"
          (scheduler_queue frontier_with_stale_request))
    = Some stale_request.
Proof. vm_compute. reflexivity. Qed.

Lemma stale_request_priority_raises :
  raised (_get_priority "a.test" stale_request frontier_with_stale_request)
    = Some NetworkXError.
Proof. vm_compute. reflexivity. Qed.

Lemma stale_request_keeps_priority :
  raised (update_domain_request_priorities "a.test"
            frontier_with_stale_request) = None ∧
  get_domain_queue "a.test"
    (scheduler_queue
       (final (update_domain_request_priorities "a.test"
                 frontier_with_stale_request)))
    = [stale_request; first_link_request; second_link_request].
Proof. split; vm_compute; reflexivity. Qed.

Lemma node_id_zero_is_missing_witness :
  on_offdomain_request_dropped zero_request crawl_start =
    Ok tt (set_out (out crawl_start
                      ++ [WarnDroppedWithoutNodeId (req_url zero_request)])
                   crawl_start) ∧
  _get_priority "a.test" zero_request crawl_start =
    Ok (req_priority zero_request) crawl_start ∧
  (∀ r, r ∈ ([] ++ returned [] seed_parsed) ++ returned [] first_link_parsed →
        ∃ n, req_node_id r = Some (S n)) ∧
  pred (G (final first_link_parsed)) !! 0%nat = None.
Proof.
  destruct node_id_zero_is_missing as (Hdrop & Hsweep & Hids).
  split; [exact (Hdrop zero_request crawl_start (or_intror eq_refl))|].
  split; [exact (Hsweep "a.test" zero_request crawl_start (or_intror eq_refl))|].
  exact (Hids _ _ first_link_parsed_reachable).
Defined.

(** * More properties of the code *)

(** ** Running a method step by step *)

Section Steps.
Context `{Collaborators}.

Lemma bind_ok_inv {A B} (m : M A) (k : A → M B) s b s' :
  bind m k s = Ok b s' → ∃ a s1, m s = Ok a s1 ∧ k a s1 = Ok b s'.
Proof. unfold bind. destruct (m s) as [a s1|]; [eauto|done]. Qed.

Lemma bind_returns {A B} (m : M A) (k : A → M B) s a s1 :
  m s = Ok a s1 → bind m k s = k a s1.
Proof. unfold bind. by intros ->. Qed.

Lemma catch_ok_inv {A} (m : M A) (h : exn → M A) s a s' :
  catch m h s = Ok a s' →
  m s = Ok a s' ∨ ∃ e s1, m s = Err e s1 ∧ h e s1 = Ok a s'.
Proof. unfold catch. destruct (m s) as [a1 s1|e s1]; eauto. Qed.

Lemma final_bind {A B} (m : M A) (k : A → M B) s :
  final (bind m k s) =
    match m s with
    | Ok a s1 => final (k a s1)
    | Err _ s1 => s1
    end.
Proof. unfold bind. by destruct (m s). Qed.

Lemma respects_ok {A} R (m : M A) s a s' :
  respects R m → m s = Ok a s' → R s s'.
Proof. intros Hm Hrun. specialize (Hm s). by rewrite Hrun in Hm. Qed.

Lemma mapM_ok_inv {A B} (f : A → M B) (P : list B → QSpider → Prop) l :
  (∀ acc x s y s', P acc s → f x s = Ok y s' → P (acc ++ [y]) s') →
  ∀ acc s ys s', P acc s → mapM f l s = Ok ys s' → P (acc ++ ys) s'.
Proof.
  intros Hstep. induction l as [|x l IH]; intros acc s ys s' HP; simpl.
  - intros [= <- <-]. by rewrite app_nil_r.
  - intros Hrun.
    apply bind_ok_inv in Hrun as (y & s1 & Hone & Hrun).
    apply bind_ok_inv in Hrun as (rest & s2 & Hrest & Hrun).
    injection Hrun as <- <-.
    specialize (IH (acc ++ [y]) s1 rest s2 (Hstep _ _ _ _ _ HP Hone) Hrest).
    by rewrite <- app_assoc in IH.
Qed.

Lemma parse_ok_inv response s requests s' :
  parse response s = Ok requests s' →
  ∃ node_id s1 a ok s2,
    update_response_node response
      (set_response_count (response_count s + 1) s) = Ok node_id s1 ∧
    node (G s1) !! node_id = Some a ∧
    node_ok a = Some ok ∧
    (if ok_true ok then generate_out_nodes response node_id else ret [])
      s1 = Ok requests s2 ∧
    learn_from_response node_id response s2 = Ok tt s'.
Proof.
  unfold parse. intros Hrun.
  apply bind_ok_inv in Hrun as ([] & s0 & Hcount & Hrun).
  injection Hcount as <-.
  apply bind_ok_inv in Hrun as (node_id & s1 & Hnode & Hrun).
  apply bind_ok_inv in Hrun as (a & s1' & Ha & Hrun).
  unfold G_node, bind, gets in Ha.
  destruct (node (G s1) !! node_id) as [a'|] eqn:Hlook; [|done].
  injection Ha as <- <-.
  apply bind_ok_inv in Hrun as (ok & s1' & Hok & Hrun).
  destruct (node_ok a') as [ok'|] eqn:Hok'; [|done].
  injection Hok as <- <-.
  apply bind_ok_inv in Hrun as (reqs & s2 & Hgen & Hrun).
  apply bind_ok_inv in Hrun as ([] & s3 & Hlearn & Hrun).
  injection Hrun as <- <-.
  exists node_id, s1, a', ok', s2. done.
Qed.

End Steps.

(** The head of an application. *)
Ltac head_of t :=
  lazymatch t with
  | ?f _ => head_of f
  | _ => t
  end.

(** A frame proof with lemmas for some of the methods: a method is
    taken by [lem] when it can be, split when it is a composition, and
    unfolded otherwise. *)
Ltac frame_step lem :=
  first
    [ lem
    | respects_step
    | lazymatch goal with
      | |- respects _ ?m => let h := head_of m in progress unfold h
      end ].

Ltac frame_with lem := repeat frame_step lem.
Ltac frame := frame_with fail.

(** ** The graph only grows *)

Section Grows.
Context `{Collaborators}.

Global Instance grows_preorder : PreOrder grows.
Proof.
  split.
  - intros s. split; [done|]. split; [done|]. intros n a _ Ha. eauto.
  - intros s1 s2 s3 (N12 & P12 & A12) (N23 & P23 & A23).
    split; [lia|]. split.
    + intros n Hn. rewrite P23 by lia. by apply P12.
    + intros n a Hn Ha.
      destruct (A12 n a Hn Ha) as (a2 & Ha2 & V2 & S2).
      destruct (A23 n a2) as (a3 & Ha3 & V3 & S3); [lia|done|].
      exists a3. split; [done|]. split; eauto.
Qed.

Lemma grows_crawl_graph s s1 s' :
  crawl_graph s' = crawl_graph s1 → grows s s1 → grows s s'.
Proof. unfold crawl_graph, grows. intros [= -> ->]. done. Qed.

Lemma grows_same s s' : crawl_graph s' = crawl_graph s → grows s s'.
Proof. intros Hsame. apply (grows_crawl_graph s s); [done|reflexivity]. Qed.

Lemma grows_add_node n attrs s :
  node_visited attrs ≠ Some false →
  grows s (set_G (add_node n attrs (G s)) s).
Proof.
  intros Hvisited. split; [done|]. split; [done|].
  intros m a _ Ha. unfold set_G; cbn [G]. rewrite add_node_lookup.
  case_decide as Hm; [|eauto]. subst m. rewrite Ha. simpl.
  eexists. split; [done|]. simpl. split.
  - intros ->. destruct (node_visited attrs) as [[]|]; done.
  - intros Hsome. by destruct (node_scores attrs).
Qed.

Lemma grows_next_node_id : respects grows next_node_id.
Proof.
  intros s. simpl. split; [simpl; lia|]. split; [done|].
  intros n a _ Ha. eauto.
Qed.

(** A link leads to a node that the counter has just produced: what was
    in the graph is not touched. *)
Lemma grows_generate_out_node domain this_node_id link :
  respects grows (generate_out_node domain this_node_id link).
Proof.
  intros s. unfold generate_out_node.
  destruct (link !! "url") as [url|]; [|reflexivity].
  cbn [bind getitem ret next_node_id gets modify].
  match goal with
  | |- grows _ (final (bind ?m ?k ?s3)) =>
      assert (Hrest : respects (keeps crawl_graph) (bind m k));
        [|specialize (Hrest s3)]
  end.
  { apply respects_bind; [apply _|apply keeps_crawl_graph_priority|intros p].
    frame; done. }
  apply (grows_crawl_graph _ _ _ Hrest).
  split; [simpl; lia|]. split.
  - intros n Hn. simpl. rewrite lookup_insert_ne; [done|lia].
  - intros n a Hn Ha. exists a. split; [|done].
    unfold set_G, set_node_ids; cbn [G].
    apply add_edge_lookup_present.
    rewrite add_node_lookup, decide_False by lia. done.
Qed.

Lemma grows_update_response_node response :
  respects grows (update_response_node response).
Proof.
  frame_with ltac:(apply grows_next_node_id).
  all: try (apply grows_add_node; done); try reflexivity.
Qed.

Lemma grows_learn_from_response node_id response :
  respects grows (learn_from_response node_id response).
Proof.
  frame.
  all: try (apply grows_add_node; done); try (by apply grows_same).
Qed.

Lemma grows_parse response : respects grows (parse response).
Proof.
  unfold parse, generate_out_nodes.
  frame_with ltac:(first [apply grows_update_response_node
                         |apply grows_learn_from_response
                         |apply grows_generate_out_node]).
  all: by apply grows_same.
Qed.

Lemma grows_on_offdomain_request_dropped request :
  respects grows (on_offdomain_request_dropped request).
Proof.
  frame.
  all: try (apply grows_add_node; done); try (by apply grows_same).
Qed.

Lemma grows_update_request_priorities min_response_count :
  respects grows (update_request_priorities min_response_count).
Proof.
  apply (respects_mono (keeps crawl_graph)); [intros s s'; apply grows_same|].
  apply keeps_crawl_graph_update.
Qed.

End Grows.

(** ** The frontier *)

Section Frontier.
Context `{Collaborators}.

(** What [generate_out_node] yields and what it does to the graph. *)
Lemma generate_out_node_yields domain this_node_id link s request s' :
  generate_out_node domain this_node_id link s = Ok request s' →
  link !! "url" = Some (req_url request) ∧
  req_domain request = Some domain ∧
  req_node_id request = Some (node_ids s) ∧
  node_ids s' = S (node_ids s) ∧
  G s' = add_edge this_node_id (node_ids s) link
           (add_node (node_ids s)
              {| node_url := Some (req_url request);
                 node_visited := Some false;
                 node_ok := Some None; node_response_id := Some None;
                 node_scores := None |} (G s)).
Proof.
  unfold generate_out_node. intros Hrun.
  apply bind_ok_inv in Hrun as (url & s0 & Hurl & Hrun).
  destruct (link !! "url") as [url'|]; [|done]. injection Hurl as <- <-.
  apply bind_ok_inv in Hrun as (n & s1 & Hn & Hrun).
  injection Hn as <- <-.
  apply bind_ok_inv in Hrun as ([] & s2 & Hnode & Hrun).
  injection Hnode as <-.
  apply bind_ok_inv in Hrun as ([] & s3 & Hedge & Hrun).
  injection Hedge as <-.
  apply bind_ok_inv in Hrun as (p & s4 & Hp & Hrun).
  apply bind_ok_inv in Hrun as ([] & s5 & Hq & Hrun).
  injection Hq as <-. injection Hrun as <- <-. simpl.
  pose proof (respects_ok _ _ _ _ _
                (keeps_crawl_graph_priority domain (node_ids s)) Hp) as Hk.
  unfold keeps, crawl_graph in Hk. simpl in Hk. injection Hk as HG Hids.
  split; [done|]. split; [done|]. split; [done|].
  by rewrite HG, Hids.
Qed.

Lemma frontier_inv_add_node yielded n attrs s s' :
  frontier_inv yielded s →
  G s' = add_node n attrs (G s) →
  (node_ids s ≤ node_ids s')%nat →
  frontier_inv yielded s'.
Proof.
  intros (Hedges & Hnodup & Hyielded) HG Hids. split; [|split; [done|]].
  - intros m es. rewrite HG. simpl. intros Hm.
    destruct (Hedges m es Hm) as [Hlt Hone]. split; [lia|done].
  - intros r Hr.
    destruct (Hyielded r Hr) as (m & u & link & Hid & Hnode & Hpred & Hrest).
    exists m, u, link. split; [done|]. split; [|by rewrite HG].
    rewrite HG, add_node_lookup. case_decide; [eauto|done].
Qed.

Lemma frontier_inv_same yielded s s' :
  crawl_graph s' = crawl_graph s →
  frontier_inv yielded s → frontier_inv yielded s'.
Proof. unfold crawl_graph, frontier_inv. intros [= -> ->]. done. Qed.

Lemma generate_out_node_frontier node_id yielded domain link s request s' :
  parsing_inv node_id yielded s →
  frontier_inv yielded s →
  generate_out_node domain node_id link s = Ok request s' →
  frontier_inv (yielded ++ [request]) s'.
Proof.
  intros (Hnodes & (a & Ha & _) & Hids & _ & Hpos)
         (Hedges & Hnodup & Hyielded) Hrun.
  destruct (generate_out_node_yields _ _ _ _ _ _ Hrun)
    as (Hurl & Hdomain & Hid & Hcount & HG).
  assert (Hfresh : node (G s) !! node_ids s = None).
  { destruct (node (G s) !! node_ids s) as [b|] eqn:Hb; [|done].
    apply Hnodes in Hb. lia. }
  assert (Hnopred : pred (G s) !! node_ids s = None).
  { destruct (pred (G s) !! node_ids s) as [es|] eqn:Hes; [|done].
    apply Hedges in Hes. lia. }
  assert (Hkeep : ∀ m, is_Some (node (G s) !! m) → is_Some (node (G s') !! m)).
  { intros m [b Hb]. exists b. rewrite HG. apply add_edge_lookup_present.
    rewrite add_node_lookup, decide_False; [done|]. intros <-. congruence. }
  split; [|split].
  - intros m es. rewrite HG, Hcount. simpl. rewrite lookup_insert.
    case_decide as Hm.
    + subst m. rewrite Hnopred. simpl. intros [= <-]. split; [lia|eauto].
    + intros Hes. destruct (Hedges m es Hes) as [Hlt Hone]. split; [lia|done].
  - rewrite fmap_app. simpl. apply NoDup_app. split; [done|]. split.
    + intros id Hin Hnew. apply list_elem_of_singleton in Hnew. subst id.
      apply list_elem_of_fmap in Hin as (r & Hr & Hin).
      destruct (Hids r Hin) as (m & Hm & Hlt). rewrite Hid in Hr.
      rewrite Hm in Hr. injection Hr as Hr. lia.
    + apply NoDup_singleton.
  - intros r. rewrite elem_of_app, list_elem_of_singleton.
    intros [Hr | ->].
    + destruct (Hyielded r Hr) as (m & u & l & Hm & Hnode & Hpred & Hrest).
      exists m, u, l. split; [done|]. split; [by apply Hkeep|].
      split; [|done]. rewrite HG. simpl. rewrite lookup_insert_ne; [done|].
      intros <-. congruence.
    + exists (node_ids s), node_id, link. split; [done|]. split.
      * rewrite HG. eexists. apply add_edge_lookup_present.
        rewrite add_node_lookup, decide_True by done. done.
      * split; [|by rewrite Hdomain; eauto].
        rewrite HG. simpl. rewrite lookup_insert_eq, Hnopred. done.
Qed.

Lemma generate_out_nodes_frontier node_id yielded response s requests s' :
  parsing_inv node_id yielded s →
  frontier_inv yielded s →
  generate_out_nodes response node_id s = Ok requests s' →
  frontier_inv (yielded ++ requests) s' ∧
  parsing_inv node_id (yielded ++ requests) s'.
Proof.
  intros Hparsing Hfrontier Hrun. unfold generate_out_nodes in Hrun.
  apply (mapM_ok_inv _
           (λ acc s, frontier_inv (yielded ++ acc) s ∧
                     parsing_inv node_id (yielded ++ acc) s)
           _) with (acc := []) in Hrun; [done| |by rewrite app_nil_r].
  intros acc link s1 r s2 [Hf Hp] Hone. rewrite !app_assoc. split.
  - by apply (generate_out_node_frontier node_id _ (resp_domain response)
                link s1).
  - by apply (generate_out_node_inv node_id _ (resp_domain response)
                link s1).
Qed.

Lemma parse_frontier yielded response s requests s' :
  crawl_inv yielded s →
  frontier_inv yielded s →
  response_from yielded response →
  parse response s = Ok requests s' →
  frontier_inv (yielded ++ requests) s'.
Proof.
  intros Hinv Hfrontier Hfrom Hrun.
  apply parse_ok_inv in Hrun
    as (node_id & s1 & a & ok & s2 & Hnode & Ha & Hok & Hgen & Hlearn).
  set (s0 := set_response_count (response_count s + 1) s) in *.
  assert (Hparsing1 : parsing_inv node_id yielded s1)
    by (by apply (update_response_node_inv _ response s0)).
  assert (Hfrontier1 : frontier_inv yielded s1).
  { rewrite update_response_node_run in Hnode. injection Hnode as <- <-.
    eapply (frontier_inv_add_node _ _ _ s0); [done|reflexivity|].
    simpl. destruct (resp_node_id response); simpl; lia. }
  assert (Hfrontier2 : frontier_inv (yielded ++ requests) s2).
  { destruct (ok_true ok).
    - by apply (generate_out_nodes_frontier node_id _ response s1).
    - injection Hgen as <- <-. by rewrite app_nil_r. }
  destruct (learn_from_response_graph _ _ _ _ Hlearn) as (l & HG & Hids).
  apply (frontier_inv_add_node _ _ _ s2 s' Hfrontier2 HG). lia.
Qed.

Lemma reachable_frontier yielded s :
  reachable yielded s → frontier_inv yielded s.
Proof.
  induction 1 as [gamma
                 |yielded s response requests s' Hreach IH Hfrom Hrun
                 |yielded s request s' Hreach IH Hfrom Hrun
                 |yielded s mrc s' Hreach IH Hrun
                 |yielded s queues Hreach IH].
  - split; [|split]; simpl.
    + intros n es. by rewrite lookup_empty.
    + apply NoDup_nil_2.
    + intros r Hr. by apply elem_of_nil in Hr.
  - apply (parse_frontier _ response s); try done. by apply reachable_inv.
  - destruct (req_node_id request) as [[|n]|] eqn:Hid.
    + rewrite on_offdomain_request_dropped_skip in Hrun by eauto.
      injection Hrun as <-. done.
    + rewrite (on_offdomain_request_dropped_run _ n) in Hrun by done.
      injection Hrun as <-.
      eapply (frontier_inv_add_node _ _ _ s); [done|reflexivity|done].
    + rewrite on_offdomain_request_dropped_skip in Hrun by eauto.
      injection Hrun as <-. done.
  - apply (frontier_inv_same _ s); [|done].
    rewrite <- (run_ok _ _ _ _ Hrun). apply keeps_crawl_graph_update.
  - done.
Qed.

End Frontier.

(** ** The dict objects of the tracker stay allocated *)

Section HeapGrows.
Context `{Collaborators}.

Global Instance heap_grows_preorder : PreOrder heap_grows.
Proof.
  split.
  - intros s. by split.
  - intros s1 s2 s3 [N12 W12] [N23 W23]. split; [lia|eauto].
Qed.

Lemma heap_grows_alloc d s : heap_grows s (alloc d s).
Proof. split; [simpl; lia|apply heap_wf_alloc]. Qed.

Lemma heap_grows_same s s' :
  next_loc s' = next_loc s → domain_scores s' = domain_scores s →
  heap_grows s s'.
Proof.
  intros Hnext Hscores. split; [lia|]. unfold heap_wf.
  by rewrite Hnext, Hscores.
Qed.

Lemma heap_grows_MaxScores_update domain observed :
  respects heap_grows (MaxScores_update domain observed).
Proof.
  intros s. unfold MaxScores_update, bind, gets, assign, modify, ret.
  destruct (scores (domain_scores s) !! domain) as [t|] eqn:Ht; simpl.
  - by apply heap_grows_same.
  - split; [simpl; lia|]. intros Hwf dom t. simpl. rewrite lookup_insert.
    case_decide; [intros [= <-]; lia|].
    intros Hd. apply Hwf in Hd. lia.
Qed.

(** Closes the leaves of a frame proof for [heap_grows]. *)
Ltac heap_grows_leaves :=
  try apply heap_grows_alloc; try (by apply heap_grows_same).

Lemma heap_grows_parse response : respects heap_grows (parse response).
Proof.
  frame_with ltac:(apply heap_grows_MaxScores_update). all: heap_grows_leaves.
Qed.

Lemma heap_grows_on_offdomain_request_dropped request :
  respects heap_grows (on_offdomain_request_dropped request).
Proof. frame. all: heap_grows_leaves. Qed.

Lemma heap_grows_update_request_priorities min_response_count :
  respects heap_grows (update_request_priorities min_response_count).
Proof. frame. all: heap_grows_leaves. Qed.

Lemma reachable_heap_wf yielded s : reachable yielded s → heap_wf s.
Proof.
  induction 1 as [gamma
                 |yielded s response requests s' _ IH _ Hrun
                 |yielded s request s' _ IH _ Hrun
                 |yielded s mrc s' _ IH Hrun
                 |yielded s queues _ IH].
  - intros d l. simpl. by rewrite lookup_empty.
  - by apply (respects_ok _ _ _ _ _ (heap_grows_parse response) Hrun).
  - by apply (respects_ok _ _ _ _ _
                (heap_grows_on_offdomain_request_dropped request) Hrun).
  - by apply (respects_ok _ _ _ _ _
                (heap_grows_update_request_priorities mrc) Hrun).
  - done.
Qed.

End HeapGrows.

(** ** Nodes, edges and requests of a crawl *)

Section CrawlFacts.
Context `{Collaborators}.

(** X1: in a crawl, the list of incoming link dicts that [_get_action]
    builds for a node has at most one element ("there is always either 0
    or 1 incoming links"). *)
Theorem one_incoming_link yielded s node_id links :
  reachable yielded s →
  incoming_link_dicts node_id (G s) = inr links →
  (length links ≤ 1)%nat.
Proof.
  intros Hreach. apply reachable_frontier in Hreach as (Hedges & _).
  unfold incoming_link_dicts.
  destruct (node (G s) !! node_id); [|done]. intros [= <-].
  destruct (pred (G s) !! node_id) as [es|] eqn:Hes; simpl; [|lia].
  destruct (Hedges _ _ Hes) as (_ & u & link & ->). simpl. lia.
Qed.

(** X2: the requests that the spider has yielded in a crawl carry node
    ids that are all different. *)
Theorem yielded_node_ids_distinct yielded s :
  reachable yielded s → NoDup (req_node_id <$> yielded).
Proof. intros Hreach. by apply reachable_frontier in Hreach as (_ & ? & _). Qed.

Lemma yielded_action yielded s r :
  reachable yielded s → r ∈ yielded →
  ∃ n link, req_node_id r = Some n ∧
            action_of n (G s) = inr (Some link) ∧
            link !! "url" = Some (req_url r).
Proof.
  intros Hreach Hr. apply reachable_frontier in Hreach as (_ & _ & Hyielded).
  destruct (Hyielded r Hr) as (n & u & link & Hid & [a Ha] & Hpred & Hurl & _).
  exists n, link. split; [done|]. split; [|done].
  unfold action_of, incoming_link_dicts. by rewrite Ha, Hpred.
Qed.

(** X3: for a request that the spider has yielded, [_get_action] on its
    node returns, without touching the spider, the link dict that the
    request was made from: the one whose url is the url of the request. *)
Theorem yielded_request_has_its_link yielded s r :
  reachable yielded s →
  r ∈ yielded →
  ∃ n link, req_node_id r = Some n ∧
            _get_action n s = Ok (Some link) s ∧
            link !! "url" = Some (req_url r).
Proof.
  intros Hreach Hr.
  destruct (yielded_action _ _ _ Hreach Hr) as (n & link & Hid & Ha & Hurl).
  exists n, link. split; [done|]. split; [|done].
  by rewrite _get_action_run, Ha.
Qed.

(** X4: in a crawl whose frontier holds only requests of seeds and of
    nodes that the spider yielded a request for, the sweep of a domain
    leaves no entry as it was for want of a priority: a request without
    node id keeps its priority, and every other entry gets the value
    that the estimator gives, in the state of the domain, to the link
    that the request of its node was made from. *)
Theorem sweep_scores_by_own_link yielded s domain q :
  reachable yielded s →
  frontier_from yielded s →
  scheduler_queue s !! domain = Some q →
  ∃ s' rs,
    update_domain_request_priorities domain s = Ok tt s' ∧
    scheduler_queue s' !! domain = Some (queue_resort rs) ∧
    Forall2 (λ r r',
      match req_node_id r with
      | None => r' = set_priority r (req_priority r)
      | Some n =>
          ∃ r0 link value,
            r0 ∈ yielded ∧ req_node_id r0 = Some n ∧
            link !! "url" = Some (req_url r0) ∧
            _get_action n s = Ok (Some link) s ∧
            TDRegressor_predict (rl_model s) (domain_state domain s)
              (Some link) = inr value ∧
            r' = set_priority r
                   (Py.int (value * Py.of_Z FLOAT_PRIORITY_MULTIPLIER)%Qc)
      end) q rs.
Proof.
  intros Hreach Hfrom Hq.
  pose proof (reachable_heap_wf _ _ Hreach) as Hwf.
  pose proof (reachable_inv _ _ Hreach) as (_ & Hids & _).
  destruct (update_domain_request_priorities_spec domain s s Hwf
              (reflexivity s)) as (s' & Hrun & Hq').
  unfold get_domain_queue in Hq'. rewrite Hq in Hq'. cbn [default] in Hq'.
  exists s', (rescore_all domain s q). split; [done|].
  split; [by rewrite Hq', lookup_alter_eq, Hq|].
  unfold rescore_all. apply Forall2_fmap_r, Forall_Forall2_diag.
  apply Forall_forall. intros r Hr. unfold compose, rescore, priority_value.
  destruct (Hfrom domain r) as [Hnone | (r0 & Hr0 & Hid)].
  { unfold get_domain_queue. by rewrite Hq. }
  - by rewrite Hnone.
  - destruct (yielded_action _ _ _ Hreach Hr0) as (n & link & Hn & Ha & Hurl).
    destruct (Hids r0 Hr0) as (m & Hm & _).
    assert (n = S m) as -> by congruence.
    rewrite Hid, Hn. unfold request_priority_value. rewrite Ha.
    destruct (predict_link_total (rl_model s) (domain_state domain s) link)
      as [value Hvalue].
    rewrite Hvalue. exists r0, link, value.
    split; [done|]. split; [done|]. split; [done|].
    split; [by rewrite _get_action_run, Ha|done].
Qed.

(** X5: a response parsed, a dropped request handled or the priorities
    updated, to the end or until something is raised: in a crawl, none of
    them takes a node or an edge out of the graph, takes [visited] or
    [scores] back from a node, or sets the counter of node ids back. *)
Theorem graph_only_grows yielded s s' :
  reachable yielded s →
  (∃ response, s' = final (parse response s)) ∨
  (∃ request, s' = final (on_offdomain_request_dropped request s)) ∨
  (∃ min_response_count,
     s' = final (update_request_priorities min_response_count s)) →
  (node_ids s ≤ node_ids s')%nat ∧
  (∀ n es, pred (G s) !! n = Some es → pred (G s') !! n = Some es) ∧
  ∀ n a, node (G s) !! n = Some a →
    ∃ a', node (G s') !! n = Some a' ∧
          (node_visited a = Some true → node_visited a' = Some true) ∧
          (is_Some (node_scores a) → is_Some (node_scores a')).
Proof.
  intros Hreach Hstep.
  assert (Hgrows : grows s s').
  { destruct Hstep as [[response ->] | [[request ->] | [mrc ->]]].
    - apply grows_parse.
    - apply grows_on_offdomain_request_dropped.
    - apply grows_update_request_priorities. }
  destruct Hgrows as (Hids & Hpred & Hnodes).
  pose proof (reachable_frontier _ _ Hreach) as (Hedges & _).
  pose proof (reachable_inv _ _ Hreach) as (Hbound & _).
  split; [done|]. split.
  - intros n es Hes. rewrite Hpred; [done|]. by apply (Hedges n es).
  - intros n a Ha. apply Hnodes; [|done]. by apply (Hbound n a).
Qed.

End CrawlFacts.

(** ** When the estimator learns *)

Section Learning.
Context `{Collaborators}.

Lemma respects_and {A} (R1 R2 : relation QSpider) (m : M A) :
  respects R1 m → respects R2 m → respects (λ s s', R1 s s' ∧ R2 s s') m.
Proof. intros H1 H2 s. split; [apply H1|apply H2]. Qed.

Lemma keeps_learned_print e :
  is_return e = false → respects (keeps learned) (print e).
Proof.
  intros He s. unfold keeps, learned. simpl.
  rewrite filter_app, filter_cons_False, filter_nil, app_nil_r; [done|].
  rewrite He. by intros [].
Qed.

Lemma keeps_learned_generate_out_nodes response node_id :
  respects (keeps learned) (generate_out_nodes response node_id).
Proof. frame; done. Qed.

Lemma grows_generate_out_nodes response node_id :
  respects grows (generate_out_nodes response node_id).
Proof.
  unfold generate_out_nodes.
  apply respects_mapM; [apply _|]. intros link.
  apply grows_generate_out_node.
Qed.

(** X6: in a crawl, parsing a seed response (one without node id) leaves
    the estimator as it was and prints no line of an estimator update,
    whether [parse] returns or raises. *)
Theorem seed_response_never_trains yielded s response :
  reachable yielded s →
  resp_node_id response = None →
  rl_model (final (parse response s)) = rl_model s ∧
  filter is_return (out (final (parse response s)))
    = filter is_return (out s).
Proof.
  intros Hreach Hseed.
  pose proof (reachable_frontier _ _ Hreach) as (Hedges & _).
  set (node_id := node_ids s).
  (* the relation that the steps after [update_response_node] respect *)
  set (R := λ s1 s2 : QSpider,
         pred (G s1) !! node_id = None ∧ (node_id < node_ids s1)%nat →
         learned s2 = learned s1 ∧
         pred (G s2) !! node_id = None ∧ (node_id < node_ids s2)%nat).
  assert (HR : PreOrder R).
  { split; [by intros s1|]. intros s1 s2 s3 H12 H23 H1.
    destruct (H12 H1) as (L12 & P2 & N2).
    destruct (H23 (conj P2 N2)) as (L23 & P3 & N3).
    split; [congruence|done]. }
  assert (Hid : ∀ A (m : M A), respects (keeps (λ s, s)) m → respects R m).
  { intros A m. apply respects_mono. intros s1 s2 Hk H1.
    unfold keeps in Hk. by rewrite Hk. }
  assert (Hrest : respects R
    (bind (G_node node_id) (λ node,
     bind (getitem (node_ok node)) (λ ok,
     bind (if ok_true ok then generate_out_nodes response node_id
           else ret []) (λ requests,
     bind (learn_from_response node_id response) (λ _,
     ret requests)))))).
  { apply respects_bind; [apply _|apply Hid; frame; done|intros node].
    apply respects_bind; [apply _|apply Hid; frame; done|intros ok].
    apply respects_bind; [apply _| |intros requests].
    { destruct (ok_true ok); [|apply respects_ret; apply _].
      apply (respects_mono (λ s1 s2, keeps learned s1 s2 ∧ grows s1 s2)).
      - intros s1 s2 [Hl (Hn & Hp & _)] [Hnone Hlt].
        split; [done|]. split; [|lia]. by rewrite Hp.
      - apply respects_and; [apply keeps_learned_generate_out_nodes
                            |apply grows_generate_out_nodes]. }
    apply respects_bind;
      [apply _| |intros ?; apply respects_ret; apply _].
    apply (respects_mono (λ s1 s2, seed_keeps node_id s1 s2 ∧ grows s1 s2)).
    - intros s1 s2 [Hl (Hn & Hp & _)] [Hnone Hlt].
      unfold seed_keeps in Hl. rewrite Hnone in Hl. specialize (Hl eq_refl).
      unfold learning in Hl. unfold learned.
      split; [congruence|]. split; [|lia]. by rewrite Hp.
    - apply respects_and; [apply seed_keeps_learn
                          |apply grows_learn_from_response]. }
  unfold parse. rewrite final_bind. simpl.
  rewrite final_bind, update_response_node_run, Hseed. simpl.
  match goal with
  | |- context [final (?m ?s1)] => specialize (Hrest s1)
  end.
  destruct Hrest as (Hlearned & _).
  { simpl. split; [|unfold node_id; lia].
    destruct (pred (G s) !! node_id) as [es|] eqn:Hes; [|done].
    apply Hedges in Hes. unfold node_id in Hes. lia. }
  unfold learned in Hlearned. simpl in Hlearned.
  injection Hlearned as Hmodel Hout. done.
Qed.

Lemma action_of_add_node n m attrs g a :
  action_of n g = inr a → action_of n (add_node m attrs g) = inr a.
Proof.
  unfold action_of, incoming_link_dicts. rewrite add_node_lookup. simpl.
  destruct (node g !! n) as [b|] eqn:Hb; [|done].
  case_decide; [subst|]; by rewrite ?Hb.
Qed.

Global Instance keeps_action_preorder n : PreOrder (keeps_action n).
Proof.
  split; [intros s a Ha; exact Ha|].
  intros s1 s2 s3 H12 H23 a Ha. apply H23, H12, Ha.
Qed.

Lemma keeps_action_same n s s' : G s' = G s → keeps_action n s s'.
Proof. intros HG a. by rewrite HG. Qed.

(** What [TDRegressor.update] returns when it is given an action. *)
Lemma TDRegressor_update_result self s_t a_t r_t1 s_t1 a_t1 res :
  TDRegressor_update self s_t a_t r_t1 s_t1 a_t1 = inr res →
  ∃ predicted future,
    future_reward self s_t1 a_t1 = inr future ∧
    res.2 = PrintReturn predicted (r_t1 + future)%Qc r_t1 future ∧
    gamma res.1 = gamma self ∧
    is_Some (coef_ (Q res.1)).
Proof.
  unfold TDRegressor_update.
  destruct (TDRegressor__vectorize s_t a_t); [done|].
  destruct (future_reward self s_t1 a_t1) as [|future]; [done|].
  destruct (TDRegressor_predict self s_t a_t) as [|predicted]; [done|].
  intros [= <-]. simpl. exists predicted, future.
  split; [done|]. split; [done|]. split; [done|]. apply coef_partial_fit.
Qed.

(** [learn_from_response] that returns, for a node with a true action:
    the one update it makes. *)
Lemma learn_from_response_update node_id response s s' link :
  action_of node_id (G s) = inr (Some link) →
  link ≠ ∅ →
  learn_from_response node_id response s = Ok tt s' →
  ∃ s_t r_t1 s_t1 a_t1 res,
    TDRegressor_update (rl_model s) s_t (Some link) r_t1 s_t1 a_t1
      = inr res ∧
    rl_model s' = res.1 ∧
    filter is_return (out s') = filter is_return (out s) ++ [res.2] ∧
    (get_domain_queue (resp_domain response) (scheduler_queue s) = [] →
     a_t1 = None).
Proof.
  intros Haction Hlink Hrun. unfold learn_from_response in Hrun.
  (* the steps before the action is looked up *)
  assert (Hframe : ∀ A (m : M A) s1 a s2,
    respects (keeps learning) m → respects (keeps_action node_id) m →
    respects (keeps scheduler_queue) m →
    m s1 = Ok a s2 →
    learning s1 = learning s → action_of node_id (G s1) = inr (Some link) →
    scheduler_queue s1 = scheduler_queue s →
    learning s2 = learning s ∧ action_of node_id (G s2) = inr (Some link) ∧
    scheduler_queue s2 = scheduler_queue s).
  { intros A m s1 a s2 Hl Ha Hq Hm Hl1 Ha1 Hq1.
    apply (respects_ok _ _ _ _ _ Hl) in Hm as Hl2.
    apply (respects_ok _ _ _ _ _ Ha) in Hm as Ha2.
    apply (respects_ok _ _ _ _ _ Hq) in Hm as Hq2.
    unfold keeps in Hl2, Hq2. split; [congruence|].
    split; [by apply Ha2|congruence]. }
  apply bind_ok_inv in Hrun as (observed & s1 & Hstep & Hrun).
  eapply Hframe in Hstep as (Hl1 & Ha1 & Hq1); [|..].
  2: apply keeps_learning_store.
  2: { frame. all: try (by apply keeps_action_same).
       intros b Hb. by apply action_of_add_node. }
  2: frame; done.
  2-4: done.
  apply bind_ok_inv in Hrun as (state & s2 & Hstep & Hrun).
  eapply Hframe in Hstep as (Hl2 & Ha2 & Hq2); [|..].
  2: apply keeps_learning_get_domain_state.
  2: frame; by apply keeps_action_same.
  2: frame; done.
  2-4: done.
  apply bind_ok_inv in Hrun as (s_t & s3 & Hstep & Hrun).
  eapply Hframe in Hstep as (Hl3 & Ha3 & Hq3); [|..].
  2: apply keeps_learning_dict_copy.
  2: frame; by apply keeps_action_same.
  2: frame; done.
  2-4: done.
  apply bind_ok_inv in Hrun as ([] & s4 & Hstep & Hrun).
  eapply Hframe in Hstep as (Hl4 & Ha4 & Hq4); [|..].
  2: apply keeps_learning_update_domain_state.
  2: frame; by apply keeps_action_same.
  2: frame; done.
  2-4: done.
  apply bind_ok_inv in Hrun as (s_t1 & s5 & Hstep & Hrun).
  eapply Hframe in Hstep as (Hl5 & Ha5 & Hq5); [|..].
  2: apply keeps_learning_get_domain_state.
  2: frame; by apply keeps_action_same.
  2: frame; done.
  2-4: done.
  apply bind_ok_inv in Hrun as (observed_val & s5' & [= <- <-] & Hrun).
  apply bind_ok_inv in Hrun as (s_t_val & s5' & [= <- <-] & Hrun).
  apply bind_ok_inv in Hrun as ([] & s6 & Hstep & Hrun).
  eapply Hframe in Hstep as (Hl6 & Ha6 & Hq6); [|..].
  2: by apply keeps_learning_print.
  2: frame; by apply keeps_action_same.
  2: frame; done.
  2-4: done.
  (* the action *)
  apply bind_ok_inv in Hrun as (a_t & s7 & Hstep & Hrun).
  rewrite _get_action_run, Ha6 in Hstep. injection Hstep as <- <-.
  assert (Htrue : negb (action_true (Some link)) = false).
  { simpl. rewrite negb_involutive. by apply bool_decide_eq_false. }
  rewrite Htrue in Hrun.
  (* the priorities of the domain, when the reward is large *)
  apply bind_ok_inv in Hrun as ([] & s8 & Hstep & Hrun).
  assert (Hl8 : learning s8 = learning s).
  { rewrite <- Hl6. destruct (Py.ltb _ _).
    - apply (respects_ok _ _ _ _ _
               (ltac:(frame; done) :
                  respects (keeps learning)
                    (update_domain_request_priorities
                       (resp_domain response))) Hstep).
    - by injection Hstep as <-. }
  assert (Hq8 : get_domain_queue (resp_domain response) (scheduler_queue s)
                  = [] →
                get_domain_queue (resp_domain response) (scheduler_queue s8)
                  = []).
  { rewrite <- Hq6. intros Hempty. destruct (Py.ltb _ _).
    - unfold update_domain_request_priorities, update_all_priorities,
        bind, gets in Hstep.
      rewrite Hempty in Hstep. simpl in Hstep. injection Hstep as <-.
      simpl. unfold get_domain_queue in *. rewrite lookup_alter_eq.
      by destruct (scheduler_queue s6 !! resp_domain response).
    - by injection Hstep as <-. }
  clear Hstep.
  (* the action after this one, and the update *)
  apply bind_ok_inv in Hrun as (queue & s8' & [= <- <-] & Hrun).
  apply bind_ok_inv in Hrun as (a_t1 & s9 & Hstep & Hrun).
  assert (Hsame : s9 = s8 ∧
    (get_domain_queue (resp_domain response) (scheduler_queue s8) = [] →
     a_t1 = None)).
  { destruct (get_domain_queue _ _) as [|next_req queue].
    - simpl in Hstep. by injection Hstep as <- <-.
    - split; [|done]. simpl in Hstep.
      destruct (req_node_id next_req) as [next_node_id|].
      + rewrite _get_action_run in Hstep.
        destruct (action_of next_node_id (G s8)); [done|].
        by injection Hstep as _ <-.
      + by injection Hstep as _ <-. }
  destruct Hsame as [-> Hnone].
  unfold rl_model_update in Hrun.
  apply bind_ok_inv in Hrun as (s_t_val' & ? & [= <- <-] & Hrun).
  apply bind_ok_inv in Hrun as (s_t1_val & ? & [= <- <-] & Hrun).
  apply bind_ok_inv in Hrun as (model & ? & [= <- <-] & Hrun).
  apply bind_ok_inv in Hrun as (res & s10 & Hupdate & Hrun).
  destruct (TDRegressor_update _ _ _ _ _ _) as [|res'] eqn:Hres; [done|].
  injection Hupdate as <- <-.
  apply bind_ok_inv in Hrun as ([] & s11 & [= <-] & Hrun).
  injection Hrun as <-.
  unfold learning in Hl8. injection Hl8 as _ Hmodel Hout.
  rewrite Hmodel in Hres.
  eexists _, _, _, a_t1, res'. split; [exact Hres|]. split; [done|].
  split; [|eauto]. simpl.
  rewrite filter_app, Hout. f_equal.
  destruct (TDRegressor_update_result _ _ _ _ _ _ _ Hres)
    as (p & f & _ & Hev & _).
  rewrite Hev. done.
Qed.

(** X7: when the node of a response has an incoming link that is not
    empty and [learn_from_response] returns, the estimator has been
    updated exactly once: one line of an update is printed, its observed
    return is the immediate reward plus the future reward, the estimator
    is trained afterwards and its [gamma] is what it was. *)
Theorem non_seed_response_trains_once node_id response s s' link :
  action_of node_id (G s) = inr (Some link) →
  link ≠ ∅ →
  learn_from_response node_id response s = Ok tt s' →
  ∃ predicted immediate future,
    filter is_return (out s') =
      filter is_return (out s)
        ++ [PrintReturn predicted (immediate + future)%Qc immediate future] ∧
    is_Some (coef_ (Q (rl_model s'))) ∧
    gamma (rl_model s') = gamma (rl_model s).
Proof.
  intros Haction Hlink Hrun.
  destruct (learn_from_response_update _ _ _ _ _ Haction Hlink Hrun)
    as (s_t & r_t1 & s_t1 & a_t1 & res & Hres & Hmodel & Hout & _).
  destruct (TDRegressor_update_result _ _ _ _ _ _ _ Hres)
    as (p & f & _ & Hev & Hgamma & Hcoef).
  exists p, r_t1, f. rewrite Hout, Hev, Hmodel. done.
Qed.

(** X8: there is no bootstrap without a next request or a trained
    estimator: when [learn_from_response] updates the estimator while the
    queue of the domain is empty, or while the estimator has not been
    updated before, the future reward is 0.0 and the target of the update
    is the immediate reward. *)
Theorem no_bootstrap_without_lookahead node_id response s s' link :
  action_of node_id (G s) = inr (Some link) →
  link ≠ ∅ →
  get_domain_queue (resp_domain response) (scheduler_queue s) = [] ∨
  coef_ (Q (rl_model s)) = None →
  learn_from_response node_id response s = Ok tt s' →
  ∃ predicted immediate,
    filter is_return (out s') =
      filter is_return (out s)
        ++ [PrintReturn predicted immediate immediate 0%Qc].
Proof.
  intros Haction Hlink Hcase Hrun.
  destruct (learn_from_response_update _ _ _ _ _ Haction Hlink Hrun)
    as (s_t & r_t1 & s_t1 & a_t1 & res & Hres & Hmodel & Hout & Hnone).
  destruct (TDRegressor_update_result _ _ _ _ _ _ _ Hres)
    as (p & f & Hfuture & Hev & _).
  assert (f = 0%Qc) as ->.
  { unfold future_reward in Hfuture. destruct Hcase as [Hempty | Hcoef].
    - rewrite (Hnone Hempty) in Hfuture. by injection Hfuture as <-.
    - rewrite Hcoef in Hfuture. destruct a_t1; by injection Hfuture as <-. }
  exists p, r_t1. rewrite Hout, Hev. by rewrite Qcplus_0_r.
Qed.

End Learning.

(** ** Rewards and priorities at the edges *)

Section Edges.
Context `{Collaborators}.

Lemma Qc_sum_zero x y :
  (0 ≤ x)%Qc → (0 ≤ y)%Qc → (x + y = 0)%Qc → x = 0%Qc ∧ y = 0%Qc.
Proof.
  intros Hx Hy Hsum.
  assert (Hxle : (x ≤ 0)%Qc).
  { rewrite <- Hsum. rewrite <- (Qcplus_0_r x) at 1.
    apply Qcplus_le_compat; [apply Qcle_refl|done]. }
  assert (x = 0%Qc) as -> by (by apply Qcle_antisym).
  split; [done|]. by rewrite Qcplus_0_l in Hsum.
Qed.

Lemma Py_sum_zero l :
  Forall (λ x, (0 ≤ x)%Qc) l →
  Py.sum l = 0%Qc ↔ Forall (λ x, x = 0%Qc) l.
Proof.
  induction 1 as [|x l Hx Hl IH].
  - split; [constructor|done].
  - rewrite Py_sum_cons. split.
    + intros Hsum.
      apply Qc_sum_zero in Hsum as [-> Hrest];
        [|done|by apply Py_sum_nonneg].
      constructor; [done|by apply IH].
    + inversion 1 as [|? ? -> Hrest]; subst.
      apply IH in Hrest. by rewrite Hrest, Qcplus_0_l.
Qed.

Lemma Py_max_0_zero d : Py.max d 0 = 0%Qc ↔ (d ≤ 0)%Qc.
Proof.
  unfold Py.max. destruct (Py.ltb d 0) eqn:E.
  - apply Py_ltb_lt in E. split; [intros _; by apply Qclt_le_weak|done].
  - split; [intros ->; apply Qcle_refl|].
    intros Hle. apply Qcle_antisym; [done|].
    apply Qcnot_lt_le. intros Hlt. apply Py_ltb_lt in Hlt. congruence.
Qed.

Lemma Qc_minus_nonpos a b : (a - b ≤ 0)%Qc ↔ (a ≤ b)%Qc.
Proof.
  split; intros Hle.
  - pose proof (Qcplus_le_compat _ _ _ _ Hle (Qcle_refl b)) as Hsum.
    replace (a - b + b)%Qc with a in Hsum by ring.
    by rewrite Qcplus_0_l in Hsum.
  - pose proof (Qcplus_le_compat _ _ _ _ Hle (Qcle_refl (- b)%Qc)) as Hsum.
    by rewrite Qcplus_opp_r in Hsum.
Qed.

(** X9: the reward of a response is 0.0 exactly when no score type was
    observed above the state that the domain had; a score type that a
    dict does not list counts as 0.0. *)
Theorem reward_zero_iff observed s_t :
  reward observed s_t = 0%Qc ↔
  ∀ k, (score observed k ≤ score s_t k)%Qc.
Proof.
  rewrite reward_sum, Py_sum_zero.
  2: { apply Forall_fmap, Forall_forall. intros k _. apply Py_max_0_nonneg. }
  rewrite Forall_fmap, Forall_forall. unfold score_types. split.
  - intros Hall k.
    destruct (decide (k ∈ dom observed ∪ dom s_t)) as [Hk | Hk].
    + apply Qc_minus_nonpos, Py_max_0_zero, Hall. by apply elem_of_elements.
    + apply not_elem_of_union in Hk as [Ho Hs].
      apply not_elem_of_dom in Ho, Hs. unfold score. rewrite Ho, Hs.
      apply Qcle_refl.
  - intros Hall k _. simpl. apply Py_max_0_zero, Qc_minus_nonpos, Hall.
Qed.

Lemma Py_int_zero x : Py.int (0 * x)%Qc = 0.
Proof. by rewrite Qcmult_0_l. Qed.

(** The priority that [generate_out_node] gives its request is the
    value of [get_request_priority] before the engine took the
    request. *)
Lemma generate_out_node_priority domain this_node_id link s request s' :
  generate_out_node domain this_node_id link s = Ok request s' →
  ∃ s1, rl_model s1 = rl_model s ∧ rl_model s' = rl_model s ∧
        request_priority_value domain (node_ids s) s1
          = inr (req_priority request).
Proof.
  unfold generate_out_node. intros Hrun.
  apply bind_ok_inv in Hrun as (url & s0 & Hurl & Hrun).
  destruct (link !! "url") as [url'|]; [|done]. injection Hurl as <- <-.
  apply bind_ok_inv in Hrun as (node_id & s1 & [= <- <-] & Hrun).
  apply bind_ok_inv in Hrun as ([] & s2 & [= <-] & Hrun).
  apply bind_ok_inv in Hrun as ([] & s3 & [= <-] & Hrun).
  apply bind_ok_inv in Hrun as (priority & s4 & Hprio & Hrun).
  apply bind_ok_inv in Hrun as ([] & s5 & [= <-] & Hrun).
  injection Hrun as <- <-.
  match type of Hprio with
  | get_request_priority ?d ?n ?s1 = _ =>
      pose proof (get_request_priority_value d n s1) as Hval;
      rewrite Hprio in Hval; exists s1
  end.
  split; [done|]. split; [|exact Hval].
  simpl.
  apply (respects_ok _ _ _ _ _
           (ltac:(frame; done) :
              respects (keeps rl_model)
                (get_request_priority domain (node_ids s))) Hprio).
Qed.

(** X10: while the estimator has not been updated, every request that
    [parse] yields has priority 0. *)
Theorem untrained_priorities_are_zero response s requests s' :
  coef_ (Q (rl_model s)) = None →
  parse response s = Ok requests s' →
  Forall (λ r, req_priority r = 0) requests.
Proof.
  intros Hcoef Hrun.
  apply parse_ok_inv in Hrun as (node_id & s1 & a & ok & s2 &
                                  Hnode & _ & _ & Hgen & _).
  rewrite update_response_node_run in Hnode. injection Hnode as _ <-.
  destruct (ok_true ok); [|injection Hgen as <- _; constructor].
  unfold generate_out_nodes in Hgen.
  match type of Hgen with
  | mapM _ _ ?s1 = _ =>
      assert (Hstart : coef_ (Q (rl_model s1)) = None ∧
                       Forall (λ r, req_priority r = 0) [])
        by (split; [by destruct (resp_node_id response)|constructor])
  end.
  revert Hstart Hgen.
  refine (λ Hstart Hgen,
    proj2 (mapM_ok_inv _
      (λ acc s, coef_ (Q (rl_model s)) = None ∧
                Forall (λ r, req_priority r = 0) acc)
      _ _ [] _ _ _ Hstart Hgen)).
  clear. intros acc link s request s' [Hcoef Hacc] Hone.
  apply generate_out_node_priority in Hone as (s1 & Hm1 & Hm' & Hval).
  split; [by rewrite Hm'|].
  apply Forall_app. split; [done|]. constructor; [|constructor].
  unfold request_priority_value, TDRegressor_predict in Hval.
  rewrite Hm1, Hcoef in Hval.
  destruct (action_of _ _); [done|].
  injection Hval as <-. apply Py_int_zero.
Qed.

End Edges.

(** ** Failed responses *)

Section Failed.
Context `{Collaborators}.

Global Instance keeps_snapshot_preorder l : PreOrder (keeps_snapshot l).
Proof.
  split.
  - intros s Hs. by split.
  - intros s1 s2 s3 H12 H23 Hs.
    destruct (H12 Hs) as [S2 C2]. destruct (H23 S2) as [S3 C3].
    split; [done|congruence].
Qed.

Lemma keeps_snapshot_alloc l d s : keeps_snapshot l s (alloc d s).
Proof.
  intros Hs. split; [by apply snapshot_alloc_old|].
  apply contents_alloc_old. destruct Hs as (_ & Hl & _). lia.
Qed.

Lemma keeps_snapshot_MaxScores_update l domain observed :
  respects (keeps_snapshot l) (MaxScores_update domain observed).
Proof.
  intros s.
  destruct (MaxScores_update_spec domain observed s) as (s' & -> & _ & Hsnap).
  exact (Hsnap l).
Qed.

(** Closes the leaves of a frame proof for [keeps_snapshot]. *)
Ltac keeps_snapshot_leaves :=
  try apply keeps_snapshot_alloc;
  try (intros Hs; split; [exact Hs|reflexivity]).

(** After [store_observed_scores], [learn_from_response] does not write
    the dict object of the observed scores. *)
Lemma learn_from_response_scores node_id response s s' a ok :
  heap_wf s →
  node (G s) !! node_id = Some a →
  node_ok a = Some ok →
  learn_from_response node_id response s = Ok tt s' →
  G s' = add_node node_id
           {| node_url := None; node_visited := None; node_ok := None;
              node_response_id := None;
              node_scores := Some (next_loc s) |} (G s) ∧
  contents (next_loc s) s' = observed_scores_of ok response.
Proof.
  intros Hwf Hnode Hok Hrun. unfold learn_from_response in Hrun.
  apply bind_ok_inv in Hrun as (l & s1 & Hstore & Hrun).
  rewrite (store_observed_scores_run _ _ _ _ _ Hnode Hok) in Hstore.
  injection Hstore as <- <-.
  match type of Hrun with
  | ?m ?s1 = _ =>
      assert (Hgraph : respects (keeps crawl_graph) m) by (frame; done);
      assert (Hsnap : respects (keeps_snapshot (next_loc s)) m)
  end.
  { frame_with ltac:(apply keeps_snapshot_MaxScores_update).
    all: keeps_snapshot_leaves. }
  apply (respects_ok _ _ _ _ _ Hgraph) in Hrun as HG.
  apply (respects_ok _ _ _ _ _ Hsnap) in Hrun as Hl.
  unfold keeps, crawl_graph in HG. injection HG as HG _.
  split; [exact HG|].
  destruct Hl as [_ ->].
  - apply (snapshot_alloc_new (observed_scores_of ok response) s Hwf).
  - apply contents_alloc_new.
Qed.

(** X11: a response that failed (its status is not 200, or it has no
    text) yields no request when it is parsed; the graph gets no edge and
    no node but that of the response, which is visited, not ok, and has
    all-zero scores. *)
Theorem failed_response_yields_nothing response s requests s' :
  heap_wf s →
  (resp_status response =? 200) && resp_has_text response = false →
  parse response s = Ok requests s' →
  let node_id := default (node_ids s) (resp_node_id response) in
  requests = [] ∧
  pred (G s') = pred (G s) ∧
  (∀ n, n ≠ node_id → node (G s') !! n = node (G s) !! n) ∧
  ∃ a l, node (G s') !! node_id = Some a ∧
         node_visited a = Some true ∧
         node_ok a = Some (Some false) ∧
         node_scores a = Some l ∧
         contents l s' = constant_scores available_form_types 0%Qc.
Proof.
  intros Hwf Hfailed Hrun node_id.
  apply parse_ok_inv in Hrun as (node_id' & s1 & a & ok & s2 &
                                  Hnode & Hlook & Hok & Hgen & Hlearn).
  rewrite update_response_node_run in Hnode.
  injection Hnode as <- <-.
  change (response_count (set_response_count (response_count s + 1) s))
    with (response_count s + 1) in *.
  change (node_ids (set_response_count (response_count s + 1) s))
    with (node_ids s) in *.
  change (G (set_response_count (response_count s + 1) s))
    with (G s) in *.
  fold node_id in Hlook, Hok, Hgen, Hlearn.
  rewrite Hfailed in *.
  match type of Hgen with
  | _ ?st = Ok _ _ => set (s1 := st) in *
  end.
  assert (HG1 : G s1 = add_node node_id
            {| node_url := Some (resp_url response);
               node_visited := Some true;
               node_ok := Some (Some false);
               node_response_id := Some (Some (response_count s + 1));
               node_scores := None |} (G s)) by done.
  rewrite HG1, add_node_lookup, decide_True in Hlook by done.
  injection Hlook as <-. simpl in Hok. injection Hok as <-.
  simpl in Hgen. injection Hgen as <- <-.
  fold s1 in Hlearn.
  split; [done|].
  assert (Hwf1 : heap_wf s1) by (by destruct (resp_node_id response)).
  eapply (learn_from_response_scores _ _ _ _ _ (Some false) Hwf1)
    in Hlearn as [HG' Hcontents].
  2: { rewrite HG1, add_node_lookup, decide_True by done. reflexivity. }
  2: done.
  rewrite HG', HG1. split; [done|]. split.
  - intros n Hn. by rewrite !add_node_lookup, !decide_False by done.
  - eexists _, (next_loc s1). rewrite !add_node_lookup, !decide_True by done.
    split; [reflexivity|]. simpl. done.
Qed.




End Failed.

(** ** When the methods return *)

Section Returns.
Context `{Collaborators}.

Lemma action_of_add_edge u v link g :
  ∃ link', action_of v (add_edge u v link g) = inr (Some link').
Proof.
  unfold action_of, incoming_link_dicts.
  rewrite add_edge_node, add_node_lookup, decide_True by done.
  unfold add_edge. cbn [pred]. rewrite lookup_insert_eq. cbn [default].
  destruct (default [] (pred g !! v)) as [|[u' x] l]; simpl; [eauto|].
  case_decide; simpl; eauto.
Qed.

(** [generate_out_node] returns for a link that has a url. *)
Lemma generate_out_node_returns domain this_node_id link s url :
  link !! "url" = Some url →
  ∃ priority s',
    generate_out_node domain this_node_id link s =
      Ok {| req_url := url; req_priority := priority;
            req_node_id := Some (node_ids s);
            req_domain := Some domain |} s'.
Proof.
  intros Hurl. unfold generate_out_node. rewrite Hurl.
  unfold bind at 1. cbn [getitem ret].
  unfold bind at 1. cbn [next_node_id bind gets modify ret].
  unfold bind at 1.
  match goal with
  | |- context [get_request_priority ?d ?n ?s1] =>
      pose proof (get_request_priority_value d n s1) as Hval;
      destruct (get_request_priority d n s1) as [p s2|e s2]
  end.
  - cbn [bind modify ret]. eauto.
  - exfalso. unfold request_priority_value in Hval.
    unfold set_G in Hval; cbn [G] in Hval.
    match type of Hval with
    | context [action_of ?n (add_edge ?u ?n ?l ?g)] =>
        destruct (action_of_add_edge u n l g) as [link' Hact]
    end.
    rewrite Hact in Hval.
    match type of Hval with
    | context [TDRegressor_predict ?m ?st (Some link')] =>
        destruct (predict_link_total m st link') as [q Hq];
        rewrite Hq in Hval
    end.
    done.
Qed.

(** X12: when every link of the response has a url, [generate_out_nodes]
    returns one request per link, in the order in which the loop takes
    the links (the order after the shuffle): the request has the url of
    its link and the domain of the response, and the node ids are the
    next ones of the counter. *)
Theorem links_become_requests response node_id s :
  Forall (λ link : Link, is_Some (link !! "url")) (resp_links response) →
  ∃ requests s',
    generate_out_nodes response node_id s = Ok requests s' ∧
    Forall2 (λ (link : Link) r,
               link !! "url" = Some (req_url r) ∧
               req_domain r = Some (resp_domain response))
            (resp_links response) requests ∧
    req_node_id <$> requests =
      Some <$> seq (node_ids s) (length (resp_links response)) ∧
    node_ids s' = (node_ids s + length (resp_links response))%nat.
Proof.
  unfold generate_out_nodes.
  generalize (resp_links response) as links. intros links Hurls. revert s.
  induction Hurls as [|link links [url Hurl] _ IH]; intros s.
  - exists [], s. simpl. split; [done|]. split; [constructor|].
    split; [done|lia].
  - destruct (generate_out_node_returns (resp_domain response) node_id
                link s url Hurl) as (p & s1 & Hone).
    pose proof (generate_out_node_yields _ _ _ _ _ _ Hone)
      as (_ & _ & _ & Hids & _).
    destruct (IH s1) as (requests & s' & Hrest & Hall & Hnodes & Hcount).
    eexists (_ :: requests), s'. cbn [mapM].
    unfold bind at 1. rewrite Hone. unfold bind at 1. rewrite Hrest.
    split; [reflexivity|]. split; [by constructor|].
    split; [|simpl; lia].
    rewrite fmap_cons. cbn [length seq]. rewrite fmap_cons.
    by rewrite Hnodes, Hids.
Qed.

(** X13: a link without url stops [generate_out_nodes] with a
    [KeyError]; the links that the loop took before it have got their
    nodes, and the link itself and those after it none. *)
Theorem link_without_url_raises response node_id s before link after :
  resp_links response = before ++ link :: after →
  Forall (λ link : Link, is_Some (link !! "url")) before →
  link !! "url" = None →
  ∃ s', generate_out_nodes response node_id s = Err KeyError s' ∧
        node_ids s' = (node_ids s + length before)%nat.
Proof.
  unfold generate_out_nodes. intros -> Hurls Hnone. revert s.
  induction Hurls as [|link' before [url Hurl] _ IH]; intros s.
  - exists s. simpl. unfold bind at 1, generate_out_node.
    rewrite Hnone. unfold bind at 1. simpl. split; [done|lia].
  - destruct (generate_out_node_returns (resp_domain response) node_id
                link' s url Hurl) as (p & s1 & Hone).
    pose proof (generate_out_node_yields _ _ _ _ _ _ Hone)
      as (_ & _ & _ & Hids & _).
    destruct (IH s1) as (s' & Hrest & Hcount).
    exists s'. cbn [app mapM]. unfold bind at 1. rewrite Hone.
    unfold bind at 1. rewrite Hrest. split; [done|simpl; lia].
Qed.

End Returns.

(** ** The frontier of a crawl *)

Section FrontierFrom.
Context `{Collaborators}.

Global Instance frontier_kept_preorder : PreOrder frontier_kept.
Proof.
  split.
  - intros s d r Hr. eauto.
  - intros s1 s2 s3 H12 H23 d r Hr.
    destruct (H23 d r Hr) as (r2 & Hr2 & Hid2).
    destruct (H12 d r2 Hr2) as (r1 & Hr1 & Hid1).
    exists r1. split; [done|congruence].
Qed.

Lemma frontier_kept_same s s' :
  scheduler_queue s' = scheduler_queue s → frontier_kept s s'.
Proof. intros Hq d r. rewrite Hq. eauto. Qed.

Lemma rescoring_node_ids domain q s rs s' :
  mapM (λ r, catch (bind (_get_priority domain r)
                      (λ p, ret (set_priority r p)))
                   (λ _, ret r)) q s = Ok rs s' →
  Forall2 (λ r r', req_node_id r' = req_node_id r) q rs.
Proof.
  revert s rs. induction q as [|r q IH]; intros s rs; simpl.
  - intros [= <- _]. constructor.
  - intros Hrun.
    apply bind_ok_inv in Hrun as (r' & s1 & Hone & Hrun).
    apply bind_ok_inv in Hrun as (rs' & s2 & Hrest & [= <- <-]).
    constructor; [|by apply (IH s1)].
    apply catch_ok_inv in Hone as [Hone | (e & s0 & _ & [= <- _])]; [|done].
    by apply bind_ok_inv in Hone as (p & s0 & _ & [= <- _]).
Qed.

Lemma frontier_kept_update_domain_request_priorities domain :
  respects frontier_kept (update_domain_request_priorities domain).
Proof.
  intros s. unfold update_domain_request_priorities, update_all_priorities.
  rewrite (bind_returns _ _ s _ s) by reflexivity.
  rewrite final_bind.
  match goal with
  | |- context [bind (mapM ?f ?q) ?k s] =>
      pose proof (ltac:(frame; done) :
                    respects (keeps scheduler_queue) (mapM f q)) as Hkeeps;
      specialize (Hkeeps s);
      unfold bind at 1; destruct (mapM f q s) as [rs s1|e s1] eqn:Hrun
  end.
  - simpl in *. apply rescoring_node_ids in Hrun.
    intros d r. unfold get_domain_queue. unfold keeps in Hkeeps.
    rewrite Hkeeps. unfold set_scheduler_queue; cbn [scheduler_queue].
    destruct (decide (d = domain)) as [->|Hd].
    + rewrite lookup_alter_eq.
      destruct (scheduler_queue s !! domain) as [q|] eqn:Hq; simpl;
        [|by intros ?%elem_of_nil].
      unfold get_domain_queue in Hrun. rewrite Hq in Hrun. simpl in Hrun.
      rewrite queue_resort_Permutation. intros Hr.
      apply list_elem_of_lookup in Hr as [i Hi].
      destruct (Forall2_lookup_r _ _ _ _ _ Hrun Hi) as (r0 & Hr0 & Hid).
      exists r0. split; [by apply list_elem_of_lookup_2 in Hr0|done].
    + rewrite lookup_alter_ne by done. eauto.
  - simpl in *. by apply frontier_kept_same.
Qed.

Lemma frontier_kept_learn_from_response node_id response :
  respects frontier_kept (learn_from_response node_id response).
Proof.
  frame_with ltac:(apply frontier_kept_update_domain_request_priorities).
  all: by apply frontier_kept_same.
Qed.

Lemma frontier_from_kept yielded s s' :
  frontier_from yielded s → frontier_kept s s' → frontier_from yielded s'.
Proof.
  intros Hfrom Hkept d r Hr. destruct (Hkept d r Hr) as (r0 & Hr0 & Hid).
  destruct (Hfrom d r0 Hr0) as [Hnone | (r1 & Hr1 & Hid1)].
  - left. congruence.
  - right. exists r1. split; [done|congruence].
Qed.

Lemma request_of_app yielded requests r :
  request_of yielded r → request_of (yielded ++ requests) r.
Proof.
  intros [Hnone | (r0 & Hr0 & Hid)]; [by left|].
  right. exists r0. split; [|done]. apply elem_of_app. by left.
Qed.

(** What [generate_out_nodes] that returns has done to the frontier,
    with an engine that schedules what it is given; and the nodes that
    were there are as they were. *)
Lemma generate_out_nodes_frontier_from yielded response node_id s requests s' :
  engine_schedules_given →
  frontier_from yielded s →
  generate_out_nodes response node_id s = Ok requests s' →
  frontier_from (yielded ++ requests) s'.
Proof.
  intros Hengine Hfrom Hrun. unfold generate_out_nodes in Hrun.
  apply (mapM_ok_inv _ (λ acc s, frontier_from (yielded ++ acc) s) _)
    with (acc := []) in Hrun; [done| |by rewrite app_nil_r].
  clear - Hengine. intros acc link s request s' Hfrom Hone d r Hr.
  unfold generate_out_node in Hone.
  apply bind_ok_inv in Hone as (url & s0 & Hurl & Hone).
  apply bind_ok_inv in Hone as (n & s1 & Hn & Hone).
  apply bind_ok_inv in Hone as ([] & s2 & Hnode & Hone).
  apply bind_ok_inv in Hone as ([] & s3 & Hedge & Hone).
  apply bind_ok_inv in Hone as (p & s4 & Hp & Hone).
  apply bind_ok_inv in Hone as ([] & s5 & Hpush & Hone).
  injection Hone as <- <-. injection Hpush as <-.
  assert (Hq : scheduler_queue s4 = scheduler_queue s).
  { apply (respects_ok _ _ _ _ _
             (ltac:(frame; done) :
                respects (keeps scheduler_queue)
                  (get_request_priority (resp_domain response) n))) in Hp.
    unfold keeps in Hp. rewrite Hp.
    injection Hedge as <-. injection Hnode as <-.
    destruct (link !! "url"); [|done]. injection Hurl as _ <-.
    by injection Hn as _ <-. }
  cbn [scheduler_queue set_scheduler_queue] in Hr.
  rewrite app_assoc.
  apply Hengine in Hr as [-> | [d' Hr]].
  - right. eexists. split; [|reflexivity].
    apply elem_of_app. right. apply list_elem_of_singleton. reflexivity.
  - rewrite Hq in Hr. apply request_of_app.
    by apply (Hfrom d').
Qed.

Lemma generate_out_nodes_keeps_node response node_id s requests s' n a :
  node (G s) !! n = Some a →
  (n < node_ids s)%nat →
  generate_out_nodes response node_id s = Ok requests s' →
  node (G s') !! n = Some a.
Proof.
  intros Hnode Hlt Hrun. unfold generate_out_nodes in Hrun.
  apply (mapM_ok_inv _
           (λ _ s, node (G s) !! n = Some a ∧ (n < node_ids s)%nat) _)
    with (acc := []) in Hrun; [by destruct Hrun|clear|done].
  intros _ link s request s' [Hnode Hlt] Hone.
  apply generate_out_node_yields in Hone as (_ & _ & _ & Hids & HG).
  split; [|lia]. rewrite HG. apply add_edge_lookup_present.
  rewrite add_node_lookup, decide_False by lia. done.
Qed.

(** X14: the frontier stays a frontier of the crawl.  With an engine
    that schedules what it is given, a frontier that holds only requests
    of seeds and of nodes that the spider yielded a request for still
    does so after [parse] returned, with the requests that [parse]
    yielded, and after a dropped request was handled or the priorities
    were updated, whether these return or raise. *)
Theorem frontier_stays_from_yielded yielded s :
  engine_schedules_given →
  frontier_from yielded s →
  (∀ response requests s',
     parse response s = Ok requests s' →
     frontier_from (yielded ++ requests) s') ∧
  (∀ request,
     frontier_from yielded
       (final (on_offdomain_request_dropped request s))) ∧
  (∀ min_response_count,
     frontier_from yielded
       (final (update_request_priorities min_response_count s))).
Proof.
  intros Hengine Hfrom. split; [|split].
  - intros response requests s' Hrun.
    apply parse_ok_inv in Hrun as (node_id & s1 & a & ok & s2 &
                                    Hnode & _ & _ & Hgen & Hlearn).
    assert (Hfrom1 : frontier_from yielded s1).
    { apply (respects_ok _ _ _ _ _
               (ltac:(frame; done) :
                  respects (keeps scheduler_queue)
                    (update_response_node response))) in Hnode.
      unfold keeps in Hnode. cbn [scheduler_queue set_response_count] in Hnode.
      intros d r. rewrite Hnode. apply Hfrom. }
    assert (Hfrom2 : frontier_from (yielded ++ requests) s2).
    { destruct (ok_true ok).
      - by apply (generate_out_nodes_frontier_from _ response node_id s1).
      - injection Hgen as <- <-. by rewrite app_nil_r. }
    apply (frontier_from_kept _ s2); [done|].
    apply (respects_ok _ _ _ _ _
             (frontier_kept_learn_from_response node_id response) Hlearn).
  - intros request.
    pose proof (ltac:(frame; done) :
                  respects (keeps scheduler_queue)
                    (on_offdomain_request_dropped request)) as Hkeeps.
    specialize (Hkeeps s). unfold keeps in Hkeeps.
    intros d r. rewrite Hkeeps. apply Hfrom.
  - intros min_response_count.
    apply (frontier_from_kept _ s); [done|].
    assert (Hkept : respects frontier_kept
                      (update_request_priorities min_response_count)).
    { frame_with ltac:(apply frontier_kept_update_domain_request_priorities).
      all: by apply frontier_kept_same. }
    apply Hkept.
Qed.

End FrontierFrom.

(** ** What a sweep and a parsed response leave behind *)

Section Records.
Context `{Collaborators}.

Lemma keeps_crawl_state_print e :
  is_return e = false → respects (keeps crawl_state) (print e).
Proof.
  intros He s. unfold keeps, crawl_state. simpl.
  rewrite filter_app, filter_cons_False, filter_nil, app_nil_r; [done|].
  rewrite He. by intros [].
Qed.

(** X15: a call of [update_request_priorities], whether it returns or
    raises, changes nothing but the frontier, the log and the marker of
    the last sweep: the graph, the counter of node ids, the estimator,
    the tracker and the response count are what they were, no line of an
    estimator update is printed, the state of every domain is what it
    was, and the requests of every queue stand for nodes that requests
    of that queue stood for before. *)
Theorem sweep_changes_only_the_frontier min_response_count s :
  heap_wf s →
  let s' := final (update_request_priorities min_response_count s) in
  crawl_state s' = crawl_state s ∧
  (∀ domain, domain_state domain s' = domain_state domain s) ∧
  frontier_kept s s'.
Proof.
  intros Hwf s'. split; [|split].
  - assert (Hkeeps : respects (keeps crawl_state)
                       (update_request_priorities min_response_count)).
    { frame_with ltac:(by apply keeps_crawl_state_print). all: done. }
    apply Hkeeps.
  - assert (Hknows : respects knows
                       (update_request_priorities min_response_count)).
    { frame_with ltac:(apply respects_knows_priorities).
      all: by split. }
    intros domain. apply (knows_domain_state _ _ _ Hwf). apply Hknows.
  - assert (Hkept : respects frontier_kept
                      (update_request_priorities min_response_count)).
    { frame_with ltac:(apply frontier_kept_update_domain_request_priorities).
      all: by apply frontier_kept_same. }
    apply Hkept.
Qed.

(** X16: in a crawl, when [parse] returns for a response to a seed
    request or to a request that the spider yielded, the response has
    been counted, and its node is visited and has the url of the
    response, the [ok] of the response, the response count as
    [response_id], and scores. *)
Theorem parsed_response_is_recorded yielded s response requests s' :
  reachable yielded s →
  response_from yielded response →
  parse response s = Ok requests s' →
  response_count s' = response_count s + 1 ∧
  ∃ a, node (G s') !! default (node_ids s) (resp_node_id response) = Some a ∧
       node_url a = Some (resp_url response) ∧
       node_visited a = Some true ∧
       node_ok a = Some (Some ((resp_status response =? 200)
                               && resp_has_text response)) ∧
       node_response_id a = Some (Some (response_count s + 1)) ∧
       is_Some (node_scores a).
Proof.
  intros Hreach Hfrom Hrun.
  pose proof (reachable_inv _ _ Hreach) as Hinv.
  apply parse_ok_inv in Hrun as (node_id & s1 & a & ok & s2 &
                                  Hnode & Hlook & Hok & Hgen & Hlearn).
  set (s0 := set_response_count (response_count s + 1) s) in *.
  assert (Hparsing1 : parsing_inv node_id yielded s1)
    by (by apply (update_response_node_inv _ response s0)).
  assert (Hcount : response_count s' = response_count s0).
  { pose proof (respects_ok _ _ _ _ _
             (ltac:(frame; done) :
                respects (keeps response_count)
                  (update_response_node response)) Hnode) as C1.
    pose proof (respects_ok _ _ _ _ _
             (ltac:(frame; done) :
                respects (keeps response_count)
                  (learn_from_response node_id response)) Hlearn) as C3.
    assert (C2 : response_count s2 = response_count s1).
    { destruct (ok_true ok); [|by injection Hgen as _ <-].
      apply (respects_ok _ _ _ _ _
               (ltac:(frame; done) :
                  respects (keeps response_count)
                    (generate_out_nodes response node_id)) Hgen). }
    unfold keeps in C1, C3. congruence. }
  split; [by rewrite Hcount|].
  rewrite update_response_node_run in Hnode. injection Hnode as Hid Hs1.
  assert (Hlook2 : node (G s2) !! node_id = Some a).
  { destruct (ok_true ok); [|by injection Hgen as _ <-].
    apply (generate_out_nodes_keeps_node response node_id s1 requests);
      [done| |done].
    destruct Hparsing1 as (Hnodes & _). by apply (Hnodes _ a). }
  destruct (learn_from_response_graph _ _ _ _ Hlearn) as (l & HG & _).
  rewrite <- Hs1 in Hlook. unfold set_G in Hlook; cbn [G] in Hlook.
  rewrite Hid, add_node_lookup, decide_True in Hlook by done.
  injection Hlook as Ha.
  eexists. rewrite Hid.
  rewrite HG, add_node_lookup, decide_True, Hlook2 by done.
  split; [reflexivity|]. rewrite <- Ha. simpl. eauto 10.
Qed.

End Records.

(** ** The downloader middlewares *)

Section MiddlewareFacts.
Context `{Collaborators}.

(** X17: [process_request] raises [IgnoreRequest] exactly for a request
    that carries a domain that is not empty and is not the domain of its
    url; every other request goes on to the downloader and the spider is
    not told of it. *)
Theorem offsite_requests_are_ignored get_domain request s :
  ((∃ s', process_request get_domain request s = IgnoreRequest s') ↔
   ∃ domain, req_domain request = Some domain ∧ domain ≠ "" ∧
             get_domain (req_url request) ≠ domain) ∧
  (∀ s', process_request get_domain request s = Downloads s' → s' = s).
Proof.
  unfold process_request.
  destruct (req_domain request) as [domain|].
  2: { split; [|by intros s' [= <-]].
       split; [by intros [s' ?]|by intros (domain & ? & _)]. }
  repeat case_decide.
  - split; [|by intros s' [= <-]].
    split; [by intros [s' ?]|]. intros (domain' & [= <-] & ? & _). done.
  - split; [|by intros s' [= <-]].
    split; [by intros [s' ?]|]. intros (domain' & [= <-] & _ & ?). done.
  - split; [|done]. split; [|eauto]. intros _. eauto.
Qed.

(** X18: in a crawl, when the middleware ignores a request that stands
    for the node of a request that the spider yielded (the request itself
    or a redirect of it), the request is recorded: the crawl goes on from
    the spider that the handler leaves, in which the node is visited, not
    ok, and has scores; the estimator, the lines of its updates, the
    tracker and the frontier are what they were. *)
Theorem ignored_request_is_recorded get_domain yielded s request r0 s' :
  reachable yielded s →
  r0 ∈ yielded →
  req_node_id request = req_node_id r0 →
  process_request get_domain request s = IgnoreRequest s' →
  reachable yielded s' ∧
  learned s' = learned s ∧
  domain_scores s' = domain_scores s ∧
  scheduler_queue s' = scheduler_queue s ∧
  ∃ n a, req_node_id request = Some n ∧
         node (G s') !! n = Some a ∧
         node_visited a = Some true ∧
         node_ok a = Some (Some false) ∧
         is_Some (node_scores a).
Proof.
  intros Hreach Hin Hsame Hrun.
  pose proof (reachable_inv _ _ Hreach) as (_ & Hyielded & _).
  destruct (Hyielded _ Hin) as (n & Hid0 & _).
  assert (Hid : req_node_id request = Some (S n)) by congruence.
  pose proof (on_offdomain_request_dropped_run request n s Hid) as Hdrop.
  pose proof (on_offdomain_request_dropped_run r0 n s Hid0) as Hdrop0.
  unfold process_request in Hrun.
  destruct (req_domain request) as [domain|]; [|done].
  repeat case_decide; try done.
  rewrite Hdrop in Hrun. injection Hrun as <-.
  split; [|split; [done|split; [done|split; [done|]]]].
  - apply (reach_drop yielded s r0); [done|by right|done].
  - eexists _, _. split; [done|]. unfold set_G; cbn [G].
    rewrite add_node_lookup, decide_True by done.
    split; [reflexivity|]. simpl. eauto.
Qed.

End MiddlewareFacts.

Section ProxyFacts.
Context {Proxy : Type} (_get_proxy : string → string → Proxy).

Lemma set_proxy_lookup_eq acc type_ settings key :
  acc !! type_ = None →
  set_proxy _get_proxy acc (type_, settings !! key) !! type_ =
    (λ url, _get_proxy url type_) <$> setting settings key.
Proof.
  intros Hacc. unfold set_proxy, setting. cbn [fst snd].
  destruct (settings !! key) as [url|]; [|done].
  case_decide; [done|]. by rewrite lookup_insert_eq.
Qed.

Lemma set_proxy_lookup_ne acc type_ url k :
  k ≠ type_ →
  set_proxy _get_proxy acc (type_, url) !! k = acc !! k.
Proof.
  intros Hk. unfold set_proxy. cbn [fst snd].
  destruct url as [url|]; [|done].
  case_decide; [done|]. by rewrite lookup_insert_ne.
Qed.

Lemma http_is_not_https : "http" ≠ "https".
Proof. discriminate. Qed.

(** The proxies that the loop of [__init__] sets. *)
Lemma proxies_of_settings_lookup settings k :
  foldl (set_proxy _get_proxy) ∅
        [("http", settings !! "HTTP_PROXY");
         ("https", settings !! "HTTPS_PROXY")] !! k =
    if decide (k = "http")
    then (λ url, _get_proxy url "http") <$> setting settings "HTTP_PROXY"
    else if decide (k = "https")
    then (λ url, _get_proxy url "https") <$> setting settings "HTTPS_PROXY"
    else None.
Proof.
  cbn [foldl]. case_decide as Hhttp; [subst k|case_decide as Hhttps; [subst k|]].
  - rewrite set_proxy_lookup_ne by apply http_is_not_https.
    apply set_proxy_lookup_eq, lookup_empty.
  - apply set_proxy_lookup_eq.
    rewrite set_proxy_lookup_ne by (symmetry; apply http_is_not_https).
    apply lookup_empty.
  - rewrite !set_proxy_lookup_ne by done. apply lookup_empty.
Qed.

(** X19: [ProxyFromSettingsMiddleware] is not configured exactly when
    neither [HTTP_PROXY] nor [HTTPS_PROXY] is set to a string that is not
    empty. *)
Theorem proxy_not_configured_iff settings :
  ProxyFromSettingsMiddleware_init _get_proxy settings = None ↔
  setting settings "HTTP_PROXY" = None ∧
  setting settings "HTTPS_PROXY" = None.
Proof.
  unfold ProxyFromSettingsMiddleware_init. cbv zeta.
  pose proof (proxies_of_settings_lookup settings) as Hlook.
  revert Hlook. generalize (foldl (set_proxy _get_proxy) ∅
        [("http", settings !! "HTTP_PROXY");
         ("https", settings !! "HTTPS_PROXY")]) as configured.
  intros configured Hlook. case_decide as Hsize.
  - split; [intros _|done].
    apply map_size_empty_iff in Hsize. subst configured.
    pose proof (Hlook "http") as Hhttp.
    pose proof (Hlook "https") as Hhttps.
    rewrite lookup_empty in Hhttp, Hhttps.
    rewrite decide_True in Hhttp by done.
    rewrite decide_False, decide_True in Hhttps
      by (done || (symmetry; apply http_is_not_https)).
    symmetry in Hhttp, Hhttps.
    apply fmap_None in Hhttp, Hhttps. done.
  - split; [done|]. intros [Hhttp Hhttps]. exfalso. apply Hsize.
    apply map_size_empty_iff, map_empty. intros k.
    rewrite Hlook, Hhttp, Hhttps. by repeat case_decide.
Qed.

(** X20: a configured [ProxyFromSettingsMiddleware] has, for the types
    [http] and [https], the proxy that [_get_proxy] makes of the setting
    when it is there and not empty, and no proxy otherwise or for another
    type; its [auth_encoding] is the setting [HTTPPROXY_AUTH_ENCODING]. *)
Theorem proxy_settings_are_used settings mw :
  ProxyFromSettingsMiddleware_init _get_proxy settings = Some mw →
  proxies mw !! "http" =
    (λ url, _get_proxy url "http") <$> setting settings "HTTP_PROXY" ∧
  proxies mw !! "https" =
    (λ url, _get_proxy url "https") <$> setting settings "HTTPS_PROXY" ∧
  (∀ type_, type_ ≠ "http" → type_ ≠ "https" →
            proxies mw !! type_ = None) ∧
  auth_encoding mw = settings !! "HTTPPROXY_AUTH_ENCODING".
Proof.
  unfold ProxyFromSettingsMiddleware_init. cbv zeta.
  pose proof (proxies_of_settings_lookup settings) as Hlook.
  revert Hlook. generalize (foldl (set_proxy _get_proxy) ∅
        [("http", settings !! "HTTP_PROXY");
         ("https", settings !! "HTTPS_PROXY")]) as configured.
  intros configured Hlook. case_decide as Hsize; [done|].
  intros [= <-]. cbn [proxies auth_encoding].
  split; [|split; [|split; [|done]]].
  - rewrite Hlook. by rewrite decide_True.
  - rewrite Hlook.
    rewrite decide_False by (symmetry; apply http_is_not_https).
    by rewrite decide_True.
  - intros type_ Hhttp Hhttps. rewrite Hlook.
    by rewrite !decide_False.
Qed.

End ProxyFacts.

(** ** Pages without scores *)

Section EmptyScores.
Context `{Collaborators}.

Global Instance tracker_kept_preorder : PreOrder tracker_kept.
Proof.
  split.
  - intros s. by split.
  - intros s1 s2 s3 (K12 & N12 & H12) (K23 & N23 & H23).
    split; [congruence|]. split; [lia|].
    intros l Hl. rewrite H23 by lia. by apply H12.
Qed.

Lemma tracker_kept_alloc d s : tracker_kept s (alloc d s).
Proof.
  split; [done|]. split; [simpl; lia|].
  intros l Hl. simpl. rewrite lookup_insert_ne; [done|lia].
Qed.

Lemma tracker_kept_same s s' :
  domain_scores s' = domain_scores s → next_loc s' = next_loc s →
  heap s' = heap s → tracker_kept s s'.
Proof. intros Hd Hn Hh. split; [done|]. split; [lia|]. by rewrite Hh. Qed.

Lemma tracker_kept_domain_state domain s s' :
  heap_wf s → tracker_kept s s' →
  domain_state domain s' = domain_state domain s.
Proof.
  intros Hwf (K & _ & Hheap). unfold domain_state, contents. rewrite K.
  destruct (scores (domain_scores s) !! domain) as [l|] eqn:Hl; [|done].
  rewrite Hheap; [done|]. by apply (Hwf domain).
Qed.

(** X21: a page on which no score was observed (the dict of its scores
    is empty) has no part in the tracker: [learn_from_response], whether
    it returns or raises, leaves the domains of the tracker and the state
    of every domain as they were. *)
Theorem empty_scores_skip_the_tracker node_id response s a ok :
  heap_wf s →
  node (G s) !! node_id = Some a →
  node_ok a = Some ok →
  observed_scores_of ok response = ∅ →
  let s' := final (learn_from_response node_id response s) in
  domain_scores s' = domain_scores s ∧
  ∀ domain, domain_state domain s' = domain_state domain s.
Proof.
  intros Hwf Hnode Hok Hempty s'.
  assert (Hkept : tracker_kept s s').
  { unfold s', learn_from_response.
    rewrite final_bind, (store_observed_scores_run _ _ _ _ _ Hnode Hok).
    rewrite Hempty.
    set (s1 := set_G _ (alloc ∅ s)).
    rewrite final_bind, get_domain_state_run.
    set (s2 := alloc _ s1).
    rewrite final_bind, dict_copy_run.
    set (s3 := alloc _ s2).
    assert (Hkept3 : tracker_kept s s3).
    { transitivity s1; [apply tracker_kept_alloc|].
      transitivity s2; apply tracker_kept_alloc. }
    assert (Hskip : update_domain_state node_id response s3 = Ok tt s3).
    { assert (Hlook : node (G s3) !! node_id =
                Some (attrs_update a
                        {| node_url := None; node_visited := None;
                           node_ok := None; node_response_id := None;
                           node_scores := Some (next_loc s) |})).
      { unfold s3, s2, s1, alloc, set_heap, set_G; cbn [G].
        by rewrite add_node_lookup, decide_True, Hnode. }
      assert (Hcontents : contents (next_loc s) s3 = ∅).
      { unfold s3. rewrite contents_alloc_old by (simpl; lia).
        unfold s2. rewrite contents_alloc_old by (simpl; lia).
        apply (contents_alloc_new ∅ s). }
      unfold update_domain_state.
      rewrite (bind_returns _ _ s3 _ s3)
        by (unfold G_node, bind, gets; by rewrite Hlook).
      rewrite (bind_returns _ _ s3 (next_loc s) s3) by reflexivity.
      rewrite (bind_returns _ _ s3 _ s3) by reflexivity.
      by rewrite Hcontents, decide_True. }
    rewrite final_bind, Hskip.
    transitivity s3; [done|].
    match goal with
    | |- tracker_kept s3 (final (?m s3)) =>
        assert (Hrest : respects tracker_kept m)
    end.
    { frame. all: try apply tracker_kept_alloc.
      all: by apply tracker_kept_same. }
    apply Hrest. }
  split; [by destruct Hkept|].
  intros domain. by apply tracker_kept_domain_state.
Qed.

End EmptyScores.

(** ** More of the crawl of two pages *)

Lemma seed_parsed_requests :
  returned [] seed_parsed = [first_link_request; second_link_request].
Proof. vm_compute. reflexivity. Qed.

Lemma first_link_parsed_requests : returned [] first_link_parsed = [].
Proof. vm_compute. reflexivity. Qed.

Lemma second_link_yielded :
  second_link_request ∈ [] ++ returned [] seed_parsed.
Proof. rewrite seed_parsed_requests. simpl. right. left. Qed.

Lemma first_link_fetching_reachable :
  reachable ([] ++ returned [] seed_parsed) first_link_fetching.
Proof. exact (reach_engine _ (final seed_parsed) _ seed_parsed_reachable). Qed.

Lemma first_link_response_from :
  response_from ([] ++ returned [] seed_parsed) first_link_response.
Proof.
  right. exists first_link_request. split; [|reflexivity].
  rewrite seed_parsed_requests. simpl. left.
Qed.

Lemma sample_engine_schedules_given : engine_schedules_given.
Proof.
  intros request queues d r. simpl. unfold sample_engine_crawl.
  destruct (req_domain request) as [d0|]; [|eauto].
  unfold get_domain_queue at 1.
  destruct (decide (d = d0)) as [->|Hd].
  - rewrite lookup_insert_eq. simpl. rewrite queue_push_Permutation.
    intros [-> | Hr]%elem_of_cons; eauto.
  - rewrite lookup_insert_ne by done. eauto.
Qed.

Lemma seed_parsed_queue :
  map_to_list (scheduler_queue (final seed_parsed)) =
    [("a.test", [first_link_request; second_link_request])].
Proof. vm_compute. reflexivity. Qed.

Lemma frontier_from_listed `{Collaborators} yielded s entries :
  map_to_list (scheduler_queue s) = entries →
  Forall (λ dq : string * list Request, Forall (request_of yielded) dq.2)
         entries →
  frontier_from yielded s.
Proof.
  intros <- Hall d r. unfold get_domain_queue.
  destruct (scheduler_queue s !! d) as [q|] eqn:Hq;
    [|by intros ?%elem_of_nil].
  apply elem_of_map_to_list in Hq.
  apply (proj1 (Forall_forall _ _) Hall) in Hq.
  apply (proj1 (Forall_forall _ _) Hq).
Qed.

Lemma first_link_request_of :
  request_of ([] ++ returned [] seed_parsed) first_link_request.
Proof.
  right. exists first_link_request. split; [|reflexivity].
  rewrite seed_parsed_requests. left.
Qed.

Lemma second_link_request_of :
  request_of ([] ++ returned [] seed_parsed) second_link_request.
Proof.
  right. exists second_link_request. split; [|reflexivity].
  exact second_link_yielded.
Qed.

Lemma seed_parsed_frontier :
  frontier_from ([] ++ returned [] seed_parsed) (final seed_parsed).
Proof.
  apply (frontier_from_listed _ _ _ seed_parsed_queue).
  constructor; [|constructor].
  constructor; [exact first_link_request_of|].
  constructor; [exact second_link_request_of|constructor].
Qed.

Lemma returned_unit `{Collaborators} (o : outcome unit) :
  raised o = None → o = Ok tt (final o).
Proof. by destruct o as [[] ?|]. Qed.

Lemma first_link_fetching_queue :
  map_to_list (scheduler_queue first_link_fetching) =
    [("a.test", [second_link_request])].
Proof. vm_compute. reflexivity. Qed.

Lemma first_link_fetching_frontier :
  frontier_from ([] ++ returned [] seed_parsed) first_link_fetching.
Proof.
  apply (frontier_from_listed _ _ _ first_link_fetching_queue).
  constructor; [|constructor].
  constructor; [exact second_link_request_of|constructor].
Qed.

Lemma first_link_learned_ok :
  learn_from_response 1 first_link_response (final first_link_arrived) =
    Ok tt (final (learn_from_response 1 first_link_response
                    (final first_link_arrived))).
Proof. apply returned_unit. vm_compute. reflexivity. Qed.

Lemma not_found_parsed_ok :
  not_found_parsed = Ok (returned [] not_found_parsed) (final not_found_parsed).
Proof. apply returned_ok. vm_compute. reflexivity. Qed.

Lemma redirected_request_ignored :
  process_request sample_get_domain redirected_request (final seed_parsed) =
    IgnoreRequest
      (final (on_offdomain_request_dropped redirected_request
                (final seed_parsed))).
Proof.
  unfold process_request. cbn [req_domain req_url redirected_request].
  rewrite decide_False by discriminate.
  rewrite decide_False by discriminate.
  reflexivity.
Qed.

Lemma seed_links_have_urls :
  Forall (λ link : Link, is_Some (link !! "url")) (resp_links seed_response).
Proof.
  constructor; [by exists "https://a.test/1"|].
  constructor; [by exists "https://a.test/2"|constructor].
Qed.

(** ** The further properties at the crawl *)

Lemma one_incoming_link_witness :
  let s : QSpider := final first_link_parsed in
  let link : Link := {["url" := "https://a.test/1"; "pos" := "1"]} in
  reachable (([] ++ returned [] seed_parsed) ++ returned [] first_link_parsed)
            s ∧
  incoming_link_dicts 1 (G s) = inr [link] ∧
  (length [link] ≤ 1)%nat.
Proof.
  intros s link.
  assert (Hlinks : incoming_link_dicts 1 (G s) = inr [link])
    by (vm_compute; reflexivity).
  split; [exact first_link_parsed_reachable|]. split; [exact Hlinks|].
  exact (one_incoming_link _ s 1%nat [link] first_link_parsed_reachable
           Hlinks).
Defined.

Lemma yielded_node_ids_distinct_witness :
  reachable (([] ++ returned [] seed_parsed) ++ returned [] first_link_parsed)
            (final first_link_parsed) ∧
  NoDup (req_node_id <$>
           ([] ++ returned [] seed_parsed) ++ returned [] first_link_parsed).
Proof.
  split; [exact first_link_parsed_reachable|].
  exact (yielded_node_ids_distinct _ _ first_link_parsed_reachable).
Defined.

Lemma yielded_request_has_its_link_witness :
  let s : QSpider := final seed_parsed in
  reachable ([] ++ returned [] seed_parsed) s ∧
  second_link_request ∈ [] ++ returned [] seed_parsed ∧
  ∃ n link, req_node_id second_link_request = Some n ∧
            _get_action n s = Ok (Some link) s ∧
            link !! "url" = Some (req_url second_link_request).
Proof.
  intros s.
  split; [exact seed_parsed_reachable|]. split; [exact second_link_yielded|].
  exact (yielded_request_has_its_link _ s second_link_request
           seed_parsed_reachable second_link_yielded).
Defined.

Lemma seed_parsed_domain_queue :
  scheduler_queue (final seed_parsed) !! "a.test" =
    Some [first_link_request; second_link_request].
Proof. vm_compute. reflexivity. Qed.

Lemma sweep_scores_by_own_link_witness :
  let yielded : list Request := [] ++ returned [] seed_parsed in
  let s : QSpider := final seed_parsed in
  let q : list Request := [first_link_request; second_link_request] in
  reachable yielded s ∧
  frontier_from yielded s ∧
  scheduler_queue s !! "a.test" = Some q ∧
  ∃ s' rs,
    update_domain_request_priorities "a.test" s = Ok tt s' ∧
    scheduler_queue s' !! "a.test" = Some (queue_resort rs) ∧
    Forall2 (λ r r',
      match req_node_id r with
      | None => r' = set_priority r (req_priority r)
      | Some n =>
          ∃ r0 link value,
            r0 ∈ yielded ∧ req_node_id r0 = Some n ∧
            link !! "url" = Some (req_url r0) ∧
            _get_action n s = Ok (Some link) s ∧
            TDRegressor_predict (rl_model s) (domain_state "a.test" s)
              (Some link) = inr value ∧
            r' = set_priority r
                   (Py.int (value * Py.of_Z FLOAT_PRIORITY_MULTIPLIER)%Qc)
      end) q rs.
Proof.
  intros yielded s q.
  split; [exact seed_parsed_reachable|]. split; [exact seed_parsed_frontier|].
  split; [exact seed_parsed_domain_queue|].
  exact (sweep_scores_by_own_link yielded s "a.test" q seed_parsed_reachable
           seed_parsed_frontier seed_parsed_domain_queue).
Defined.

Lemma graph_only_grows_witness :
  let s : QSpider := first_link_fetching in
  let s' : QSpider := final (parse first_link_response s) in
  reachable ([] ++ returned [] seed_parsed) s ∧
  ((∃ response, s' = final (parse response s)) ∨
   (∃ request, s' = final (on_offdomain_request_dropped request s)) ∨
   (∃ min_response_count,
      s' = final (update_request_priorities min_response_count s))) ∧
  (node_ids s ≤ node_ids s')%nat ∧
  (∀ n es, pred (G s) !! n = Some es → pred (G s') !! n = Some es) ∧
  ∀ n a, node (G s) !! n = Some a →
    ∃ a', node (G s') !! n = Some a' ∧
          (node_visited a = Some true → node_visited a' = Some true) ∧
          (is_Some (node_scores a) → is_Some (node_scores a')).
Proof.
  intros s s'.
  assert (Hstep : (∃ response, s' = final (parse response s)) ∨
    (∃ request, s' = final (on_offdomain_request_dropped request s)) ∨
    (∃ min_response_count,
       s' = final (update_request_priorities min_response_count s)))
    by (left; exists first_link_response; reflexivity).
  split; [exact first_link_fetching_reachable|]. split; [exact Hstep|].
  exact (graph_only_grows _ s s' first_link_fetching_reachable Hstep).
Defined.

Lemma seed_response_never_trains_witness :
  reachable [] crawl_start ∧
  resp_node_id seed_response = None ∧
  rl_model (final (parse seed_response crawl_start)) = rl_model crawl_start ∧
  filter is_return (out (final (parse seed_response crawl_start)))
    = filter is_return (out crawl_start).
Proof.
  split; [exact (reach_init (Q2Qc (1 # 2)))|]. split; [reflexivity|].
  exact (seed_response_never_trains [] crawl_start seed_response
           (reach_init (Q2Qc (1 # 2))) eq_refl).
Defined.

Lemma first_link_action :
  action_of 1 (G (final first_link_arrived)) =
    inr (Some {["url" := "https://a.test/1"; "pos" := "1"]}).
Proof. vm_compute. reflexivity. Qed.

Lemma first_link_is_not_empty :
  ({["url" := "https://a.test/1"; "pos" := "1"]} : Link) ≠ ∅.
Proof. apply insert_non_empty. Qed.

Lemma first_link_untrained :
  coef_ (Q (rl_model (final first_link_arrived))) = None.
Proof. vm_compute. reflexivity. Qed.

Lemma non_seed_response_trains_once_witness :
  let s : QSpider := final first_link_arrived in
  let s' : QSpider := final (learn_from_response 1 first_link_response s) in
  let link : Link := {["url" := "https://a.test/1"; "pos" := "1"]} in
  action_of 1 (G s) = inr (Some link) ∧
  link ≠ ∅ ∧
  learn_from_response 1 first_link_response s = Ok tt s' ∧
  ∃ predicted immediate future,
    filter is_return (out s') =
      filter is_return (out s)
        ++ [PrintReturn predicted (immediate + future)%Qc immediate future] ∧
    is_Some (coef_ (Q (rl_model s'))) ∧
    gamma (rl_model s') = gamma (rl_model s).
Proof.
  intros s s' link.
  split; [exact first_link_action|].
  split; [exact first_link_is_not_empty|].
  split; [exact first_link_learned_ok|].
  exact (non_seed_response_trains_once 1 first_link_response s s' link
           first_link_action first_link_is_not_empty first_link_learned_ok).
Defined.

Lemma no_bootstrap_without_lookahead_witness :
  let s : QSpider := final first_link_arrived in
  let s' : QSpider := final (learn_from_response 1 first_link_response s) in
  let link : Link := {["url" := "https://a.test/1"; "pos" := "1"]} in
  action_of 1 (G s) = inr (Some link) ∧
  link ≠ ∅ ∧
  (get_domain_queue (resp_domain first_link_response) (scheduler_queue s)
     = [] ∨
   coef_ (Q (rl_model s)) = None) ∧
  learn_from_response 1 first_link_response s = Ok tt s' ∧
  ∃ predicted immediate,
    filter is_return (out s') =
      filter is_return (out s)
        ++ [PrintReturn predicted immediate immediate 0%Qc].
Proof.
  intros s s' link.
  split; [exact first_link_action|].
  split; [exact first_link_is_not_empty|].
  split; [exact (or_intror first_link_untrained)|].
  split; [exact first_link_learned_ok|].
  exact (no_bootstrap_without_lookahead 1 first_link_response s s' link
           first_link_action first_link_is_not_empty
           (or_intror first_link_untrained) first_link_learned_ok).
Defined.

Lemma untrained_priorities_are_zero_witness :
  coef_ (Q (rl_model crawl_start)) = None ∧
  parse seed_response crawl_start =
    Ok (returned [] seed_parsed) (final seed_parsed) ∧
  Forall (λ r, req_priority r = 0) (returned [] seed_parsed).
Proof.
  split; [reflexivity|]. split; [exact seed_parsed_ok|].
  exact (untrained_priorities_are_zero seed_response crawl_start
           (returned [] seed_parsed) (final seed_parsed)
           eq_refl seed_parsed_ok).
Defined.

Lemma second_link_fetching_heap_wf : heap_wf second_link_fetching.
Proof. apply heap_wf_checked. vm_compute. reflexivity. Qed.

Lemma failed_response_yields_nothing_witness :
  let s : QSpider := second_link_fetching in
  let requests : list Request := returned [] not_found_parsed in
  let s' : QSpider := final not_found_parsed in
  heap_wf s ∧
  (resp_status not_found_response =? 200)
    && resp_has_text not_found_response = false ∧
  parse not_found_response s = Ok requests s' ∧
  requests = [] ∧
  pred (G s') = pred (G s) ∧
  (∀ n, n ≠ 2%nat → node (G s') !! n = node (G s) !! n) ∧
  ∃ a l, node (G s') !! 2%nat = Some a ∧
         node_visited a = Some true ∧
         node_ok a = Some (Some false) ∧
         node_scores a = Some l ∧
         contents l s' = constant_scores available_form_types 0%Qc.
Proof.
  intros s requests s'.
  split; [exact second_link_fetching_heap_wf|]. split; [reflexivity|].
  split; [exact not_found_parsed_ok|].
  exact (failed_response_yields_nothing not_found_response s requests s'
           second_link_fetching_heap_wf eq_refl not_found_parsed_ok).
Defined.

Lemma links_become_requests_witness :
  Forall (λ link : Link, is_Some (link !! "url")) (resp_links seed_response) ∧
  ∃ requests s',
    generate_out_nodes seed_response 0 crawl_start = Ok requests s' ∧
    Forall2 (λ (link : Link) r,
               link !! "url" = Some (req_url r) ∧
               req_domain r = Some (resp_domain seed_response))
            (resp_links seed_response) requests ∧
    req_node_id <$> requests =
      Some <$> seq (node_ids crawl_start)
                   (length (resp_links seed_response)) ∧
    node_ids s' =
      (node_ids crawl_start + length (resp_links seed_response))%nat.
Proof.
  split; [exact seed_links_have_urls|].
  exact (links_become_requests seed_response 0 crawl_start
           seed_links_have_urls).
Defined.

Lemma broken_link_has_no_url : broken_link !! "url" = None.
Proof. vm_compute. reflexivity. Qed.

Lemma link_before_broken_has_url :
  Forall (λ link : Link, is_Some (link !! "url"))
         [ ({["url" := "https://a.test/1"]} : Link) ].
Proof. constructor; [by exists "https://a.test/1"|constructor]. Qed.

Lemma link_without_url_raises_witness :
  let before : list Link := [ {["url" := "https://a.test/1"]} ] in
  resp_links broken_response = before ++ broken_link :: [] ∧
  Forall (λ link : Link, is_Some (link !! "url")) before ∧
  broken_link !! "url" = None ∧
  ∃ s', generate_out_nodes broken_response 0 crawl_start = Err KeyError s' ∧
        node_ids s' = (node_ids crawl_start + length before)%nat.
Proof.
  intros before.
  split; [reflexivity|]. split; [exact link_before_broken_has_url|].
  split; [exact broken_link_has_no_url|].
  exact (link_without_url_raises broken_response 0 crawl_start before
           broken_link [] eq_refl link_before_broken_has_url
           broken_link_has_no_url).
Defined.

Lemma frontier_stays_from_yielded_witness :
  let yielded : list Request := [] ++ returned [] seed_parsed in
  let s : QSpider := first_link_fetching in
  engine_schedules_given ∧
  frontier_from yielded s ∧
  (∀ response requests s',
     parse response s = Ok requests s' →
     frontier_from (yielded ++ requests) s') ∧
  (∀ request,
     frontier_from yielded
       (final (on_offdomain_request_dropped request s))) ∧
  (∀ min_response_count,
     frontier_from yielded
       (final (update_request_priorities min_response_count s))).
Proof.
  intros yielded s.
  split; [exact sample_engine_schedules_given|].
  split; [exact first_link_fetching_frontier|].
  exact (frontier_stays_from_yielded yielded s sample_engine_schedules_given
           first_link_fetching_frontier).
Defined.

Lemma sweep_due_heap_wf : heap_wf sweep_due.
Proof. apply heap_wf_checked. vm_compute. reflexivity. Qed.

Lemma sweep_changes_only_the_frontier_witness :
  let s : QSpider := sweep_due in
  let s' : QSpider := final (update_request_priorities None s) in
  heap_wf s ∧
  crawl_state s' = crawl_state s ∧
  (∀ domain, domain_state domain s' = domain_state domain s) ∧
  frontier_kept s s'.
Proof.
  intros s s'. split; [exact sweep_due_heap_wf|].
  exact (sweep_changes_only_the_frontier None s sweep_due_heap_wf).
Defined.

Lemma parsed_response_is_recorded_witness :
  let yielded : list Request := [] ++ returned [] seed_parsed in
  let s : QSpider := first_link_fetching in
  let s' : QSpider := final first_link_parsed in
  reachable yielded s ∧
  response_from yielded first_link_response ∧
  parse first_link_response s = Ok (returned [] first_link_parsed) s' ∧
  response_count s' = response_count s + 1 ∧
  ∃ a, node (G s') !! default (node_ids s) (resp_node_id first_link_response)
         = Some a ∧
       node_url a = Some (resp_url first_link_response) ∧
       node_visited a = Some true ∧
       node_ok a = Some (Some ((resp_status first_link_response =? 200)
                               && resp_has_text first_link_response)) ∧
       node_response_id a = Some (Some (response_count s + 1)) ∧
       is_Some (node_scores a).
Proof.
  intros yielded s s'.
  split; [exact first_link_fetching_reachable|].
  split; [exact first_link_response_from|].
  split; [exact first_link_parsed_ok|].
  exact (parsed_response_is_recorded yielded s first_link_response
           (returned [] first_link_parsed) s'
           first_link_fetching_reachable first_link_response_from
           first_link_parsed_ok).
Defined.

Lemma ignored_request_is_recorded_witness :
  let yielded : list Request := [] ++ returned [] seed_parsed in
  let s : QSpider := final seed_parsed in
  let s' : QSpider :=
    final (on_offdomain_request_dropped redirected_request s) in
  reachable yielded s ∧
  second_link_request ∈ yielded ∧
  req_node_id redirected_request = req_node_id second_link_request ∧
  process_request sample_get_domain redirected_request s = IgnoreRequest s' ∧
  reachable yielded s' ∧
  learned s' = learned s ∧
  domain_scores s' = domain_scores s ∧
  scheduler_queue s' = scheduler_queue s ∧
  ∃ n a, req_node_id redirected_request = Some n ∧
         node (G s') !! n = Some a ∧
         node_visited a = Some true ∧
         node_ok a = Some (Some false) ∧
         is_Some (node_scores a).
Proof.
  intros yielded s s'.
  split; [exact seed_parsed_reachable|].
  split; [exact second_link_yielded|]. split; [reflexivity|].
  split; [exact redirected_request_ignored|].
  exact (ignored_request_is_recorded sample_get_domain yielded s
           redirected_request second_link_request s'
           seed_parsed_reachable second_link_yielded eq_refl
           redirected_request_ignored).
Defined.

Lemma sample_middleware_configured :
  ProxyFromSettingsMiddleware_init sample_get_proxy sample_settings =
    Some sample_middleware.
Proof. vm_compute. reflexivity. Qed.

Lemma proxy_settings_are_used_witness :
  ProxyFromSettingsMiddleware_init sample_get_proxy sample_settings =
    Some sample_middleware ∧
  proxies sample_middleware !! "http" =
    (λ url, sample_get_proxy url "http")
      <$> setting sample_settings "HTTP_PROXY" ∧
  proxies sample_middleware !! "https" =
    (λ url, sample_get_proxy url "https")
      <$> setting sample_settings "HTTPS_PROXY" ∧
  (∀ type_, type_ ≠ "http" → type_ ≠ "https" →
            proxies sample_middleware !! type_ = None) ∧
  auth_encoding sample_middleware
    = sample_settings !! "HTTPPROXY_AUTH_ENCODING".
Proof.
  split; [exact sample_middleware_configured|].
  exact (proxy_settings_are_used sample_get_proxy sample_settings
           sample_middleware sample_middleware_configured).
Defined.

Lemma formless_arrived_heap_wf : heap_wf (final formless_arrived).
Proof. apply heap_wf_checked. vm_compute. reflexivity. Qed.

Lemma formless_arrived_node :
  node (G (final formless_arrived)) !! 0%nat =
    Some {| node_url := Some "https://a.test/";
            node_visited := Some true;
            node_ok := Some (Some true);
            node_response_id := Some (Some 1);
            node_scores := None |}.
Proof. vm_compute. reflexivity. Qed.

Lemma empty_scores_skip_the_tracker_witness :
  let s : QSpider := final formless_arrived in
  let a := {| node_url := Some "https://a.test/";
              node_visited := Some true;
              node_ok := Some (Some true);
              node_response_id := Some (Some 1);
              node_scores := None |} in
  let s' : QSpider := final (learn_from_response 0 formless_response s) in
  heap_wf s ∧
  node (G s) !! 0%nat = Some a ∧
  node_ok a = Some (Some true) ∧
  observed_scores_of (Some true) formless_response = ∅ ∧
  domain_scores s' = domain_scores s ∧
  ∀ domain, domain_state domain s' = domain_state domain s.
Proof.
  intros s a s'.
  split; [exact formless_arrived_heap_wf|].
  split; [exact formless_arrived_node|].
  split; [reflexivity|]. split; [reflexivity|].
  exact (empty_scores_skip_the_tracker 0 formless_response s a (Some true)
           formless_arrived_heap_wf formless_arrived_node eq_refl eq_refl).
Defined.
